(** * PicPixeller: a shallow embedding of the pixel-art conversion core

    The development follows [src/components/pic-pixeller.tsx], class
    [PicPixeller].  Modelling conventions:

    - A JavaScript [number] is an exact rational ([Qc], canonical rationals
      with Leibniz equality).  The literals [0.299], [7 / 16], [1.5] are the
      rationals they denote.  This exact model carries the properties that
      hold whichever way the rounding of intermediate results falls.
    - Where the code turns a computed double into a discrete result (the
      target height and the source position of the resize, the edge test,
      the comparison of distances), module [F64] gives the same functions in
      IEEE-754 binary64 arithmetic, and the properties of those results are
      stated on [F64].  The bins of [generatePalette] are computed exactly;
      what is proved of the palette does not depend on the bin a colour
      falls into.
    - [Math.sqrt q] is kept symbolically by its radicand (type [Dist]); the
      only operations the source performs on a distance are [*= 1.5] and
      [<], both exact on radicands.
    - [ImageData] is a record of [width], [height] and the flat byte array
      [data] (a [Uint8ClampedArray], here [list Z] with entries written
      through [Math.max(0, Math.min(255, Math.round(_)))]).
    - Exceptions thrown by the platform ([new ImageData] with a zero
      dimension, a property read on [undefined]) are values of [result].
    - [targetWidth] and [colorLimit] are integers, as the sliders of the
      application produce them.
    - Once [new ImageData] has accepted the target extent, no division of
      the pipeline has a zero divisor on a source of positive width and
      height, so [Infinity] and [NaN] arise nowhere but as the initial
      [minDistance].
    - [async]/[await] sequencing is plain sequencing.
    - Of the React component the file models [validatePalette] and the
      conversion handler, on palettes that are arrays of colour objects with
      numeric channels and with both canvases mounted; the handler is a
      function from the state it reads to the state updates and the drawing
      it performs. *)

From Stdlib Require Import ZArith QArith Qcanon Qround Lqa Lia.
From Stdlib Require SpecFloat.
From stdpp Require Import base option numbers list list_numbers strings.

Local Open Scope Z_scope.

(** ** Numbers *)

Definition num (z : Z) : Qc := Qc_of_Z z.
Definition frac (n : Z) (d : positive) : Qc := Q2Qc (n # d).

(** [Math.round]: the nearest integer, ties towards +infinity. *)
Definition Math_round (x : Qc) : Z := Qfloor (x + frac 1 2)%Qc.
Definition Math_floor (x : Qc) : Z := Qfloor x.
Definition Math_ceil (x : Qc) : Z := Qceiling x.
Definition Math_abs (x : Qc) : Qc := if bool_decide (x < 0)%Qc then (- x)%Qc else x.

(** [Math.max(0, Math.min(255, Math.round(v)))], the value stored by [setRGBA]. *)
Definition clampByte (v : Qc) : Z := Z.max 0 (Z.min 255 (Math_round v)).

(** ** Distances: [Math.sqrt] of a rational, and [Infinity] *)

Inductive Dist : Type :=
  | Sqrt (radicand : Qc)      (* Math.sqrt(radicand); the radicand of a colour
                                 distance is a weighted sum of squares *)
  | Infinity.

(** [d *= k] for a non-negative factor [k]. *)
Definition Dist_scale (d : Dist) (k : Qc) : Dist :=
  match d with
  | Sqrt q => Sqrt (q * (k * k))%Qc
  | Infinity => Infinity
  end.

(** [d1 < d2]; the square root is monotone on non-negative radicands. *)
Definition Dist_ltb (d1 d2 : Dist) : bool :=
  match d1, d2 with
  | Sqrt q1, Sqrt q2 => bool_decide (q1 < q2)%Qc
  | Sqrt _, Infinity => true
  | Infinity, _ => false
  end.

(** ** Exceptions *)

Inductive Exception : Type :=
  | IndexSizeError   (* new ImageData(sw, sh) with sw or sh not positive *)
  | TypeError.       (* property read on undefined *)

Inductive result (A : Type) : Type :=
  | Ok (v : A)
  | Throw (e : Exception).
Arguments Ok {A} v.
Arguments Throw {A} e.

#[global] Instance result_ret : MRet result := fun A v => Ok v.
#[global] Instance result_bind : MBind result := fun A B k m =>
  match m with
  | Ok v => k v
  | Throw e => Throw e
  end.

(** [for (const a of l) s = body(a, s)], stopping at the first throw. *)
Fixpoint for_of {A S} (l : list A) (body : A -> S -> result S) (s : S) : result S :=
  match l with
  | [] => Ok s
  | a :: l' => s' ← body a s; for_of l' body s'
  end.

(** [for (let i = 0; i < n; i++)]. *)
Definition for_range {S} (n : Z) (body : Z -> S -> result S) (s : S) : result S :=
  for_of (seqZ 0 n) body s.

(** ** Colours *)

Module RGBA.
Record t : Type := mk { r : Qc; g : Qc; b : Qc; a : Qc }.
End RGBA.

Module RGB.
Record t : Type := mk { r : Qc; g : Qc; b : Qc }.
End RGB.

Definition rgba (r g b a : Z) : RGBA.t := RGBA.mk (num r) (num g) (num b) (num a).

(** ** ImageData *)

Record ImageData : Type := mkImageData {
  width : Z;
  height : Z;
  data : list Z
}.

(** [new ImageData(sw, sh)]: transparent black.  A zero extent throws
    [IndexSizeError]; a negative one wraps to an unsigned value too large to
    allocate and throws as well, reported here by the same constructor. *)
Definition new_ImageData (sw sh : Z) : result ImageData :=
  if (sw <=? 0) || (sh <=? 0) then Throw IndexSizeError
  else Ok (mkImageData sw sh (replicate (Z.to_nat (sw * sh * 4)) 0)).

(** The shape every [ImageData] of the platform has. *)
Definition wf_image (img : ImageData) : Prop :=
  0 < width img /\ 0 < height img /\
  length (data img) = Z.to_nat (width img * height img * 4) /\
  Forall (fun v => 0 <= v <= 255) (data img).

(** [data[index]] as a number.  Every read of the pipeline is in range (the
    loops and [getNeighborPixels] guard their coordinates); an out-of-range
    read, [undefined] in the source, is not representable and reads as 0. *)
Definition data_get (d : list Z) (index : Z) : Qc :=
  if index <? 0 then num 0 else num (default 0 (d !! Z.to_nat index)).

(** [data[index] = v] for an already clamped integer [v]; a typed array
    ignores writes outside its length. *)
Definition data_set (d : list Z) (index : Z) (v : Z) : list Z :=
  if index <? 0 then d else <[Z.to_nat index := v]> d.

Definition getRGBA (imageData : ImageData) (x y : Z) : RGBA.t :=
  let index := (y * width imageData + x) * 4 in
  RGBA.mk (data_get (data imageData) index)
          (data_get (data imageData) (index + 1))
          (data_get (data imageData) (index + 2))
          (data_get (data imageData) (index + 3)).

Definition setRGBA (imageData : ImageData) (x y : Z) (color : RGBA.t) : ImageData :=
  let index := (y * width imageData + x) * 4 in
  let d0 := data imageData in
  let d1 := data_set d0 index (clampByte (RGBA.r color)) in
  let d2 := data_set d1 (index + 1) (clampByte (RGBA.g color)) in
  let d3 := data_set d2 (index + 2) (clampByte (RGBA.b color)) in
  let d4 := data_set d3 (index + 3) (clampByte (RGBA.a color)) in
  mkImageData (width imageData) (height imageData) d4.

(** ** The converter object *)

Module Weights.
Record t : Type := mk { r : Qc; g : Qc; b : Qc }.
End Weights.

(** [type Options]: every field optional. *)
Record Options : Type := mkOptions {
  targetWidth : option Z;
  colorLimit : option Z;
  dithering : option bool;
  preserveEdges : option bool;
  edgeThreshold : option Qc;
  posterizationLevels : option Qc;
  ditheringStrength : option Qc;
  palette : option (list RGBA.t)
}.

Definition no_options : Options :=
  mkOptions None None None None None None None None.

(** [this.weights] and the three fields of [this.options] that the
    constructor always defines. *)
Record PicPixeller : Type := mkPicPixeller {
  weights : Weights.t;
  options_edgeThreshold : Qc;
  options_posterizationLevels : Qc;
  options_ditheringStrength : Qc
}.

(** [constructor(options = {})]:
    [{ edgeThreshold: 100, posterizationLevels: 8, ditheringStrength: 1.0, ...options }]. *)
Definition new_PicPixeller (options : Options) : PicPixeller :=
  {| weights := Weights.mk (frac 299 1000) (frac 587 1000) (frac 114 1000);
     options_edgeThreshold := default (num 100) (edgeThreshold options);
     options_posterizationLevels := default (num 8) (posterizationLevels options);
     options_ditheringStrength := default (num 1) (ditheringStrength options) |}.

(** ** Colour distance and nearest palette entry *)

Definition colorDistance (this : PicPixeller) (color1 color2 : RGBA.t) : Dist :=
  let rDiff := (RGBA.r color1 - RGBA.r color2)%Qc in
  let gDiff := (RGBA.g color1 - RGBA.g color2)%Qc in
  let bDiff := (RGBA.b color1 - RGBA.b color2)%Qc in
  let isGrayscale2 :=
    bool_decide (RGBA.r color2 = RGBA.g color2) &&
    bool_decide (RGBA.g color2 = RGBA.b color2) in
  let distance :=
    Sqrt (rDiff * rDiff * Weights.r (weights this) +
          gDiff * gDiff * Weights.g (weights this) +
          bDiff * bDiff * Weights.b (weights this))%Qc in
  if isGrayscale2 &&
     negb (bool_decide (RGBA.r color2 = num 0) &&
           bool_decide (RGBA.g color2 = num 0) &&
           bool_decide (RGBA.b color2 = num 0))
  then Dist_scale distance (frac 3 2)
  else distance.

(** One iteration of the loop of [findClosestColor] on the pair
    [(minDistance, closest)]. *)
Definition closest_step (this : PicPixeller) (color1 : RGBA.t)
    (st : Dist * option RGBA.t) (paletteColor : RGBA.t) : Dist * option RGBA.t :=
  let distance := colorDistance this color1 paletteColor in
  if Dist_ltb distance (fst st) then (distance, Some paletteColor) else st.

(** [closest] starts as [palette[0]], which is [undefined] ([None]) for an
    empty palette. *)
Definition findClosestColor (this : PicPixeller) (color1 : RGBA.t)
    (palette : list RGBA.t) : option RGBA.t :=
  snd (fold_left (closest_step this color1) palette (Infinity, palette !! 0%nat)).

(** Reading [.r] of [undefined] throws. *)
Definition defined {A} (o : option A) : result A :=
  match o with
  | Some v => Ok v
  | None => Throw TypeError
  end.

Definition quantizeColors (this : PicPixeller) (imageData : ImageData)
    (palette : list RGBA.t) : result ImageData :=
  output ← new_ImageData (width imageData) (height imageData);
  for_range (height imageData) (fun y output =>
    for_range (width imageData) (fun x output =>
      let pixel := getRGBA imageData x y in
      newColor ← defined (findClosestColor this pixel palette);
      Ok (setRGBA output x y newColor)) output) output.

(** ** Edge preservation *)

(** The eight offsets in the order of the two nested loops
    [for dy in -1..1] / [for dx in -1..1], the centre skipped. *)
Definition getNeighborPixels (imageData : ImageData) (x y : Z) : list RGBA.t :=
  dy ← seqZ (-1) 3;
  dx ← seqZ (-1) 3;
  if bool_decide (dx = 0) && bool_decide (dy = 0) then []
  else
    let nx := x + dx in
    let ny := y + dy in
    if (0 <=? nx) && (nx <? width imageData) && (0 <=? ny) && (ny <? height imageData)
    then [getRGBA imageData nx ny]
    else [].

(** [c.r * weights.r + c.g * weights.g + c.b * weights.b], the expression
    [isEdgePixel] evaluates on the centre and on each neighbour. *)
Definition luma (this : PicPixeller) (c : RGBA.t) : Qc :=
  (RGBA.r c * Weights.r (weights this) +
   RGBA.g c * Weights.g (weights this) +
   RGBA.b c * Weights.b (weights this))%Qc.

Definition isEdgePixel (this : PicPixeller) (center : RGBA.t)
    (neighbors : list RGBA.t) (threshold : Qc) : bool :=
  existsb (fun neighbor =>
    let diff := Math_abs (luma this center - luma this neighbor)%Qc in
    bool_decide (threshold < diff)%Qc) neighbors.

Definition averageColor (pixels : list RGBA.t) : RGBA.t :=
  let sum := fold_left (fun acc pixel =>
      RGBA.mk (RGBA.r acc + RGBA.r pixel) (RGBA.g acc + RGBA.g pixel)
              (RGBA.b acc + RGBA.b pixel) (RGBA.a acc + RGBA.a pixel))%Qc
    pixels (RGBA.mk 0 0 0 0)%Qc in
  let n := num (Z.of_nat (length pixels)) in
  RGBA.mk (RGBA.r sum / n) (RGBA.g sum / n) (RGBA.b sum / n) (RGBA.a sum / n)%Qc.

(** [for (i = 0; i < src.length; i++) dst[i] = src[i]]. *)
Definition copy_data (src dst : list Z) : list Z :=
  fold_left (fun out i => <[i := default 0 (src !! i)]> out) (seq 0 (length src)) dst.

Definition detectAndPreserveEdges (this : PicPixeller) (imageData : ImageData)
    : result ImageData :=
  output ← new_ImageData (width imageData) (height imageData);
  let threshold := options_edgeThreshold this in
  let output := mkImageData (width output) (height output)
                            (copy_data (data imageData) (data output)) in
  for_range (height imageData) (fun y output =>
    for_range (width imageData) (fun x output =>
      let neighbors := getNeighborPixels imageData x y in
      let center := getRGBA imageData x y in
      if bool_decide (0 < length neighbors)%nat then
        let isEdge := isEdgePixel this center neighbors threshold in
        if negb isEdge then
          let avgColor := averageColor neighbors in
          Ok (setRGBA output x y avgColor)
        else Ok output
      else Ok output) output) output.

(** ** Resampling *)

Definition targetHeight_of (imageData : ImageData) (targetWidth : Z) : Z :=
  let ratio := (num targetWidth / num (width imageData))%Qc in
  Math_round (num (height imageData) * ratio)%Qc.

Definition resizeImage (this : PicPixeller) (imageData : ImageData) (targetWidth : Z)
    : result ImageData :=
  let targetHeight := targetHeight_of imageData targetWidth in
  output ← new_ImageData targetWidth targetHeight;
  let scaleX := (num (width imageData) / num targetWidth)%Qc in
  let scaleY := (num (height imageData) / num targetHeight)%Qc in
  for_range targetHeight (fun y output =>
    for_range targetWidth (fun x output =>
      let srcX := Math_floor (num x * scaleX)%Qc in
      let srcY := Math_floor (num y * scaleY)%Qc in
      let pixel := getRGBA imageData srcX srcY in
      Ok (setRGBA output x y pixel)) output) output.

(** ** Floyd-Steinberg dithering *)

(** The error grid [errors[y][x]], one fresh [{r: 0, g: 0, b: 0}] per cell. *)
Definition new_errors (w h : Z) : list (list RGB.t) :=
  replicate (Z.to_nat h) (replicate (Z.to_nat w) (RGB.mk 0 0 0)%Qc).

Definition errors_get (errors : list (list RGB.t)) (x y : Z) : RGB.t :=
  default (RGB.mk 0 0 0)%Qc (errors !! Z.to_nat y ≫= fun row => row !! Z.to_nat x).

(** [errors[ny][nx].r += error.r * weight] and likewise for [g] and [b]. *)
Definition errors_add (errors : list (list RGB.t)) (nx ny : Z) (error : RGB.t)
    (weight : Qc) : list (list RGB.t) :=
  alter (alter (fun e =>
      RGB.mk (RGB.r e + RGB.r error * weight)
             (RGB.g e + RGB.g error * weight)
             (RGB.b e + RGB.b error * weight))%Qc (Z.to_nat nx)) (Z.to_nat ny) errors.

Definition distributeError (errors : list (list RGB.t)) (error : RGB.t)
    (x y width height : Z) : list (list RGB.t) :=
  let distribution :=
    [ (x + 1, y, frac 7 16);
      (x - 1, y + 1, frac 3 16);
      (x, y + 1, frac 5 16);
      (x + 1, y + 1, frac 1 16) ] in
  fold_left (fun errors '(nx, ny, weight) =>
    if (0 <=? nx) && (nx <? width) && (0 <=? ny) && (ny <? height)
    then errors_add errors nx ny error weight
    else errors) distribution errors.

Definition applyDithering (this : PicPixeller) (imageData : ImageData)
    (palette : list RGBA.t) (strength : Qc) : result ImageData :=
  output ← new_ImageData (width imageData) (height imageData);
  let errors := new_errors (width imageData) (height imageData) in
  st ← for_range (height imageData) (fun y st =>
    for_range (width imageData) (fun x '(output, errors) =>
      let pixel := getRGBA imageData x y in
      let error := errors_get errors x y in
      let adjustedPixel :=
        RGBA.mk (RGBA.r pixel + RGB.r error * strength)
                (RGBA.g pixel + RGB.g error * strength)
                (RGBA.b pixel + RGB.b error * strength)
                (RGBA.a pixel) in
      newPixel ← defined (findClosestColor this adjustedPixel palette);
      let output := setRGBA output x y newPixel in
      let pixelError :=
        RGB.mk (RGBA.r adjustedPixel - RGBA.r newPixel)
               (RGBA.g adjustedPixel - RGBA.g newPixel)
               (RGBA.b adjustedPixel - RGBA.b newPixel) in
      Ok (output,
          distributeError errors pixelError x y (width imageData) (height imageData)))%Qc
      st) (output, errors);
  Ok (fst st).

(** ** Colour space *)

Definition Math_max (x y : Qc) : Qc := if bool_decide (x < y)%Qc then y else x.
Definition Math_min (x y : Qc) : Qc := if bool_decide (y < x)%Qc then y else x.

Module HSL.
Record t : Type := mk { h : Qc; s : Qc; l : Qc }.
End HSL.

Definition rgbToHsl (r g b : Qc) : HSL.t :=
  let r := (r / num 255)%Qc in
  let g := (g / num 255)%Qc in
  let b := (b / num 255)%Qc in
  let max := Math_max (Math_max r g) b in
  let min := Math_min (Math_min r g) b in
  let l := ((max + min) / num 2)%Qc in
  if bool_decide (max = min) then HSL.mk 0 0 l
  else
    let d := (max - min)%Qc in
    let s := if bool_decide (frac 1 2 < l)%Qc
             then (d / (num 2 - max - min))%Qc
             else (d / (max + min))%Qc in
    let h :=
      if bool_decide (max = r)
      then ((g - b) / d + (if bool_decide (g < b)%Qc then num 6 else num 0))%Qc
      else if bool_decide (max = g) then ((b - r) / d + num 2)%Qc
      else ((r - g) / d + num 4)%Qc in
    HSL.mk (h / num 6)%Qc s l.

(** ** Palette generation *)

(** A [Map] is an association list in insertion order: [set] on a present
    key keeps its position, on a fresh key appends. *)
Fixpoint Map_upsert {K V} `{EqDecision K} (k : K) (f : option V -> V)
    (m : list (K * V)) : list (K * V) :=
  match m with
  | [] => [(k, f None)]
  | (k', v) :: m' =>
      if decide (k = k') then (k', f (Some v)) :: m'
      else (k', v) :: Map_upsert k f m'
  end.

(** A pixel of [pixels]: [{ r, g, b, h, s, l, count: 1 }]. *)
Module Px.
Record t : Type := mk { r : Qc; g : Qc; b : Qc; h : Qc; s : Qc; l : Qc; count : Z }.
End Px.

(** A cell of [slGrid] and an entry of [cellColors]: [{ r, g, b, count }]. *)
Module Cell.
Record t : Type := mk { r : Qc; g : Qc; b : Qc; count : Z }.
End Cell.

(** [Array.prototype.sort((a, b) => b.count - a.count)]: stable, descending
    by [count]. *)
Fixpoint insert_by_count (c : Cell.t) (sorted : list Cell.t) : list Cell.t :=
  match sorted with
  | [] => [c]
  | c' :: rest =>
      if Cell.count c' <=? Cell.count c then c :: sorted
      else c' :: insert_by_count c rest
  end.

Definition sort_by_count (cells : list Cell.t) : list Cell.t :=
  foldr insert_by_count [] cells.

(** [Array.prototype.slice(0, end)]; a negative [end] counts from the back. *)
Definition slice0 {A} (l : list A) (end_ : Z) : list A :=
  if end_ <? 0 then take (Z.to_nat (Z.of_nat (length l) + end_)) l
  else take (Z.to_nat end_) l.

Definition HUE_BINS : Z := 12.
Definition SL_GRID : Z := 4.

Definition palette_pixels (imageData : ImageData) : list Px.t :=
  (fun k =>
     let i := 4 * k in
     let r := data_get (data imageData) i in
     let g := data_get (data imageData) (i + 1) in
     let b := data_get (data imageData) (i + 2) in
     let hsl := rgbToHsl r g b in
     Px.mk r g b (HSL.h hsl) (HSL.s hsl) (HSL.l hsl) 1)
  <$> seqZ 0 ((Z.of_nat (length (data imageData)) + 3) / 4).

Definition hueBins_of (pixels : list Px.t) : list (Z * list Px.t) :=
  fold_left (fun hueBins pixel =>
    let hueBin := Math_floor (Px.h pixel * num HUE_BINS)%Qc in
    Map_upsert hueBin (fun o => default [] o ++ [pixel]) hueBins) pixels [].

Definition slGrid_of (binPixels : list Px.t) : list (Z * Z * Cell.t) :=
  fold_left (fun slGrid pixel =>
    let sIndex := Math_floor (Px.s pixel * num SL_GRID)%Qc in
    let lIndex := Math_floor (Px.l pixel * num SL_GRID)%Qc in
    Map_upsert (sIndex, lIndex) (fun o =>
      let cell := default (Cell.mk 0 0 0 0)%Qc o in
      Cell.mk (Cell.r cell + Px.r pixel) (Cell.g cell + Px.g pixel)
              (Cell.b cell + Px.b pixel) (Cell.count cell + 1))%Qc slGrid)
    binPixels [].

Definition cellColors_of (binPixels : list Px.t) (colorsPerBin : Z) : list Cell.t :=
  slice0 (sort_by_count
    ((fun '(key, cell) =>
        Cell.mk (num (Math_round (Cell.r cell / num (Cell.count cell))))
                (num (Math_round (Cell.g cell / num (Cell.count cell))))
                (num (Math_round (Cell.b cell / num (Cell.count cell))))
                (Cell.count cell))%Qc <$> slGrid_of binPixels)) colorsPerBin.

Definition generatePalette (this : PicPixeller) (imageData : ImageData)
    (colorLimit : Z) : list RGBA.t :=
  let pixels := palette_pixels imageData in
  let hueBins := hueBins_of pixels in
  let colorsPerBin := Math_ceil (num colorLimit / num HUE_BINS)%Qc in
  let palette :=
    fold_left (fun palette '(_, binPixels) =>
      if bool_decide (length binPixels = 0%nat) then palette
      else palette ++ cellColors_of binPixels colorsPerBin) hueBins [] in
  (fun color => RGBA.mk (Cell.r color) (Cell.g color) (Cell.b color) (num 255))
  <$> slice0 (sort_by_count palette) colorLimit.

(** ** The pipeline *)

Definition convertToPixelArt (this : PicPixeller) (imageData : ImageData)
    (options : Options) : result ImageData :=
  let targetWidth := default 64 (targetWidth options) in
  let colorLimit := default 32 (colorLimit options) in
  let dithering := default true (dithering options) in
  let preserveEdges := default true (preserveEdges options) in
  let ditheringStrength :=
    default (options_ditheringStrength this) (ditheringStrength options) in
  let palette := palette options in
  resized ← resizeImage this imageData targetWidth;
  processed ← (if preserveEdges then detectAndPreserveEdges this resized
               else Ok resized);
  let colorPalette :=
    match palette with
    | Some p => p
    | None => generatePalette this processed colorLimit
    end in
  if dithering then applyDithering this processed colorPalette ditheringStrength
  else quantizeColors this processed colorPalette.

(** ** Double precision *)

(** The numbers of the platform are IEEE-754 binary64 values.  Module [F64]
    gives them with the operations of [SpecFloat] (53 bits, round to
    nearest, ties to even) and restates in that arithmetic the places where
    the code turns a computed double into a discrete result: the target
    height and the source position of [resizeImage], the edge test of
    [isEdgePixel] and the comparison of distances in [findClosestColor].
    Away from those places the exact functions above are used as they are;
    in particular the average [averageColor] computes of up to eight bytes
    and [setRGBA] rounds is the same in both arithmetics
    ([average_round64]). *)
Module F64.

Definition float : Type := SpecFloat.spec_float.
Definition prec : Z := 53.
Definition emax : Z := 1024.

Definition add : float -> float -> float := SpecFloat.SFadd prec emax.
Definition sub : float -> float -> float := SpecFloat.SFsub prec emax.
Definition mul : float -> float -> float := SpecFloat.SFmul prec emax.
Definition div : float -> float -> float := SpecFloat.SFdiv prec emax.
Definition sqrt : float -> float := SpecFloat.SFsqrt prec emax.
Definition abs : float -> float := SpecFloat.SFabs.

(** [x < y] and [x === y]; false when either side is [NaN]. *)
Definition ltb : float -> float -> bool := SpecFloat.SFltb.
Definition eqb : float -> float -> bool := SpecFloat.SFeqb.

Definition Infinity : float := SpecFloat.S754_infinity false.

(** The double nearest to an integer. *)
Definition of_Z (z : Z) : float := SpecFloat.binary_normalize prec emax z 0 false.

(** The double a rational stands for: a byte is that integer, a literal such
    as [0.299] the double nearest to 299/1000 (the quotient of two integers
    below 2^53 is rounded once). *)
Definition of_Qc (q : Qc) : float :=
  div (of_Z (Qnum (this q))) (of_Z (Zpos (Qden (this q)))).

(** [Math.round] of a finite double, exactly: the nearest integer, ties
    towards +infinity.  [NaN] and the infinities give 0, the value
    [new ImageData] makes of them. *)
Definition Math_round (x : float) : Z :=
  match x with
  | SpecFloat.S754_finite s m e =>
      let M := SpecFloat.cond_Zopp s (Zpos m) in
      if 0 <=? e then M * 2 ^ e else (2 * M + 2 ^ (- e)) / 2 ^ (- e + 1)
  | _ => 0
  end.

(** [Math.floor] of a finite double, exactly; 0 otherwise. *)
Definition Math_floor (x : float) : Z :=
  match x with
  | SpecFloat.S754_finite s m e =>
      let M := SpecFloat.cond_Zopp s (Zpos m) in
      if 0 <=? e then M * 2 ^ e else M / 2 ^ (- e)
  | _ => 0
  end.

(** *** Resampling *)

Definition targetHeight_of (imageData : ImageData) (targetWidth : Z) : Z :=
  let ratio := div (of_Z targetWidth) (of_Z (width imageData)) in
  Math_round (mul (of_Z (height imageData)) ratio).

Definition resizeImage (this : PicPixeller) (imageData : ImageData) (targetWidth : Z)
    : result ImageData :=
  let targetHeight := targetHeight_of imageData targetWidth in
  output ← new_ImageData targetWidth targetHeight;
  let scaleX := div (of_Z (width imageData)) (of_Z targetWidth) in
  let scaleY := div (of_Z (height imageData)) (of_Z targetHeight) in
  for_range targetHeight (fun y output =>
    for_range targetWidth (fun x output =>
      let srcX := Math_floor (mul (of_Z x) scaleX) in
      let srcY := Math_floor (mul (of_Z y) scaleY) in
      let pixel := getRGBA imageData srcX srcY in
      Ok (setRGBA output x y pixel)) output) output.

(** *** Edge preservation *)

Definition luma (this : PicPixeller) (c : RGBA.t) : float :=
  add (add (mul (of_Qc (RGBA.r c)) (of_Qc (Weights.r (weights this))))
           (mul (of_Qc (RGBA.g c)) (of_Qc (Weights.g (weights this)))))
      (mul (of_Qc (RGBA.b c)) (of_Qc (Weights.b (weights this)))).

Definition isEdgePixel (this : PicPixeller) (center : RGBA.t)
    (neighbors : list RGBA.t) (threshold : Qc) : bool :=
  existsb (fun neighbor =>
    let diff := abs (sub (luma this center) (luma this neighbor)) in
    ltb (of_Qc threshold) diff) neighbors.

Definition detectAndPreserveEdges (this : PicPixeller) (imageData : ImageData)
    : result ImageData :=
  output ← new_ImageData (width imageData) (height imageData);
  let threshold := options_edgeThreshold this in
  let output := mkImageData (width output) (height output)
                            (copy_data (data imageData) (data output)) in
  for_range (height imageData) (fun y output =>
    for_range (width imageData) (fun x output =>
      let neighbors := getNeighborPixels imageData x y in
      let center := getRGBA imageData x y in
      if bool_decide (0 < length neighbors)%nat then
        let isEdge := isEdgePixel this center neighbors threshold in
        if negb isEdge then
          let avgColor := averageColor neighbors in
          Ok (setRGBA output x y avgColor)
        else Ok output
      else Ok output) output) output.

(** *** Nearest palette entry *)

Definition colorDistance (this : PicPixeller) (color1 color2 : RGBA.t) : float :=
  let rDiff := sub (of_Qc (RGBA.r color1)) (of_Qc (RGBA.r color2)) in
  let gDiff := sub (of_Qc (RGBA.g color1)) (of_Qc (RGBA.g color2)) in
  let bDiff := sub (of_Qc (RGBA.b color1)) (of_Qc (RGBA.b color2)) in
  let isGrayscale2 :=
    eqb (of_Qc (RGBA.r color2)) (of_Qc (RGBA.g color2)) &&
    eqb (of_Qc (RGBA.g color2)) (of_Qc (RGBA.b color2)) in
  let distance :=
    sqrt (add (add (mul (mul rDiff rDiff) (of_Qc (Weights.r (weights this))))
                   (mul (mul gDiff gDiff) (of_Qc (Weights.g (weights this)))))
              (mul (mul bDiff bDiff) (of_Qc (Weights.b (weights this))))) in
  if isGrayscale2 &&
     negb (eqb (of_Qc (RGBA.r color2)) (of_Z 0) &&
           eqb (of_Qc (RGBA.g color2)) (of_Z 0) &&
           eqb (of_Qc (RGBA.b color2)) (of_Z 0))
  then mul distance (of_Qc (frac 3 2))
  else distance.

Definition closest_step (this : PicPixeller) (color1 : RGBA.t)
    (st : float * option RGBA.t) (paletteColor : RGBA.t) : float * option RGBA.t :=
  let distance := colorDistance this color1 paletteColor in
  if ltb distance (fst st) then (distance, Some paletteColor) else st.

Definition findClosestColor (this : PicPixeller) (color1 : RGBA.t)
    (palette : list RGBA.t) : option RGBA.t :=
  snd (fold_left (closest_step this color1) palette (Infinity, palette !! 0%nat)).

(** *** The pipeline

    [convertToPixelArt] with the resize and the edge test in double
    precision; the colour stage is the one above. *)
Definition convertToPixelArt (this : PicPixeller) (imageData : ImageData)
    (options : Options) : result ImageData :=
  let targetWidth := default 64 (targetWidth options) in
  let colorLimit := default 32 (colorLimit options) in
  let dithering := default true (dithering options) in
  let preserveEdges := default true (preserveEdges options) in
  let ditheringStrength :=
    default (options_ditheringStrength this) (ditheringStrength options) in
  let palette := palette options in
  resized ← resizeImage this imageData targetWidth;
  processed ← (if preserveEdges then detectAndPreserveEdges this resized
               else Ok resized);
  let colorPalette :=
    match palette with
    | Some p => p
    | None => generatePalette this processed colorLimit
    end in
  if dithering then applyDithering this processed colorPalette ditheringStrength
  else quantizeColors this processed colorPalette.

End F64.

(** ** The component: palette validation and the conversion handler *)

Module Component.

(** The [settings] state. *)
Record Settings : Type := mkSettings {
  targetWidth : Z;
  colorLimit : Z;
  dithering : bool;
  preserveEdges : bool;
  useCurrentPalette : bool;
  ditheringStrength : Qc
}.


(** A function that returns or throws [new Error(message)]. *)
Inductive attempt (A : Type) : Type :=
  | Returns (v : A)
  | ThrowsError (message : string).
Arguments Returns {A} v.
Arguments ThrowsError {A} message.

(** The callback of [palette.every]; [typeof] holds of every channel of a
    colour object with numeric channels. *)
Definition hasValidColor (color : RGBA.t) : bool :=
  bool_decide (num 0 <= RGBA.r color)%Qc && bool_decide (RGBA.r color <= num 255)%Qc &&
  bool_decide (num 0 <= RGBA.g color)%Qc && bool_decide (RGBA.g color <= num 255)%Qc &&
  bool_decide (num 0 <= RGBA.b color)%Qc && bool_decide (RGBA.b color <= num 255)%Qc.

Definition validatePalette (palette : list RGBA.t) : attempt bool :=
  if bool_decide (length palette = 0%nat) then
    ThrowsError "Invalid palette: Palette must be a non-empty array"
  else
    let hasValidColors := forallb hasValidColor palette in
    if negb hasValidColors then
      ThrowsError "Invalid palette: Each color must have valid RGB values (0-255)"
    else Returns true.

(** What the [catch] block of the handler receives. *)
Inductive Caught : Type :=
  | Error (message : string)
  | Raised (e : Exception).

(** What one run of the handler does besides toggling [processing]:
    [setCurrentPalette(palette)], [resultCtx.putImageData(result, 0, 0)]
    and the error the [catch] block passes to [setError]. *)
Record Effects : Type := mkEffects {
  setCurrentPalette : option (list RGBA.t);
  putImageData : option ImageData;
  caught : option Caught
}.

(** The handler [convertToPixelArt] of the component, reading [settings],
    [processing], [currentPalette] and the pixels of the source canvas. *)
Definition convertToPixelArt (settings : Settings) (processing : bool)
    (currentPalette : list RGBA.t) (sourceImageData : ImageData) : Effects :=
  if processing then mkEffects None None None
  else
    let converter := new_PicPixeller no_options in
    let convert (palette : list RGBA.t) (set : option (list RGBA.t)) :=
      match convertToPixelArt converter sourceImageData
              (mkOptions (Some (targetWidth settings)) (Some (colorLimit settings))
                 (Some (dithering settings)) (Some (preserveEdges settings))
                 None None (Some (ditheringStrength settings)) (Some palette)) with
      | Ok result => mkEffects set (Some result) None
      | Throw e => mkEffects set None (Some (Raised e))
      end in
    if useCurrentPalette settings then
      match validatePalette currentPalette with
      | Returns _ => convert currentPalette None
      | ThrowsError message =>
          mkEffects None None
            (Some (Error ("Cannot use current palette: " +:+ message)))
      end
    else
      let palette := generatePalette converter sourceImageData (colorLimit settings) in
      convert palette (Some palette).

End Component.

(** * Vocabulary of the statements *)

(** The coordinates visited by [for y < h] / [for x < w], in visiting order. *)
Definition coords (w h : Z) : list (Z * Z) :=
  y ← seqZ 0 h; (fun x => (x, y)) <$> seqZ 0 w.

Definition inb (w h : Z) (p : Z * Z) : Prop :=
  0 <= p.1 < w /\ 0 <= p.2 < h.

(** The pixel a later [getRGBA] reads back after [setRGBA] stored [color]. *)
Definition stored (color : RGBA.t) : RGBA.t :=
  RGBA.mk (num (clampByte (RGBA.r color))) (num (clampByte (RGBA.g color)))
          (num (clampByte (RGBA.b color))) (num (clampByte (RGBA.a color))).

Definition sized (w h : Z) (img : ImageData) : Prop :=
  width img = w /\ height img = h /\ length (data img) = Z.to_nat (w * h * 4).

#[global] Instance Dist_eq_dec : EqDecision Dist.
Proof. solve_decision. Defined.
#[global] Instance RGBA_eq_dec : EqDecision RGBA.t.
Proof. solve_decision. Defined.
#[global] Instance RGB_eq_dec : EqDecision RGB.t.
Proof. solve_decision. Defined.
#[global] Instance ImageData_eq_dec : EqDecision ImageData.
Proof. solve_decision. Defined.
#[global] Instance Exception_eq_dec : EqDecision Exception.
Proof. solve_decision. Defined.
#[global] Instance result_eq_dec {A} `{EqDecision A} : EqDecision (result A).
Proof. solve_decision. Defined.

(** Decide a closed proposition by evaluation. *)
Ltac by_eval :=
  lazymatch goal with
  | |- ?P => apply (bool_decide_unpack P); vm_compute; exact I
  end.

(** The converter the application creates: [new PicPixeller()]. *)
Definition converter : PicPixeller := new_PicPixeller no_options.

(** A [w] by [h] buffer whose pixels all have the bytes [px]. *)
Definition fill_image (w h : Z) (px : list Z) : ImageData :=
  mkImageData w h (mjoin (replicate (Z.to_nat (w * h)) px)).

(** [[[r, g, b], ...]] with the implicit alpha 255 of the palette format. *)
Definition palette_of (l : list (Z * Z * Z)) : list RGBA.t :=
  (fun '(r, g, b) => rgba r g b 255) <$> l.

(** [errors[row][col]]. *)
Definition errors_at (errors : list (list RGB.t)) (row col : Z) : RGB.t :=
  errors_get errors col row.

Definition red_error (v : Z) : RGB.t := RGB.mk (num v) (num 0) (num 0).

(** Turn a goal or hypothesis on [Qc] into one on [Q]. *)
Ltac Qc_unfold :=
  unfold Qcle, Qclt, Qcplus, Qcmult, Qcminus, Qcopp, frac, num, Qc_of_Z, Q2Qc in *;
  cbn [this] in *.

Definition same_rgb (c1 c2 : RGBA.t) : Prop :=
  RGBA.r c1 = RGBA.r c2 /\ RGBA.g c1 = RGBA.g c2 /\ RGBA.b c1 = RGBA.b c2.

(** A channel holding an integer of the byte range. *)
Definition is_byte (v : Qc) : Prop := exists z, 0 <= z <= 255 /\ v = num z.

(** A palette whose R, G and B channels are integers in 0..255. *)
Definition byte_palette (pal : list RGBA.t) : Prop :=
  Forall (fun e => is_byte (RGBA.r e) /\ is_byte (RGBA.g e) /\ is_byte (RGBA.b e)) pal.

#[global] Instance wf_image_dec img : Decision (wf_image img).
Proof. unfold wf_image. apply _. Defined.

Definition same_dims (w h : Z) (img : ImageData) : Prop :=
  width img = w /\ height img = h.

(** The documented ranges of the configuration (spec, data model):
    targetWidth 8-256, colorLimit 2-64, ditheringStrength 0.0-1.0, and a
    supplied palette of one or more entries with channels in [0,255]. *)
Definition channel_in_range (v : Qc) : Prop := (num 0 <= v)%Qc /\ (v <= num 255)%Qc.

Definition valid_palette (p : list RGBA.t) : Prop :=
  p <> [] /\
  Forall (fun e => channel_in_range (RGBA.r e) /\ channel_in_range (RGBA.g e) /\
                   channel_in_range (RGBA.b e)) p.

Definition valid_config (this : PicPixeller) (opts : Options) : Prop :=
  8 <= default 64 (targetWidth opts) <= 256 /\
  2 <= default 32 (colorLimit opts) <= 64 /\
  ((num 0 <= default (options_ditheringStrength this) (ditheringStrength opts))%Qc /\
   (default (options_ditheringStrength this) (ditheringStrength opts) <= num 1)%Qc) /\
  match palette opts with
  | Some p => valid_palette p
  | None => True
  end.

#[global] Instance valid_config_dec this opts : Decision (valid_config this opts).
Proof.
  unfold valid_config, valid_palette, channel_in_range.
  destruct (palette opts); apply _.
Defined.

Definition with_ditheringStrength (s : option Qc) (o : Options) : Options :=
  mkOptions (targetWidth o) (colorLimit o) (dithering o) (preserveEdges o)
            (edgeThreshold o) (posterizationLevels o) s (palette o).

Definition with_edgeThreshold (t : option Qc) (o : Options) : Options :=
  mkOptions (targetWidth o) (colorLimit o) (dithering o) (preserveEdges o)
            t (posterizationLevels o) (ditheringStrength o) (palette o).

(** The eight positions around (x, y), row by row. *)
Definition adjacent (x y : Z) : list (Z * Z) :=
  [ (x - 1, y - 1); (x, y - 1); (x + 1, y - 1);
    (x - 1, y);                 (x + 1, y);
    (x - 1, y + 1); (x, y + 1); (x + 1, y + 1) ].

#[global] Instance inb_dec w h p : Decision (inb w h p).
Proof. unfold inb. apply _. Defined.

(** The in-bounds neighbours of (x, y), read from [img]. *)
Definition neighbors_in (img : ImageData) (x y : Z) : list RGBA.t :=
  (fun p => getRGBA img p.1 p.2) <$>
  filter (inb (width img) (height img)) (adjacent x y).

(** Luma with the weights 0.299 / 0.587 / 0.114. *)
Definition luma601 (c : RGBA.t) : Qc :=
  (RGBA.r c * frac 299 1000 + RGBA.g c * frac 587 1000 + RGBA.b c * frac 114 1000)%Qc.

Definition mean (l : list Qc) : Qc :=
  (foldr Qcplus 0 l / num (Z.of_nat (length l)))%Qc.

(** The unweighted average of the four channels. *)
Definition mean_color (l : list RGBA.t) : RGBA.t :=
  RGBA.mk (mean (RGBA.r <$> l)) (mean (RGBA.g <$> l))
          (mean (RGBA.b <$> l)) (mean (RGBA.a <$> l)).

(** Each channel rounded to the nearest integer, as a pixel holds it. *)
Definition rounded (c : RGBA.t) : RGBA.t :=
  RGBA.mk (num (Math_round (RGBA.r c))) (num (Math_round (RGBA.g c)))
          (num (Math_round (RGBA.b c))) (num (Math_round (RGBA.a c))).

(** A pixel read from a well-formed buffer holds four bytes. *)
Definition byte_pixel (c : RGBA.t) : Prop :=
  is_byte (RGBA.r c) /\ is_byte (RGBA.g c) /\ is_byte (RGBA.b c) /\ is_byte (RGBA.a c).

(** ** Vocabulary of the further properties *)


(** An entry with integer R, G and B in 0..255 and alpha 255. *)
Definition opaque_byte_color (e : RGBA.t) : Prop :=
  is_byte (RGBA.r e) /\ is_byte (RGBA.g e) /\ is_byte (RGBA.b e) /\ RGBA.a e = num 255.

(** An error grid of [h] rows of [w] cells. *)
Definition grid_shape (w h : Z) (errors : list (list RGB.t)) : Prop :=
  length errors = Z.to_nat h /\ Forall (fun row => length row = Z.to_nat w) errors.

(** [cell + error * weight], channel by channel. *)
Definition add_scaled (cell error : RGB.t) (weight : Qc) : RGB.t :=
  RGB.mk (RGB.r cell + RGB.r error * weight) (RGB.g cell + RGB.g error * weight)
         (RGB.b cell + RGB.b error * weight)%Qc.

(** The Floyd-Steinberg share of the cell at offset (dx, dy) from the
    source pixel. *)
Definition fs_weight (dx dy : Z) : Qc :=
  if decide (dx = 1 /\ dy = 0) then frac 7 16
  else if decide (dx = -1 /\ dy = 1) then frac 3 16
  else if decide (dx = 0 /\ dy = 1) then frac 5 16
  else if decide (dx = 1 /\ dy = 1) then frac 1 16
  else 0%Qc.

(** Every pixel of the buffer is the colour [c], alpha included. *)
Definition uniform (img : ImageData) (c : RGBA.t) : Prop :=
  forall x y, inb (width img) (height img) (x, y) -> getRGBA img x y = c.

(** A pixel of [pixels] with integer R, G and B in 0..255. *)
Definition px_bytes (p : Px.t) : Prop :=
  is_byte (Px.r p) /\ is_byte (Px.g p) /\ is_byte (Px.b p).

(** A cell of [slGrid]: channel sums of [count] byte pixels. *)
Definition cell_sums (c : Cell.t) : Prop :=
  1 <= Cell.count c /\
  exists sr sg sb,
    Cell.r c = num sr /\ Cell.g c = num sg /\ Cell.b c = num sb /\
    0 <= sr <= 255 * Cell.count c /\ 0 <= sg <= 255 * Cell.count c /\
    0 <= sb <= 255 * Cell.count c.

(** An entry of [cellColors] with integer R, G and B in 0..255. *)
Definition cell_bytes (c : Cell.t) : Prop :=
  is_byte (Cell.r c) /\ is_byte (Cell.g c) /\ is_byte (Cell.b c).

(** A number of the closed interval from 0 to 1. *)
Definition unit_interval (x : Qc) : Prop := (0 <= x)%Qc /\ (x <= 1)%Qc.

(** Facts on [Qc] restated on the underlying fractions, for [lra]/[nra]. *)
Ltac Qc_hyps :=
  repeat match goal with
  | H : ~ (_ < _)%Qc |- _ => apply Qcnot_lt_le in H
  | H : @eq Qc ?x ?y |- _ =>
      assert (this x == this y)%Q
        by exact (eq_ind x (fun z => this x == this z)%Q (Qeq_refl _) y H);
      clear H
  | H : ~ (@eq Qc ?x ?y) |- _ =>
      assert (~ (this x == this y)%Q) by (intros ?; apply H; by apply Qc_is_canon);
      clear H
  end.

Ltac Qc_to_Q :=
  Qc_hyps;
  unfold Qcdiv, Qcinv, Qcminus in *; Qc_unfold; Qc_unfold;
  rewrite ?Qred_correct in *;
  change (/ inject_Z 6)%Q with (1 # 6)%Q in *;
  change (/ inject_Z 2)%Q with (1 # 2)%Q in *;
  change (/ inject_Z 255)%Q with (1 # 255)%Q in *;
  change (inject_Z 12) with 12%Q in *;
  change (inject_Z 6) with 6%Q in *; change (inject_Z 4) with 4%Q in *;
  change (inject_Z 2) with 2%Q in *; change (inject_Z 0) with 0%Q in *;
  change (inject_Z 255) with 255%Q in *;
  change (Qred (1 # 2)) with (1 # 2)%Q in *;
  change (Qred (1 # 6)) with (1 # 6)%Q in *;
  change (Qred (1 # 255)) with (1 # 255)%Q in *;
  change (Qred 0) with 0%Q in *; change (Qred 1) with 1%Q in *.

(** Replaces the inverse of a positive term by a variable with its two
    defining facts. *)
Ltac abstract_inv :=
  repeat match goal with
  | |- context [Qinv ?e] =>
      let i := fresh "i" in
      let Hi := fresh "Hi" in
      let Hp := fresh "Hp" in
      assert (e * / e == 1)%Q as Hi by (apply Qmult_inv_r; lra);
      assert (0 < / e)%Q as Hp by (apply Qinv_lt_0_compat; lra);
      generalize dependent (/ e)%Q; intros i Hi Hp
  end.

(** ** Vocabulary of the statements in double precision *)

(** The column and the row [resizeImage] reads for the target column [x]
    and the target row [y]: [Math.floor(x * scaleX)], [Math.floor(y * scaleY)]. *)
Definition source_x (img : ImageData) (targetWidth x : Z) : Z :=
  F64.Math_floor (F64.mul (F64.of_Z x)
                    (F64.div (F64.of_Z (width img)) (F64.of_Z targetWidth))).

Definition source_y (img : ImageData) (targetWidth y : Z) : Z :=
  F64.Math_floor (F64.mul (F64.of_Z y)
                    (F64.div (F64.of_Z (height img))
                             (F64.of_Z (F64.targetHeight_of img targetWidth)))).

(** The buffer after the resize and, when switched on, edge preservation. *)
Definition processed64 (this : PicPixeller) (img : ImageData) (opts : Options)
    : result ImageData :=
  resized ← F64.resizeImage this img (default 64 (targetWidth opts));
  if default true (preserveEdges opts) then F64.detectAndPreserveEdges this resized
  else Ok resized.

(** The palette the colour stage works with: the supplied one, or the one
    generated from the processed buffer. *)
Definition palette_in_use (this : PicPixeller) (opts : Options) (processed : ImageData)
    : list RGBA.t :=
  match palette opts with
  | Some p => p
  | None => generatePalette this processed (default 32 (colorLimit opts))
  end.

(** A double of positive sign, or [NaN]. *)
Definition nonneg64 (x : F64.float) : Prop :=
  match x with
  | SpecFloat.S754_zero s => s = false
  | SpecFloat.S754_infinity s => s = false
  | SpecFloat.S754_nan => True
  | SpecFloat.S754_finite s _ _ => s = false
  end.

(** The luma of a pixel as [isEdgePixel] evaluates it:
    [r * 0.299 + g * 0.587 + b * 0.114], from left to right, every product
    and sum rounded to a double. *)
Definition luma64 (c : RGBA.t) : F64.float :=
  F64.add (F64.add (F64.mul (F64.of_Qc (RGBA.r c)) (F64.of_Qc (frac 299 1000)))
                   (F64.mul (F64.of_Qc (RGBA.g c)) (F64.of_Qc (frac 587 1000))))
          (F64.mul (F64.of_Qc (RGBA.b c)) (F64.of_Qc (frac 114 1000))).

(** [Math.abs(luma(center) - luma(neighbor)) > threshold] on doubles. *)
Definition luma_differs64 (threshold : Qc) (center neighbor : RGBA.t) : bool :=
  F64.ltb (F64.of_Qc threshold) (F64.abs (F64.sub (luma64 center) (luma64 neighbor))).

(** A computed distance that is a number below [Infinity]: neither [NaN]
    nor an overflow. *)
Definition measurable64 (this : PicPixeller) (color entry : RGBA.t) : Prop :=
  F64.ltb (F64.colorDistance this color entry) F64.Infinity = true.

(** Destructs every comparison of exponents and mantissas in the goal. *)
Ltac cmp_cases :=
  repeat match goal with
  | |- context [Pos.compare_cont Eq ?a ?b] =>
      change (Pos.compare_cont Eq a b) with (Pos.compare a b)
  end;
  repeat match goal with
  | |- context [Z.compare ?a ?b] => destruct (Z.compare_spec a b)
  | |- context [Pos.compare ?a ?b] => destruct (Pos.compare_spec a b)
  end.

(** * Verification *)

(** ** Loops *)

Lemma for_of_app {A S} (l1 l2 : list A) (body : A -> S -> result S) (s : S) :
  for_of (l1 ++ l2) body s = (s' ← for_of l1 body s; for_of l2 body s').
Proof.
  revert s. induction l1 as [|a l1 IH]; intros s; simpl; [done|].
  destruct (body a s) as [s1|e]; simpl; [apply IH|done].
Qed.

Lemma for_of_fmap {A B S} (f : A -> B) (l : list A) (body : B -> S -> result S) (s : S) :
  for_of (f <$> l) body s = for_of l (fun a => body (f a)) s.
Proof.
  revert s. induction l as [|a l IH]; intros s; simpl; [done|].
  destruct (body (f a) s); simpl; auto.
Qed.

Lemma for_range_nested {S} (w h : Z) (body : Z -> Z -> S -> result S) (s : S) :
  for_range h (fun y s => for_range w (fun x s => body x y s) s) s =
  for_of (coords w h) (fun p s => body p.1 p.2 s) s.
Proof.
  unfold for_range, coords. generalize (seqZ 0 h) as ly. intros ly. revert s.
  induction ly as [|y ly IH]; intros s; [done|].
  cbn [for_of mbind list_bind]. change (list_bind ?f ?l) with (l ≫= f).
  rewrite for_of_app, for_of_fmap. cbn [fst snd].
  destruct (for_of (seqZ 0 w) _ s); simpl; [apply IH|done].
Qed.

Lemma elem_of_coords w h p : p ∈ coords w h <-> inb w h p.
Proof.
  unfold coords, inb. rewrite list_elem_of_bind. split.
  - intros (y & Hp & Hy). apply list_elem_of_fmap in Hp as (x & -> & Hx).
    apply elem_of_seqZ in Hx, Hy. simpl. lia.
  - intros [Hx Hy]. exists p.2. split.
    + apply list_elem_of_fmap. exists p.1. split; [by destruct p|].
      apply elem_of_seqZ. lia.
    + apply elem_of_seqZ. lia.
Qed.

Lemma NoDup_coords w h : NoDup (coords w h).
Proof.
  unfold coords. apply NoDup_bind.
  - intros y1 y2 p _ _ H1 H2.
    apply list_elem_of_fmap in H1 as (? & -> & _).
    apply list_elem_of_fmap in H2 as (? & [=] & _). done.
  - intros y _. apply NoDup_fmap_2; [|apply NoDup_seqZ]. by intros ?? [=].
  - apply NoDup_seqZ.
Qed.

(** ** Buffers *)

Lemma wf_image_sized img : wf_image img -> sized (width img) (height img) img.
Proof. intros (_ & _ & Hl & _). by repeat split. Qed.

Lemma setRGBA_sized w h img x y c : sized w h img -> sized w h (setRGBA img x y c).
Proof.
  intros (Hw & Hh & Hl). repeat split; simpl; try done.
  unfold data_set. repeat case_match; rewrite ?length_insert; done.
Qed.

Lemma new_ImageData_ok w h :
  0 < w -> 0 < h ->
  new_ImageData w h = Ok (mkImageData w h (replicate (Z.to_nat (w * h * 4)) 0)).
Proof.
  intros Hw Hh. unfold new_ImageData.
  destruct (Z.leb_spec w 0); [lia|]. destruct (Z.leb_spec h 0); [lia|]. done.
Qed.

Lemma new_ImageData_throw w h :
  w <= 0 \/ h <= 0 -> new_ImageData w h = Throw IndexSizeError.
Proof.
  intros H. unfold new_ImageData.
  destruct (Z.leb_spec w 0), (Z.leb_spec h 0); simpl; try done. lia.
Qed.

Lemma pixel_index_bound w h x y k :
  inb w h (x, y) -> 0 <= k < 4 ->
  0 <= (y * w + x) * 4 + k < w * h * 4.
Proof. unfold inb; simpl. intros [Hx Hy] Hk. nia. Qed.

Lemma pixel_index_ne w h x y x' y' k k' :
  inb w h (x, y) -> inb w h (x', y') -> 0 <= k < 4 -> 0 <= k' < 4 ->
  (x, y) <> (x', y') ->
  (y * w + x) * 4 + k <> (y' * w + x') * 4 + k'.
Proof.
  unfold inb; simpl. intros [Hx Hy] [Hx' Hy'] Hk Hk' Hne Heq.
  assert (y * w + x = y' * w + x') as He by lia.
  assert (y = y') by nia. subst y'.
  assert (x = x') by lia. subst x'. done.
Qed.

Lemma data_get_set_eq d i v :
  0 <= i -> (Z.to_nat i < length d)%nat -> data_get (data_set d i v) i = num v.
Proof.
  intros Hi Hl. unfold data_get, data_set.
  destruct (Z.ltb_spec i 0); [lia|]. by rewrite list_lookup_insert_eq.
Qed.

Lemma data_get_set_ne d i j v :
  0 <= i -> 0 <= j -> i <> j -> data_get (data_set d i v) j = data_get d j.
Proof.
  intros Hi Hj Hne. unfold data_get, data_set.
  destruct (Z.ltb_spec i 0); [lia|]. destruct (Z.ltb_spec j 0); [lia|].
  rewrite list_lookup_insert_ne; [done|lia].
Qed.

Lemma length_data_set d i v : length (data_set d i v) = length d.
Proof. unfold data_set. case_match; by rewrite ?length_insert. Qed.

Lemma getRGBA_setRGBA_eq w h img x y c :
  sized w h img -> inb w h (x, y) ->
  getRGBA (setRGBA img x y c) x y = stored c.
Proof.
  intros (Hw & Hh & Hl) Hin. unfold getRGBA, setRGBA, stored. simpl. subst w h.
  pose proof (pixel_index_bound _ _ _ _ 0 Hin ltac:(lia)) as H0.
  pose proof (pixel_index_bound _ _ _ _ 3 Hin ltac:(lia)) as H3.
  set (i := (y * width img + x) * 4) in *.
  f_equal.
  - rewrite !data_get_set_ne by lia. apply data_get_set_eq; [lia|]. lia.
  - rewrite !data_get_set_ne by lia.
    apply data_get_set_eq; [lia|]. rewrite !length_data_set. lia.
  - rewrite !data_get_set_ne by lia.
    apply data_get_set_eq; [lia|]. rewrite !length_data_set. lia.
  - apply data_get_set_eq; [lia|]. rewrite !length_data_set. lia.
Qed.

Lemma getRGBA_setRGBA_ne w h img x y x' y' c :
  sized w h img -> inb w h (x, y) -> inb w h (x', y') -> (x, y) <> (x', y') ->
  getRGBA (setRGBA img x y c) x' y' = getRGBA img x' y'.
Proof.
  intros (Hw & Hh & Hl) Hin Hin' Hne. unfold getRGBA, setRGBA. simpl. subst w h.
  pose proof (fun k k' Hk Hk' => pixel_index_ne _ _ _ _ _ _ k k' Hin Hin' Hk Hk' Hne) as Hd.
  pose proof (pixel_index_bound _ _ _ _ 0 Hin ltac:(lia)) as H0.
  pose proof (pixel_index_bound _ _ _ _ 0 Hin' ltac:(lia)) as H0'.
  pose proof (Hd 0 0 ltac:(lia) ltac:(lia)). pose proof (Hd 0 1 ltac:(lia) ltac:(lia)).
  pose proof (Hd 0 2 ltac:(lia) ltac:(lia)). pose proof (Hd 0 3 ltac:(lia) ltac:(lia)).
  pose proof (Hd 1 0 ltac:(lia) ltac:(lia)). pose proof (Hd 1 1 ltac:(lia) ltac:(lia)).
  pose proof (Hd 1 2 ltac:(lia) ltac:(lia)). pose proof (Hd 1 3 ltac:(lia) ltac:(lia)).
  pose proof (Hd 2 0 ltac:(lia) ltac:(lia)). pose proof (Hd 2 1 ltac:(lia) ltac:(lia)).
  pose proof (Hd 2 2 ltac:(lia) ltac:(lia)). pose proof (Hd 2 3 ltac:(lia) ltac:(lia)).
  pose proof (Hd 3 0 ltac:(lia) ltac:(lia)). pose proof (Hd 3 1 ltac:(lia) ltac:(lia)).
  pose proof (Hd 3 2 ltac:(lia) ltac:(lia)). pose proof (Hd 3 3 ltac:(lia) ltac:(lia)).
  clear Hd.
  set (i := (y * width img + x) * 4) in *.
  set (j := (y' * width img + x') * 4) in *.
  f_equal; rewrite !data_get_set_ne by lia; done.
Qed.

(** ** Pixel-wise loops

    Every stage visits each coordinate once and touches at most the pixel at
    that coordinate.  [Q p old new] relates the pixel at [p] before and after
    the iteration for [p]. *)

Section pixel_loop.
Context {S : Type} (img_of : S -> ImageData) (w h : Z).
Context (body : Z * Z -> S -> result S).
Context (Q : Z * Z -> RGBA.t -> RGBA.t -> Prop).

Hypothesis body_spec : forall p s,
  inb w h p -> sized w h (img_of s) ->
  exists s', body p s = Ok s' /\ sized w h (img_of s') /\
    Q p (getRGBA (img_of s) p.1 p.2) (getRGBA (img_of s') p.1 p.2) /\
    forall p', inb w h p' -> p' <> p ->
      getRGBA (img_of s') p'.1 p'.2 = getRGBA (img_of s) p'.1 p'.2.

Lemma pixel_loop_spec (l : list (Z * Z)) (s : S) :
  NoDup l -> Forall (inb w h) l -> sized w h (img_of s) ->
  exists s', for_of l body s = Ok s' /\ sized w h (img_of s') /\
    (forall p, p ∈ l ->
       Q p (getRGBA (img_of s) p.1 p.2) (getRGBA (img_of s') p.1 p.2)) /\
    (forall p, inb w h p -> p ∉ l ->
       getRGBA (img_of s') p.1 p.2 = getRGBA (img_of s) p.1 p.2).
Proof.
  revert s. induction l as [|p l IH]; intros s Hnd Hall Hsz.
  - exists s. simpl. split_and!; [done|done| |done]. intros p Hp. inv Hp.
  - apply NoDup_cons in Hnd as [Hp Hnd]. apply Forall_cons in Hall as [Hin Hall].
    destruct (body_spec p s Hin Hsz) as (s1 & Hb & Hsz1 & HQ & Hfr).
    destruct (IH s1 Hnd Hall Hsz1) as (s' & Hl & Hsz' & HQl & Hfrl).
    exists s'. simpl. rewrite Hb. simpl. split_and!; [done|done| |].
    + intros q Hq. apply elem_of_cons in Hq as [->|Hq].
      * rewrite Hfrl by done. done.
      * assert (q <> p) by (intros ->; done).
        rewrite <- (Hfr q); [by apply HQl| |done].
        by eapply Forall_forall in Hall.
    + intros q Hq Hnq. apply not_elem_of_cons in Hnq as [Hne Hnq].
      rewrite Hfrl by done. by apply Hfr.
Qed.

(** The two nested [for] loops over a [w] by [h] buffer. *)
Lemma pixel_loops_spec (s : S) :
  sized w h (img_of s) ->
  exists s', for_of (coords w h) body s = Ok s' /\ sized w h (img_of s') /\
    forall p, inb w h p ->
      Q p (getRGBA (img_of s) p.1 p.2) (getRGBA (img_of s') p.1 p.2).
Proof.
  intros Hsz.
  destruct (pixel_loop_spec (coords w h) s) as (s' & Hl & Hsz' & HQ & _);
    [apply NoDup_coords| |done|].
  - apply Forall_forall. intros p. apply elem_of_coords.
  - exists s'. split_and!; [done|done|]. intros p Hp. apply HQ.
    by apply elem_of_coords.
Qed.
End pixel_loop.

(** ** Order on distances *)

Lemma Dist_ltb_lt_ge x y z :
  Dist_ltb x y = true -> Dist_ltb z y = false -> Dist_ltb x z = true.
Proof.
  destruct x as [qx|], y as [qy|], z as [qz|]; simpl; try done.
  rewrite !bool_decide_eq_true, bool_decide_eq_false.
  intros Hxy Hzy. apply Qcnot_lt_le in Hzy. by eapply Qclt_le_trans.
Qed.

Lemma Dist_ltb_trans x y z :
  Dist_ltb x y = true -> Dist_ltb y z = true -> Dist_ltb x z = true.
Proof.
  destruct x as [qx|], y as [qy|], z as [qz|]; simpl; try done.
  rewrite !bool_decide_eq_true. apply Qclt_trans.
Qed.

Lemma Dist_ltb_irrefl x : Dist_ltb x x = false.
Proof.
  destruct x as [q|]; simpl; [|done]. apply bool_decide_eq_false.
  intros H. by apply Qclt_not_eq in H.
Qed.

Lemma colorDistance_finite this c e : exists q, colorDistance this c e = Sqrt q.
Proof. unfold colorDistance. case_match; simpl; eauto. Qed.

Lemma colorDistance_lt_Infinity this c e :
  Dist_ltb (colorDistance this c e) Infinity = true.
Proof. destruct (colorDistance_finite this c e) as [q ->]. done. Qed.

(** ** The loop of [findClosestColor] *)

Section closest.
Context (this : PicPixeller) (c : RGBA.t).
Local Abbreviation cd := (colorDistance this c).

(** Either no entry improved on the initial pair, or the loop ends on the
    first entry of least distance. *)
Lemma closest_fold_spec (l : list RGBA.t) (d0 : Dist) (o0 : option RGBA.t) :
  (fold_left (closest_step this c) l (d0, o0) = (d0, o0) /\
   Forall (fun e' => Dist_ltb (cd e') d0 = false) l) \/
  (exists l1 e l2, l = l1 ++ e :: l2 /\
     fold_left (closest_step this c) l (d0, o0) = (cd e, Some e) /\
     Dist_ltb (cd e) d0 = true /\
     Forall (fun e' => Dist_ltb (cd e) (cd e') = true) l1 /\
     Forall (fun e' => Dist_ltb (cd e') (cd e) = false) l2).
Proof.
  revert d0 o0. induction l as [|a l IH]; intros d0 o0; [left; by split|].
  cbn [fold_left]. unfold closest_step at 2 4. cbn [fst].
  destruct (Dist_ltb (cd a) d0) eqn:Ha.
  - right. destruct (IH (cd a) (Some a)) as [[Hf Hall]|(l1 & e & l2 & -> & Hf & Hlt & H1 & H2)].
    + exists [], a, l. by split_and!.
    + exists (a :: l1), e, l2. split_and!; try done.
      * by eapply Dist_ltb_trans.
      * by constructor.
  - destruct (IH d0 o0) as [[Hf Hall]|(l1 & e & l2 & -> & Hf & Hlt & H1 & H2)].
    + left. split; [done|]. by constructor.
    + right. exists (a :: l1), e, l2. split_and!; try done.
      constructor; [|done]. by eapply Dist_ltb_lt_ge.
Qed.

Lemma closest_fold_keep (l : list RGBA.t) (d0 : Dist) (o0 : option RGBA.t) :
  Forall (fun e' => Dist_ltb (cd e') d0 = false) l ->
  fold_left (closest_step this c) l (d0, o0) = (d0, o0).
Proof.
  induction 1 as [|a l Ha _ IH]; [done|].
  cbn [fold_left]. unfold closest_step at 2. cbn [fst]. by rewrite Ha.
Qed.

(** The distance reached after a prefix all of whose entries are farther
    than [e] is still above the distance of [e]. *)
Lemma closest_fold_above (l : list RGBA.t) (e : RGBA.t) (d0 : Dist) (o0 : option RGBA.t) :
  Dist_ltb (cd e) d0 = true ->
  Forall (fun e' => Dist_ltb (cd e) (cd e') = true) l ->
  Dist_ltb (cd e) (fold_left (closest_step this c) l (d0, o0)).1 = true.
Proof.
  intros Hd Hall. revert d0 o0 Hd.
  induction Hall as [|a l Ha _ IH]; intros d0 o0 Hd; [done|].
  cbn [fold_left]. unfold closest_step at 2. cbn [fst].
  destruct (Dist_ltb (cd a) d0); by apply IH.
Qed.

Lemma findClosestColor_decompose (pal : list RGBA.t) :
  pal <> [] ->
  exists l1 e l2, pal = l1 ++ e :: l2 /\
    findClosestColor this c pal = Some e /\
    Forall (fun e' => Dist_ltb (cd e) (cd e') = true) l1 /\
    Forall (fun e' => Dist_ltb (cd e') (cd e) = false) l2.
Proof.
  intros Hne. unfold findClosestColor.
  destruct (closest_fold_spec pal Infinity (pal !! 0%nat))
    as [[_ Hall]|(l1 & e & l2 & Hp & Hf & _ & H1 & H2)].
  - destruct pal as [|a pal]; [done|]. apply Forall_cons in Hall as [Ha _].
    by rewrite colorDistance_lt_Infinity in Ha.
  - exists l1, e, l2. rewrite Hf. by split_and!.
Qed.

(** Conversely, an entry strictly nearer than all before it and not
    farther than any after it is the one returned. *)
Lemma findClosestColor_first_min (l1 l2 : list RGBA.t) (e : RGBA.t) :
  Forall (fun e' => Dist_ltb (cd e) (cd e') = true) l1 ->
  Forall (fun e' => Dist_ltb (cd e') (cd e) = false) l2 ->
  findClosestColor this c (l1 ++ e :: l2) = Some e.
Proof.
  intros H1 H2. unfold findClosestColor.
  generalize ((l1 ++ e :: l2) !! 0%nat). intros o0.
  rewrite fold_left_app. cbn [fold_left].
  pose proof (closest_fold_above l1 e Infinity o0
                (colorDistance_lt_Infinity _ _ _) H1) as Hab.
  destruct (fold_left (closest_step this c) l1 (Infinity, o0)) as [d1 o1].
  unfold closest_step at 2. cbn [fst] in *. rewrite Hab.
  by rewrite closest_fold_keep.
Qed.

Lemma findClosestColor_Some (pal : list RGBA.t) :
  pal <> [] -> exists e, findClosestColor this c pal = Some e /\ e ∈ pal.
Proof.
  intros Hne.
  destruct (findClosestColor_decompose pal Hne) as (l1 & e & l2 & -> & Hf & _).
  exists e. split; [done|]. apply elem_of_app. right. left.
Qed.

Lemma findClosestColor_nil : findClosestColor this c [] = None.
Proof. done. Qed.
End closest.

(** ** Direct quantization *)

Lemma coords_cons w h : 0 < w -> 0 < h -> exists l, coords w h = (0, 0) :: l.
Proof.
  intros Hw Hh. unfold coords.
  rewrite (seqZ_cons 0 h) by done. rewrite bind_cons.
  rewrite (seqZ_cons 0 w) by done. rewrite fmap_cons. simpl. eauto.
Qed.

Lemma quantizeColors_spec this img pal w h :
  0 < w -> 0 < h -> sized w h img -> pal <> [] ->
  exists out, quantizeColors this img pal = Ok out /\ sized w h out /\
    forall x y, inb w h (x, y) ->
      exists e, e ∈ pal /\
        findClosestColor this (getRGBA img x y) pal = Some e /\
        getRGBA out x y = stored e.
Proof.
  intros Hw Hh Hsz Hpal. unfold quantizeColors.
  destruct Hsz as (Ew & Eh & El). rewrite Ew, Eh.
  rewrite new_ImageData_ok by done. cbn [mbind result_bind].
  rewrite for_range_nested.
  match goal with |- context [for_of _ ?b ?s] =>
    destruct (fun Hb => pixel_loops_spec (fun o : ImageData => o) w h b
      (fun p _ new => exists e, e ∈ pal /\
         findClosestColor this (getRGBA img p.1 p.2) pal = Some e /\ new = stored e)
      Hb s) as (out & Hl & Hsz' & HQ)
  end.
  - intros [x y] s Hin Hs. cbn [fst snd].
    destruct (findClosestColor_Some this (getRGBA img x y) pal Hpal) as (e & He & Hel).
    rewrite He. cbn. eexists. split_and!; [done| | |].
    + by apply setRGBA_sized.
    + exists e. split_and!; [done|done|]. by eapply getRGBA_setRGBA_eq.
    + intros [x' y'] Hin' Hne. cbn [fst snd]. by eapply getRGBA_setRGBA_ne.
  - repeat split; simpl; by rewrite ?length_replicate.
  - exists out. split_and!; [exact Hl|done|].
    intros x y Hin. apply (HQ (x, y) Hin).
Qed.

Lemma quantizeColors_nil this img :
  0 < width img -> 0 < height img -> quantizeColors this img [] = Throw TypeError.
Proof.
  intros Hw Hh. unfold quantizeColors.
  rewrite new_ImageData_ok by done. cbn [mbind result_bind].
  rewrite for_range_nested.
  destruct (coords_cons _ _ Hw Hh) as [l ->]. done.
Qed.

(** ** Dithering *)

Lemma applyDithering_spec this img pal strength w h :
  0 < w -> 0 < h -> sized w h img -> pal <> [] ->
  exists out, applyDithering this img pal strength = Ok out /\ sized w h out /\
    forall x y, inb w h (x, y) -> exists e, e ∈ pal /\ getRGBA out x y = stored e.
Proof.
  intros Hw Hh Hsz Hpal. unfold applyDithering.
  destruct Hsz as (Ew & Eh & El). rewrite Ew, Eh.
  rewrite new_ImageData_ok by done. cbn [mbind result_bind].
  rewrite for_range_nested.
  match goal with |- context [for_of _ ?b ?s] =>
    destruct (fun Hb => pixel_loops_spec
      (fst : ImageData * list (list RGB.t) -> ImageData) w h b
      (fun p _ new => exists e, e ∈ pal /\ new = stored e) Hb s)
      as (st & Hl & Hsz' & HQ)
  end.
  - intros [x y] [o errs] Hin Hs. cbn [fst snd] in *.
    match goal with |- context [findClosestColor this ?c pal] =>
      destruct (findClosestColor_Some this c pal Hpal) as (e & He & Hel); rewrite He
    end.
    cbn. eexists. split_and!; [done| | |].
    + by apply setRGBA_sized.
    + exists e. split; [done|]. by eapply getRGBA_setRGBA_eq.
    + intros [x' y'] Hin' Hne. cbn [fst snd]. by eapply getRGBA_setRGBA_ne.
  - repeat split; simpl; by rewrite ?length_replicate.
  - rewrite Hl. exists st.1. split_and!; [done|done|].
    intros x y Hin. apply (HQ (x, y) Hin).
Qed.

Lemma applyDithering_nil this img strength :
  0 < width img -> 0 < height img ->
  applyDithering this img [] strength = Throw TypeError.
Proof.
  intros Hw Hh. unfold applyDithering.
  rewrite new_ImageData_ok by done. cbn [mbind result_bind].
  rewrite for_range_nested.
  destruct (coords_cons _ _ Hw Hh) as [l ->]. done.
Qed.

(** ** Closed computations *)

Example colorDistance_red_gray :
  colorDistance converter (rgba 255 0 0 255) (rgba 100 100 100 255)
  = Sqrt (frac 5109651 160).
Proof. by_eval. Qed.

Example colorDistance_gray_red :
  colorDistance converter (rgba 100 100 100 255) (rgba 255 0 0 255)
  = Sqrt (frac 567739 40).
Proof. by_eval. Qed.

Example resize_2x2_to_3x3 :
  resizeImage converter
    (mkImageData 2 2 [1; 1; 1; 1;  2; 2; 2; 2;  3; 3; 3; 3;  4; 4; 4; 4]) 3
  = Ok (mkImageData 3 3 [1; 1; 1; 1;  1; 1; 1; 1;  2; 2; 2; 2;
                         1; 1; 1; 1;  1; 1; 1; 1;  2; 2; 2; 2;
                         3; 3; 3; 3;  3; 3; 3; 3;  4; 4; 4; 4]).
Proof. by_eval. Qed.

(** Both pixels of the first row average the other three pixels of the
    input; the second one does not see the new value of the first. *)
Example edges_2x2_reads_input :
  detectAndPreserveEdges converter
    (mkImageData 2 2 [0; 0; 0; 255;  10; 20; 30; 255;  40; 50; 60; 0;  1; 2; 3; 4])
  = Ok (mkImageData 2 2 [17; 24; 31; 86;  14; 17; 21; 86;  4; 7; 11; 171;  17; 23; 30; 170]).
Proof. by_eval. Qed.

(** A luma step of exactly 100 is not an edge, a step of 155 is. *)
Example edges_3x1_threshold :
  detectAndPreserveEdges converter
    (mkImageData 3 1 [0; 0; 0; 255;  100; 100; 100; 255;  255; 255; 255; 255])
  = Ok (mkImageData 3 1 [100; 100; 100; 255;  100; 100; 100; 255;  255; 255; 255; 255]).
Proof. by_eval. Qed.

Example generatePalette_3x2 :
  generatePalette converter
    (mkImageData 3 2 [255; 0; 0; 255;  0; 255; 0; 255;  0; 0; 255; 255;
                      10; 10; 10; 255;  200; 200; 200; 255;  255; 10; 10; 255]) 4
  = palette_of [(255, 5, 5); (0, 255, 0); (0, 0, 255)].
Proof. by_eval. Qed.

(** Full-strength dithering of a grey row between black and white. *)
Example dithering_grey_row :
  applyDithering converter (fill_image 8 1 [100; 100; 100; 255])
    (palette_of [(0, 0, 0); (255, 255, 255)]) (num 1)
  = Ok (mkImageData 8 1 [0; 0; 0; 255;  0; 0; 0; 255;  255; 255; 255; 255;
                         0; 0; 0; 255;  0; 0; 0; 255;  255; 255; 255; 255;
                         0; 0; 0; 255;  0; 0; 0; 255]).
Proof. by_eval. Qed.

Example quantize_near_black_2x2 :
  quantizeColors converter (fill_image 2 2 [10; 10; 10; 77])
    (palette_of [(0, 0, 0); (255, 0, 0)])
  = Ok (fill_image 2 2 [0; 0; 0; 255]).
Proof. by_eval. Qed.

(** ** Claims about the colour distance *)

(** C6: [colorDistance(c, c)] is 0 for every colour [c], achromatic or not;
    and the distance is not symmetric: from (255,0,0) to the grey candidate
    (100,100,100) it is 1.5 times the distance in the other direction,
    because only a grey, non-black second argument is penalised. *)
Theorem C6_colorDistance_self_zero_and_asymmetric :
  (forall this c, colorDistance this c c = Sqrt 0%Qc) /\
  let a := rgba 255 0 0 255 in
  let b := rgba 100 100 100 255 in
  colorDistance converter a b <> colorDistance converter b a /\
  colorDistance converter a b = Dist_scale (colorDistance converter b a) (frac 3 2).
Proof.
  split.
  - intros this c. unfold colorDistance.
    case_match; unfold Dist_scale; f_equal; ring.
  - split; by_eval.
Qed.

(** C4: an 8x8 buffer of (10,10,10) pixels (any alpha) quantized against
    [[0,0,0],[255,0,0]] is pure black everywhere: black is exempt from the
    grey penalty and its distance 10 is below the distance to red. *)
Theorem C4_near_black_quantizes_to_black (alpha : Z) :
  quantizeColors converter (fill_image 8 8 [10; 10; 10; alpha])
    (palette_of [(0, 0, 0); (255, 0, 0)])
  = Ok (fill_image 8 8 [0; 0; 0; 255]) /\
  colorDistance converter (rgba 10 10 10 alpha) (rgba 0 0 0 255) = Sqrt (num 100) /\
  Dist_ltb (colorDistance converter (rgba 10 10 10 alpha) (rgba 0 0 0 255))
           (colorDistance converter (rgba 10 10 10 alpha) (rgba 255 0 0 255)) = true.
Proof.
  split_and!.
  - vm_compute. reflexivity.
  - vm_compute. f_equal. apply Qc_is_canon. reflexivity.
  - vm_compute. reflexivity.
Qed.

(** ** Error diffusion *)

(** The claim C2 as stated fails: the residual (16,0,0) at (0,0) of a 3x3
    zero grid does not leave 3, 5 and 1 in errors[1][0], errors[1][1] and
    errors[1][2]. *)
Lemma C2_counterexample :
  let errors := distributeError (new_errors 3 3) (red_error 16) 0 0 3 3 in
  ~ (RGB.r (errors_at errors 0 1) = num 7 /\
     RGB.r (errors_at errors 1 0) = num 3 /\
     RGB.r (errors_at errors 1 1) = num 5 /\
     RGB.r (errors_at errors 1 2) = num 1).
Proof.
  intros errors (_ & H & _). revert H. by_eval.
Qed.

(** C2 (amended): from (0,0) the 3/16 share aims at (-1,1), off the grid,
    and is dropped; the grid receives 7 at errors[0][1], 5 at errors[1][0]
    and 1 at errors[1][1], nothing else.  The four shares 7, 3, 5, 1 of the
    claim are what the residual leaves when it is distributed from (1,0):
    at errors[0][2], errors[1][0], errors[1][1] and errors[1][2]. *)
Theorem C2_distributeError_weights :
  distributeError (new_errors 3 3) (red_error 16) 0 0 3 3 =
    [ [red_error 0; red_error 7; red_error 0];
      [red_error 5; red_error 1; red_error 0];
      [red_error 0; red_error 0; red_error 0] ] /\
  distributeError (new_errors 3 3) (red_error 16) 1 0 3 3 =
    [ [red_error 0; red_error 0; red_error 7];
      [red_error 3; red_error 5; red_error 1];
      [red_error 0; red_error 0; red_error 0] ].
Proof. split; by_eval. Qed.

(** With strength 0 the adjusted pixel is the pixel itself. *)
Lemma adjusted_strength_zero (pixel : RGBA.t) (error : RGB.t) :
  RGBA.mk (RGBA.r pixel + RGB.r error * 0) (RGBA.g pixel + RGB.g error * 0)
          (RGBA.b pixel + RGB.b error * 0) (RGBA.a pixel)%Qc = pixel.
Proof. destruct pixel; simpl. f_equal; ring. Qed.

(** The output of the dithering loop at strength 0 follows the quantization
    loop step by step, whatever the error grid holds. *)
Lemma dithering_zero_simulation this img pal (l : list (Z * Z))
    (output : ImageData) (errors : list (list RGB.t)) :
  (st ← for_of l (fun p st =>
      (fun x '(output, errors) =>
        let pixel := getRGBA img x p.2 in
        let error := errors_get errors x p.2 in
        let adjustedPixel :=
          RGBA.mk (RGBA.r pixel + RGB.r error * 0) (RGBA.g pixel + RGB.g error * 0)
                  (RGBA.b pixel + RGB.b error * 0) (RGBA.a pixel) in
        newPixel ← defined (findClosestColor this adjustedPixel pal);
        let output := setRGBA output x p.2 newPixel in
        let pixelError :=
          RGB.mk (RGBA.r adjustedPixel - RGBA.r newPixel)
                 (RGBA.g adjustedPixel - RGBA.g newPixel)
                 (RGBA.b adjustedPixel - RGBA.b newPixel) in
        Ok (output, distributeError errors pixelError x p.2 (width img) (height img)))%Qc
      p.1 st) (output, errors);
   Ok st.1) =
  for_of l (fun p output =>
      newColor ← defined (findClosestColor this (getRGBA img p.1 p.2) pal);
      Ok (setRGBA output p.1 p.2 newColor)) output.
Proof.
  revert output errors. induction l as [|[x y] l IH]; intros output errors; [done|].
  cbn [for_of fst snd]. rewrite adjusted_strength_zero.
  destruct (findClosestColor this (getRGBA img x y) pal) as [e|]; [|done].
  cbn [defined mbind result_bind]. apply IH.
Qed.

(** C3: at strength 0 [applyDithering] returns exactly what [quantizeColors]
    returns on the same buffer and palette (on an empty palette both throw
    the same error). *)
Theorem C3_dithering_strength_zero_is_quantization this img pal :
  applyDithering this img pal 0%Qc = quantizeColors this img pal.
Proof.
  unfold applyDithering, quantizeColors.
  destruct (new_ImageData (width img) (height img)) as [output|e]; [|done].
  cbn [mbind result_bind]. rewrite !for_range_nested.
  apply dithering_zero_simulation.
Qed.

(** ** Arithmetic of the weighted distance *)

Lemma weighted_squares_nonneg (x y z : Qc) :
  (0 <= x * x * frac 299 1000 + y * y * frac 587 1000 + z * z * frac 114 1000)%Qc.
Proof.
  Qc_unfold. rewrite !Qred_correct.
  generalize (this x) (this y) (this z). intros a b c. nra.
Qed.

Lemma weighted_squares_zero (x y z : Qc) :
  (x * x * frac 299 1000 + y * y * frac 587 1000 + z * z * frac 114 1000)%Qc = 0%Qc ->
  x = 0%Qc /\ y = 0%Qc /\ z = 0%Qc.
Proof.
  intros H. apply (f_equal this) in H. Qc_unfold.
  apply Qred_eq_iff in H. rewrite !Qred_correct in H.
  assert (this x == 0 /\ this y == 0 /\ this z == 0)%Q as (Hx & Hy & Hz).
  { revert H. generalize (this x) (this y) (this z). intros a b c H. nra. }
  split_and!; apply Qc_is_canon; done.
Qed.

Lemma Qc_scale_nonneg (q : Qc) : (0 <= q)%Qc -> (0 <= q * (frac 3 2 * frac 3 2))%Qc.
Proof.
  Qc_unfold. rewrite !Qred_correct. generalize (this q). intros a H. nra.
Qed.

Lemma Qc_scale_zero (q : Qc) : (q * (frac 3 2 * frac 3 2))%Qc = 0%Qc -> q = 0%Qc.
Proof.
  intros H. apply (f_equal this) in H. Qc_unfold.
  apply Qred_eq_iff in H. rewrite !Qred_correct in H.
  apply Qc_is_canon. cbn [this]. rewrite Qred_correct.
  revert H. generalize (this q). intros a H. nra.
Qed.

Lemma Qc_sub_zero (x y : Qc) : (x - y)%Qc = 0%Qc -> x = y.
Proof. intros H. rewrite <- (Qcplus_0_l y), <- H. ring. Qed.

(** [Math.round] of an integer is that integer. *)
Lemma Math_round_num (z : Z) : Math_round (num z) = z.
Proof.
  unfold Math_round.
  pose proof (Qfloor_le (num z + frac 1 2)%Qc) as Hle.
  pose proof (Qlt_floor (num z + frac 1 2)%Qc) as Hlt.
  set (f := Qfloor (num z + frac 1 2)%Qc) in *.
  Qc_unfold. rewrite Qred_correct in Hle, Hlt.
  change (Qred (1 # 2)) with (1 # 2)%Q in *.
  unfold Qle, Qlt, Qplus in *. simpl in *. lia.
Qed.

Lemma clampByte_num (z : Z) : 0 <= z <= 255 -> clampByte (num z) = z.
Proof. intros Hz. unfold clampByte. rewrite Math_round_num. lia. Qed.

Lemma clampByte_range (v : Qc) : 0 <= clampByte v <= 255.
Proof. unfold clampByte. lia. Qed.

(** ** Distance facts for the constructor's weights *)

Lemma colorDistance_self this c : colorDistance this c c = Sqrt 0%Qc.
Proof.
  unfold colorDistance. case_match; unfold Dist_scale; f_equal; ring.
Qed.

Lemma colorDistance_same_rgb_l this c1 c1' e :
  same_rgb c1 c1' -> colorDistance this c1 e = colorDistance this c1' e.
Proof. intros (Hr & Hg & Hb). unfold colorDistance. by rewrite Hr, Hg, Hb. Qed.

Lemma colorDistance_same_rgb_r this c e e' :
  same_rgb e e' -> colorDistance this c e = colorDistance this c e'.
Proof. intros (Hr & Hg & Hb). unfold colorDistance. by rewrite Hr, Hg, Hb. Qed.

Lemma colorDistance_nonneg options c e :
  Dist_ltb (colorDistance (new_PicPixeller options) c e) (Sqrt 0%Qc) = false.
Proof.
  unfold colorDistance, new_PicPixeller. cbn [weights Weights.r Weights.g Weights.b].
  case_match; cbn [Dist_scale Dist_ltb]; apply bool_decide_eq_false, Qcle_not_lt.
  - apply Qc_scale_nonneg, weighted_squares_nonneg.
  - apply weighted_squares_nonneg.
Qed.

Lemma colorDistance_zero_same_rgb options c e :
  Dist_ltb (Sqrt 0%Qc) (colorDistance (new_PicPixeller options) c e) = false ->
  same_rgb c e.
Proof.
  unfold colorDistance, new_PicPixeller. cbn [weights Weights.r Weights.g Weights.b].
  intros H.
  assert ((RGBA.r c - RGBA.r e) * (RGBA.r c - RGBA.r e) * frac 299 1000 +
          (RGBA.g c - RGBA.g e) * (RGBA.g c - RGBA.g e) * frac 587 1000 +
          (RGBA.b c - RGBA.b e) * (RGBA.b c - RGBA.b e) * frac 114 1000 = 0)%Qc as H0.
  { pose proof (weighted_squares_nonneg (RGBA.r c - RGBA.r e) (RGBA.g c - RGBA.g e)
                  (RGBA.b c - RGBA.b e)) as Hnn.
    revert H. case_match; cbn [Dist_scale Dist_ltb]; rewrite bool_decide_eq_false;
      intros Hle; apply Qcnot_lt_le in Hle.
    - apply Qc_scale_zero. apply Qcle_antisym; [done|]. by apply Qc_scale_nonneg.
    - by apply Qcle_antisym. }
  apply weighted_squares_zero in H0 as (Hr & Hg & Hb).
  split_and!; by apply Qc_sub_zero.
Qed.

(** ** Extensionality of buffers *)

Lemma data_get_inj d1 d2 j :
  0 <= j -> (Z.to_nat j < length d1)%nat -> (Z.to_nat j < length d2)%nat ->
  data_get d1 j = data_get d2 j -> d1 !! Z.to_nat j = d2 !! Z.to_nat j.
Proof.
  intros Hj H1 H2. unfold data_get. destruct (Z.ltb_spec j 0); [lia|].
  apply lookup_lt_is_Some_2 in H1 as [v1 ->], H2 as [v2 ->]. simpl.
  intros H'. apply Z2Qc_inj in H'. by subst.
Qed.

Lemma image_ext w h img1 img2 :
  0 < w -> sized w h img1 -> sized w h img2 ->
  (forall x y, inb w h (x, y) -> getRGBA img1 x y = getRGBA img2 x y) ->
  img1 = img2.
Proof.
  destruct img1 as [w1 h1 d1], img2 as [w2 h2 d2].
  intros Hw (E1 & E2 & L1) (E3 & E4 & L2) Hext. simpl in *. subst w1 h1 w2 h2.
  f_equal. apply list_eq. intros i.
  destruct (decide (i < length d1)%nat) as [Hi|Hi].
  - set (pix := Z.of_nat i / 4). set (k := Z.of_nat i mod 4).
    set (x := pix mod w). set (y := pix / w).
    assert (Z.of_nat i = pix * 4 + k) as Ei.
    { unfold pix, k. pose proof (Z.div_mod (Z.of_nat i) 4). lia. }
    assert (0 <= k < 4) as Hk by (apply Z.mod_pos_bound; lia).
    assert (pix = y * w + x) as Ep.
    { unfold x, y. pose proof (Z.div_mod pix w). lia. }
    assert (0 <= x < w) as Hx by (apply Z.mod_pos_bound; lia).
    assert (0 <= pix) as Hp0 by (apply Z.div_pos; lia).
    assert (0 <= y) as Hy0 by (apply Z.div_pos; lia).
    assert (y < h) as Hyh by nia.
    clearbody pix k x y.
    specialize (Hext x y (conj Hx (conj Hy0 Hyh))).
    unfold getRGBA in Hext. simpl in Hext. rewrite <- Ep in Hext.
    injection Hext as G0 G1 G2 G3.
    replace i with (Z.to_nat (pix * 4 + k)) in * by lia.
    assert (k = 0 \/ k = 1 \/ k = 2 \/ k = 3) as Hk4 by lia.
    destruct Hk4 as [Hk4|[Hk4|[Hk4|Hk4]]]; subst k.
    + rewrite Z.add_0_r. apply data_get_inj; [lia|lia|lia|done].
    + apply data_get_inj; [lia|lia|lia|done].
    + apply data_get_inj; [lia|lia|lia|done].
    + apply data_get_inj; [lia|lia|lia|done].
  - rewrite !lookup_ge_None_2; [done|lia|lia].
Qed.

(** ** Idempotence of quantization *)

Lemma stored_same_rgb e :
  is_byte (RGBA.r e) -> is_byte (RGBA.g e) -> is_byte (RGBA.b e) ->
  same_rgb (stored e) e.
Proof.
  intros (r & Hr & Er) (g & Hg & Eg) (b & Hb & Eb). unfold same_rgb, stored. simpl.
  rewrite Er, Eg, Eb. by rewrite !clampByte_num.
Qed.

(** The entry chosen for a pixel is chosen again for any colour with the
    entry's own R, G and B. *)
Lemma findClosestColor_fixpoint options c q pal e :
  findClosestColor (new_PicPixeller options) c pal = Some e ->
  same_rgb q e ->
  findClosestColor (new_PicPixeller options) q pal = Some e.
Proof.
  intros Hf Hq.
  assert (pal <> []) as Hne by (intros ->; done).
  destruct (findClosestColor_decompose (new_PicPixeller options) c pal Hne)
    as (l1 & e0 & l2 & -> & Hf0 & H1 & H2).
  rewrite Hf in Hf0. injection Hf0 as <-.
  assert (colorDistance (new_PicPixeller options) q e = Sqrt 0%Qc) as Hqe.
  { rewrite (colorDistance_same_rgb_l _ q e e Hq). apply colorDistance_self. }
  apply findClosestColor_first_min.
  - eapply Forall_impl; [exact H1|]. intros e' Hlt. simpl in Hlt. rewrite Hqe.
    destruct (Dist_ltb (Sqrt 0%Qc) _) eqn:Hz; [done|].
    apply colorDistance_zero_same_rgb in Hz.
    assert (same_rgb e e') as Hee.
    { destruct Hq as (?&?&?), Hz as (?&?&?). split_and!; congruence. }
    rewrite (colorDistance_same_rgb_r _ c e e' Hee) in Hlt.
    by rewrite Dist_ltb_irrefl in Hlt.
  - apply Forall_forall. intros e' _. rewrite Hqe. apply colorDistance_nonneg.
Qed.

(** The claim C7 as stated fails for a palette with fractional channels
    (accepted by the core and by the palette editor): pixel (11,0,0) is
    nearest to (10.49,0.49,0), stored as (10,0,0), which on the second run
    is nearest to (10,0.51,0) and becomes (10,1,0). *)
Lemma C7_counterexample :
  let pal := [ RGBA.mk (frac 1049 100) (frac 49 100) (num 0) (num 255);
               RGBA.mk (num 10) (frac 51 100) (num 0) (num 255) ] in
  let img := mkImageData 1 1 [11; 0; 0; 255] in
  ~ (wf_image img -> pal <> [] ->
     exists out, quantizeColors converter img pal = Ok out /\
                 quantizeColors converter out pal = Ok out).
Proof.
  intros pal img H.
  destruct H as (out & H1 & H2); [by_eval|done|].
  assert (quantizeColors converter img pal = Ok (mkImageData 1 1 [10; 0; 0; 255]))
    as E1 by by_eval.
  rewrite E1 in H1. injection H1 as <-. revert H2. by_eval.
Qed.

(** C7 (amended): for a non-empty palette whose R, G and B channels are
    integers in 0..255 (as [generatePalette] produces), quantizing the
    output of [quantizeColors] again with the same palette returns the very
    same buffer, all four channels of every pixel unchanged. *)
Theorem C7_quantization_idempotent options img pal :
  wf_image img -> pal <> [] -> byte_palette pal ->
  exists out, quantizeColors (new_PicPixeller options) img pal = Ok out /\
              quantizeColors (new_PicPixeller options) out pal = Ok out.
Proof.
  intros Hwf Hne Hpal. pose proof Hwf as (Hw & Hh & _).
  apply wf_image_sized in Hwf.
  destruct (quantizeColors_spec (new_PicPixeller options) img pal _ _ Hw Hh Hwf Hne)
    as (out & H1 & Hsz & Hpx).
  exists out. split; [done|].
  destruct (quantizeColors_spec (new_PicPixeller options) out pal _ _ Hw Hh Hsz Hne)
    as (out2 & H2 & Hsz2 & Hpx2).
  rewrite H2. f_equal. eapply image_ext; [exact Hw|done|done|].
  intros x y Hin.
  destruct (Hpx x y Hin) as (e & Hel & Hf & Hout).
  destruct (Hpx2 x y Hin) as (e2 & _ & Hf2 & Hout2).
  rewrite Hout2, Hout. f_equal.
  rewrite Hout in Hf2.
  eapply Forall_forall in Hpal as (Br & Bg & Bb); [|exact Hel].
  rewrite (findClosestColor_fixpoint options _ (stored e) pal e Hf) in Hf2.
  - by injection Hf2.
  - by apply stored_same_rgb.
Qed.

Lemma C7_witness :
  exists out,
    quantizeColors (new_PicPixeller no_options)
      (mkImageData 2 1 [11; 0; 0; 255; 200; 10; 10; 0])
      (palette_of [(10, 0, 0); (255, 0, 0)]) = Ok out /\
    quantizeColors (new_PicPixeller no_options) out
      (palette_of [(10, 0, 0); (255, 0, 0)]) = Ok out.
Proof.
  apply (C7_quantization_idempotent no_options
           (mkImageData 2 1 [11; 0; 0; 255; 200; 10; 10; 0])
           (palette_of [(10, 0, 0); (255, 0, 0)])).
  - by_eval.
  - discriminate.
  - repeat constructor; simpl; eexists; (split; [|reflexivity]); lia.
Defined.

(** ** Alpha after colour reduction *)

(** C10: with a palette whose entries all have alpha 255, every pixel of the
    buffer returned by [quantizeColors] and by [applyDithering] has alpha
    255, whatever the alpha of the input pixels; a throw happens only for the
    empty palette.  Every palette from [generatePalette] is such a palette. *)
Theorem C10_alpha_is_palette_alpha this img pal strength :
  wf_image img ->
  Forall (fun e => RGBA.a e = num 255) pal ->
  match quantizeColors this img pal with
  | Ok out => forall x y, inb (width img) (height img) (x, y) ->
                RGBA.a (getRGBA out x y) = num 255
  | Throw _ => pal = []
  end /\
  match applyDithering this img pal strength with
  | Ok out => forall x y, inb (width img) (height img) (x, y) ->
                RGBA.a (getRGBA out x y) = num 255
  | Throw _ => pal = []
  end /\
  forall source colorLimit,
    Forall (fun e => RGBA.a e = num 255) (generatePalette this source colorLimit).
Proof.
  intros Hwf Hpal. pose proof Hwf as (Hw & Hh & _). apply wf_image_sized in Hwf.
  assert (forall e, e ∈ pal -> RGBA.a (stored e) = num 255) as Hst.
  { intros e He. eapply Forall_forall in Hpal; [|exact He].
    unfold stored. simpl. rewrite Hpal. by rewrite clampByte_num. }
  split_and!.
  - destruct pal as [|e0 pal']; [by rewrite quantizeColors_nil|].
    destruct (quantizeColors_spec this img (e0 :: pal') _ _ Hw Hh Hwf)
      as (out & -> & _ & Hpx); [done|].
    intros x y Hin. destruct (Hpx x y Hin) as (e & He & _ & ->). by apply Hst.
  - destruct pal as [|e0 pal']; [by rewrite applyDithering_nil|].
    destruct (applyDithering_spec this img (e0 :: pal') strength _ _ Hw Hh Hwf)
      as (out & -> & _ & Hpx); [done|].
    intros x y Hin. destruct (Hpx x y Hin) as (e & He & ->). by apply Hst.
  - intros source colorLimit. unfold generatePalette.
    apply Forall_fmap, Forall_forall. done.
Qed.

Lemma C10_witness :
  let img := mkImageData 2 1 [11; 0; 0; 7; 200; 10; 10; 0] in
  let pal := palette_of [(10, 0, 0); (255, 0, 0)] in
  match quantizeColors converter img pal with
  | Ok out => forall x y, inb (width img) (height img) (x, y) ->
                RGBA.a (getRGBA out x y) = num 255
  | Throw _ => pal = []
  end.
Proof.
  intros img pal.
  assert (wf_image img) as Hwf by by_eval.
  assert (Forall (fun e => RGBA.a e = num 255) pal) as Hpal by (repeat constructor).
  pose proof (C10_alpha_is_palette_alpha converter img pal (frac 3 10) Hwf Hpal) as H.
  destruct H as [H _]. exact H.
Defined.

(** ** Dimensions through the stages *)

Lemma for_of_invariant {A S} (P : S -> Prop) (l : list A)
    (body : A -> S -> result S) (s s' : S) :
  (forall a s1 s2, P s1 -> body a s1 = Ok s2 -> P s2) ->
  P s -> for_of l body s = Ok s' -> P s'.
Proof.
  intros Hb. revert s. induction l as [|a l IH]; intros s Hs; simpl.
  - by intros [= <-].
  - destruct (body a s) as [s1|e] eqn:Ha; simpl; [|done].
    apply IH. by eapply Hb.
Qed.

Lemma new_ImageData_dims sw sh out :
  new_ImageData sw sh = Ok out -> same_dims sw sh out /\ 0 < sw /\ 0 < sh.
Proof.
  unfold new_ImageData.
  destruct (Z.leb_spec sw 0), (Z.leb_spec sh 0); simpl; try done.
  intros [= <-]. repeat split; simpl; lia.
Qed.

Lemma quantizeColors_dims this img pal out :
  quantizeColors this img pal = Ok out ->
  width out = width img /\ height out = height img.
Proof.
  unfold quantizeColors.
  destruct (new_ImageData _ _) as [o|] eqn:Hn; [|done]. cbn [mbind result_bind].
  apply new_ImageData_dims in Hn as (Hn & _).
  rewrite for_range_nested.
  apply (for_of_invariant (same_dims (width img) (height img))); [|done].
  intros p s1 s2 Hs1. destruct (findClosestColor _ _ _); [|done].
  intros [= <-]. done.
Qed.

Lemma applyDithering_dims this img pal strength out :
  applyDithering this img pal strength = Ok out ->
  width out = width img /\ height out = height img.
Proof.
  unfold applyDithering.
  destruct (new_ImageData _ _) as [o|] eqn:Hn; [|done]. cbn [mbind result_bind].
  apply new_ImageData_dims in Hn as (Hn & _).
  rewrite for_range_nested.
  destruct (for_of _ _ _) as [st|] eqn:Hl; [|done].
  intros [= <-]. revert Hl.
  apply (for_of_invariant (fun st => same_dims (width img) (height img) st.1)); [|done].
  intros p [o1 e1] s2 Hs1. cbn [fst snd].
  destruct (findClosestColor _ _ _); [|done].
  intros [= <-]. done.
Qed.

Lemma detectAndPreserveEdges_dims this img out :
  detectAndPreserveEdges this img = Ok out ->
  width out = width img /\ height out = height img.
Proof.
  unfold detectAndPreserveEdges.
  destruct (new_ImageData _ _) as [o|] eqn:Hn; [|done]. cbn [mbind result_bind].
  apply new_ImageData_dims in Hn as (Hn & _).
  rewrite for_range_nested.
  apply (for_of_invariant (same_dims (width img) (height img))); [|done].
  intros p s1 s2 Hs1. repeat case_match; intros [= <-]; done.
Qed.

Lemma resizeImage_dims this img targetWidth out :
  resizeImage this img targetWidth = Ok out ->
  width out = targetWidth /\ height out = targetHeight_of img targetWidth.
Proof.
  unfold resizeImage.
  destruct (new_ImageData _ _) as [o|] eqn:Hn; [|done]. cbn [mbind result_bind].
  apply new_ImageData_dims in Hn as (Hn & _).
  rewrite for_range_nested.
  apply (for_of_invariant (same_dims targetWidth (targetHeight_of img targetWidth)));
    [|done].
  intros p s1 s2 Hs1. intros [= <-]. done.
Qed.

(** ** Totality of the stages on non-empty extents *)

Lemma resizeImage_spec this img targetWidth :
  0 < targetWidth -> 0 < targetHeight_of img targetWidth ->
  exists out, resizeImage this img targetWidth = Ok out /\
    sized targetWidth (targetHeight_of img targetWidth) out /\
    forall x y, inb targetWidth (targetHeight_of img targetWidth) (x, y) ->
      getRGBA out x y =
      stored (getRGBA img
        (Math_floor (num x * (num (width img) / num targetWidth)))
        (Math_floor (num y * (num (height img) / num (targetHeight_of img targetWidth)))))%Qc.
Proof.
  intros Hw Hh. unfold resizeImage.
  rewrite new_ImageData_ok by done. cbn [mbind result_bind].
  rewrite for_range_nested.
  match goal with |- context [for_of _ ?b ?s] =>
    destruct (fun Hb => pixel_loops_spec (fun o : ImageData => o)
      targetWidth (targetHeight_of img targetWidth) b
      (fun p _ new => new = stored (getRGBA img
        (Math_floor (num p.1 * (num (width img) / num targetWidth)))
        (Math_floor (num p.2 * (num (height img) /
                                num (targetHeight_of img targetWidth)))))%Qc)
      Hb s) as (out & Hl & Hsz' & HQ)
  end.
  - intros [x y] s Hin Hs. cbn [fst snd]. eexists. split_and!; [done| | |].
    + by apply setRGBA_sized.
    + by eapply getRGBA_setRGBA_eq.
    + intros [x' y'] Hin' Hne. cbn [fst snd]. by eapply getRGBA_setRGBA_ne.
  - repeat split; simpl; by rewrite ?length_replicate.
  - exists out. split_and!; [exact Hl|done|].
    intros x y Hin. apply (HQ (x, y) Hin).
Qed.


Lemma copy_data_prefix (src : list Z) (n k : nat) (out : list Z) :
  (k + n)%nat = length src -> length out = length src ->
  take k out = take k src ->
  fold_left (fun out i => <[i := default 0 (src !! i)]> out) (seq k n) out = src.
Proof.
  revert k out. induction n as [|n IH]; intros k out Hk Hl Ht; simpl.
  - rewrite Nat.add_0_r in Hk. subst k.
    rewrite <- Hl in Ht at 1. by rewrite !firstn_all in Ht.
  - apply IH; [lia|by rewrite length_insert|].
    destruct (lookup_lt_is_Some_2 src k) as [v Hv]; [lia|].
    rewrite Hv. simpl. rewrite (take_S_r src k v) by done.
    rewrite (take_S_r _ k v) by (apply list_lookup_insert_eq; lia).
    rewrite take_insert_ge by lia. by rewrite Ht.
Qed.

Lemma copy_data_same_length (src dst : list Z) :
  length dst = length src -> copy_data src dst = src.
Proof. intros Hl. unfold copy_data. by apply copy_data_prefix. Qed.

Lemma detectAndPreserveEdges_spec this img w h :
  0 < w -> 0 < h -> sized w h img ->
  exists out, detectAndPreserveEdges this img = Ok out /\ sized w h out /\
    forall x y, inb w h (x, y) ->
      getRGBA out x y =
        let neighbors := getNeighborPixels img x y in
        if bool_decide (0 < length neighbors)%nat
           && negb (isEdgePixel this (getRGBA img x y) neighbors
                                (options_edgeThreshold this))
        then stored (averageColor neighbors)
        else getRGBA img x y.
Proof.
  intros Hw Hh Hsz. pose proof Hsz as (Ew & Eh & El).
  unfold detectAndPreserveEdges. rewrite Ew, Eh.
  rewrite new_ImageData_ok by done. cbn [mbind result_bind width height data].
  rewrite copy_data_same_length by (rewrite length_replicate; lia).
  rewrite for_range_nested.
  match goal with |- context [for_of _ ?b ?s] =>
    destruct (fun Hb => pixel_loops_spec (fun o : ImageData => o) w h b
      (fun p old new => new =
         let neighbors := getNeighborPixels img p.1 p.2 in
         if bool_decide (0 < length neighbors)%nat
            && negb (isEdgePixel this (getRGBA img p.1 p.2) neighbors
                                 (options_edgeThreshold this))
         then stored (averageColor neighbors)
         else old)
      Hb s) as (out & Hl & Hsz' & HQ)
  end.
  - intros [x y] s Hin Hs. cbn [fst snd].
    destruct (bool_decide (0 < length (getNeighborPixels img x y))%nat); cbn [andb];
      [destruct (isEdgePixel _ _ _ _); cbn [negb]|].
    + exists s. by split_and!.
    + eexists. split_and!; [done| | |].
      * by apply setRGBA_sized.
      * by eapply getRGBA_setRGBA_eq.
      * intros [x' y'] Hin' Hne. cbn [fst snd]. by eapply getRGBA_setRGBA_ne.
    + exists s. by split_and!.
  - repeat split; simpl; done.
  - exists out. split_and!; [exact Hl|done|].
    intros x y Hin. pose proof (HQ (x, y) Hin) as Hxy. cbn [fst snd] in Hxy.
    rewrite Hxy. destruct img as [w0 h0 d0]. simpl in *. by subst w0 h0.
Qed.

(** ** The generated palette is not empty *)

Lemma Map_upsert_nonempty {K V} `{EqDecision K} (k : K) (f : option V -> V) m :
  Map_upsert k f m <> [].
Proof. destruct m as [|[k' v] m]; simpl; [done|]. by case_decide. Qed.

Lemma Map_upsert_Forall {K V} `{EqDecision K} (P : V -> Prop) (k : K)
    (f : option V -> V) m :
  (forall o, P (f o)) -> Forall (fun kv => P kv.2) m ->
  Forall (fun kv => P kv.2) (Map_upsert k f m).
Proof.
  intros Hf. induction 1 as [|[k' v] m Hv Hm IH]; simpl.
  - constructor; [apply Hf|constructor].
  - case_decide; constructor; simpl; auto.
Qed.

Lemma fold_upsert_nonempty {A K V} `{EqDecision K} (key : A -> K)
    (upd : A -> option V -> V) (l : list A) (m : list (K * V)) :
  l <> [] \/ m <> [] ->
  fold_left (fun m a => Map_upsert (key a) (upd a) m) l m <> [].
Proof.
  revert m. induction l as [|a l IH]; intros m H; simpl.
  - by destruct H.
  - apply IH. right. apply Map_upsert_nonempty.
Qed.

Lemma fold_upsert_Forall {A K V} `{EqDecision K} (P : V -> Prop) (key : A -> K)
    (upd : A -> option V -> V) (l : list A) (m : list (K * V)) :
  (forall a o, P (upd a o)) -> Forall (fun kv => P kv.2) m ->
  Forall (fun kv => P kv.2) (fold_left (fun m a => Map_upsert (key a) (upd a) m) l m).
Proof.
  intros Hu. revert m. induction l as [|a l IH]; intros m Hm; simpl; [done|].
  apply IH. by apply Map_upsert_Forall.
Qed.

Lemma length_insert_by_count c l : length (insert_by_count c l) = Datatypes.S (length l).
Proof. induction l as [|c' l IH]; simpl; [done|]. case_match; simpl; by rewrite ?IH. Qed.

Lemma length_sort_by_count l : length (sort_by_count l) = length l.
Proof.
  unfold sort_by_count. induction l as [|c l IH]; simpl; [done|].
  by rewrite length_insert_by_count, IH.
Qed.

Lemma slice0_nonempty {A} (l : list A) (n : Z) : l <> [] -> 1 <= n -> slice0 l n <> [].
Proof.
  intros Hl Hn. unfold slice0. destruct (Z.ltb_spec n 0); [lia|].
  destruct l as [|a l]; [done|].
  destruct (Z.to_nat n) as [|k] eqn:Hk; [lia|]. done.
Qed.

Lemma nonempty_length {A} (l : list A) : l <> [] <-> (0 < length l)%nat.
Proof. destruct l; simpl; split; try done; lia. Qed.

Lemma colorsPerBin_pos (colorLimit : Z) :
  1 <= colorLimit -> 1 <= Math_ceil (num colorLimit / num HUE_BINS)%Qc.
Proof.
  intros Hc. unfold Math_ceil.
  pose proof (Qle_ceiling (num colorLimit / num HUE_BINS)%Qc) as Hle.
  set (k := Qceiling _) in *.
  unfold Qcdiv, Qcinv in Hle. Qc_unfold. rewrite !Qred_correct in Hle.
  unfold Qle, Qmult, Qinv in Hle. simpl in Hle. lia.
Qed.

Lemma cellColors_of_nonempty binPixels colorsPerBin :
  binPixels <> [] -> 1 <= colorsPerBin -> cellColors_of binPixels colorsPerBin <> [].
Proof.
  intros Hb Hc. unfold cellColors_of. apply slice0_nonempty; [|done].
  apply nonempty_length. rewrite length_sort_by_count, length_fmap.
  apply nonempty_length. unfold slGrid_of. apply fold_upsert_nonempty. by left.
Qed.

Lemma generatePalette_nonempty this img colorLimit :
  data img <> [] -> 1 <= colorLimit -> generatePalette this img colorLimit <> [].
Proof.
  intros Hd Hc. unfold generatePalette.
  apply nonempty_length. rewrite length_fmap. apply nonempty_length.
  apply slice0_nonempty; [|done].
  apply nonempty_length. rewrite length_sort_by_count. apply nonempty_length.
  pose proof (colorsPerBin_pos colorLimit Hc) as Hcpb.
  set (cpb := Math_ceil _) in *.
  assert (hueBins_of (palette_pixels img) <> []) as Hne.
  { unfold hueBins_of. apply fold_upsert_nonempty. left.
    unfold palette_pixels. apply nonempty_length. rewrite length_fmap, length_seqZ.
    apply nonempty_length in Hd.
    assert (1 <= (Z.of_nat (length (data img)) + 3) / 4).
    { apply Z.div_le_lower_bound; lia. }
    lia. }
  assert (Forall (fun kv : Z * list Px.t => kv.2 <> []) (hueBins_of (palette_pixels img)))
    as Hall.
  { unfold hueBins_of.
    apply (fold_upsert_Forall (fun v : list Px.t => v <> [])
             (fun pixel => Math_floor (Px.h pixel * num HUE_BINS)%Qc)
             (fun pixel o => default [] o ++ [pixel])); [|constructor].
    intros a o. by destruct (default [] o). }
  revert Hne Hall. generalize (hueBins_of (palette_pixels img)). intros bins Hne Hall.
  assert (forall acc, acc <> [] \/ bins <> [] ->
    fold_left (fun palette '(_, binPixels) =>
      if bool_decide (length binPixels = 0%nat) then palette
      else palette ++ cellColors_of binPixels cpb) bins acc <> []) as Hfold.
  { clear Hne. induction Hall as [|[k bin] bins Hbin _ IH]; intros acc Hacc.
    - simpl. by destruct Hacc.
    - simpl in *. apply IH. left.
      rewrite bool_decide_eq_false_2 by (by destruct bin).
      pose proof (cellColors_of_nonempty bin cpb Hbin Hcpb).
      by destruct acc, (cellColors_of bin cpb). }
  apply Hfold. by right.
Qed.

(** ** The pipeline: failures and dimensions *)

Lemma sized_data_nonempty w h img : 0 < w -> 0 < h -> sized w h img -> data img <> [].
Proof.
  intros Hw Hh (_ & _ & Hl). apply nonempty_length. rewrite Hl. nia.
Qed.


Lemma convertToPixelArt_throw_palette this img opts :
  0 < default 64 (targetWidth opts) ->
  0 < targetHeight_of img (default 64 (targetWidth opts)) ->
  palette opts = Some [] ->
  convertToPixelArt this img opts = Throw TypeError.
Proof.
  intros Hw Hh Hp. unfold convertToPixelArt.
  destruct (resizeImage_spec this img _ Hw Hh) as (resized & -> & Hsz & _).
  cbn [mbind result_bind]. rewrite Hp.
  assert (exists processed,
    (if default true (preserveEdges opts) then detectAndPreserveEdges this resized
     else Ok resized) = Ok processed /\
    sized (default 64 (targetWidth opts))
          (targetHeight_of img (default 64 (targetWidth opts))) processed)
    as (processed & -> & (Ew & Eh & _)).
  { destruct (default true (preserveEdges opts)); [|by exists resized].
    destruct (detectAndPreserveEdges_spec this resized _ _ Hw Hh Hsz)
      as (out & -> & Hs & _). by exists out. }
  cbn [mbind result_bind].
  destruct (default true (dithering opts));
    [apply applyDithering_nil|apply quantizeColors_nil]; lia.
Qed.

Lemma convertToPixelArt_total this img opts :
  0 < default 64 (targetWidth opts) ->
  0 < targetHeight_of img (default 64 (targetWidth opts)) ->
  (forall p, palette opts = Some p -> p <> []) ->
  (palette opts = None -> 1 <= default 32 (colorLimit opts)) ->
  exists out, convertToPixelArt this img opts = Ok out /\
    sized (default 64 (targetWidth opts))
          (targetHeight_of img (default 64 (targetWidth opts))) out.
Proof.
  intros Hw Hh Hp Hc. unfold convertToPixelArt.
  destruct (resizeImage_spec this img _ Hw Hh) as (resized & -> & Hsz & _).
  cbn [mbind result_bind].
  assert (exists processed,
    (if default true (preserveEdges opts) then detectAndPreserveEdges this resized
     else Ok resized) = Ok processed /\
    sized (default 64 (targetWidth opts))
          (targetHeight_of img (default 64 (targetWidth opts))) processed)
    as (processed & -> & Hsp).
  { destruct (default true (preserveEdges opts)); [|by exists resized].
    destruct (detectAndPreserveEdges_spec this resized _ _ Hw Hh Hsz)
      as (out & -> & Hs & _). by exists out. }
  cbn [mbind result_bind].
  set (colorPalette := match palette opts with Some p => p | None => _ end).
  assert (colorPalette <> []) as Hne.
  { unfold colorPalette. destruct (palette opts) as [p|] eqn:Ep; [by apply Hp|].
    apply generatePalette_nonempty;
      [exact (sized_data_nonempty _ _ _ Hw Hh Hsp)|by apply Hc]. }
  destruct (default true (dithering opts)).
  - destruct (applyDithering_spec this processed colorPalette
      (default (options_ditheringStrength this) (ditheringStrength opts)) _ _ Hw Hh Hsp Hne)
      as (out & -> & Hs & _). by exists out.
  - destruct (quantizeColors_spec this processed colorPalette _ _ Hw Hh Hsp Hne)
      as (out & -> & Hs & _). by exists out.
Qed.

Lemma Math_round_nonneg (x : Qc) : (0 <= x)%Qc -> 0 <= Math_round x.
Proof.
  intros Hx. unfold Math_round. rewrite <- (Qfloor_Z 0).
  apply Qfloor_resp_le. Qc_unfold. rewrite Qred_correct.
  change (Qred (1 # 2)) with (1 # 2)%Q. change (Qred 0)%Q with 0%Q in Hx.
  revert Hx. generalize (this x). intros a Ha. change (inject_Z 0) with 0%Q. lra.
Qed.

Lemma targetHeight_of_formula img targetWidth :
  targetHeight_of img targetWidth =
  Math_round (num (height img) * num targetWidth / num (width img))%Qc.
Proof. unfold targetHeight_of. f_equal. unfold Qcdiv. ring. Qed.

Lemma targetHeight_of_nonneg img targetWidth :
  0 <= width img -> 0 <= height img -> 0 <= targetWidth ->
  0 <= targetHeight_of img targetWidth.
Proof.
  intros Hw Hh Ht. unfold targetHeight_of. apply Math_round_nonneg.
  assert (forall z, 0 <= z -> (0 <= inject_Z z)%Q) as Hinj.
  { intros z Hz. unfold Qle. simpl. lia. }
  unfold Qcdiv, Qcinv. Qc_unfold. rewrite !Qred_correct.
  change (Qred 0) with 0%Q.
  apply Qmult_le_0_compat; [by apply Hinj|].
  apply Qmult_le_0_compat; [by apply Hinj|].
  apply Qinv_le_0_compat. by apply Hinj.
Qed.

(** ** Defaults of the configuration *)

(** The claim C9 as stated fails: on an 8x1 grey row with the palette
    black/white, the conversion without ditheringStrength differs from the
    conversion with ditheringStrength 0.3. *)
Lemma C9_counterexample :
  let img := fill_image 8 1 [100; 100; 100; 255] in
  let opts := mkOptions (Some 8) (Some 16) (Some true) (Some false) None None None
                (Some (palette_of [(0, 0, 0); (255, 255, 255)])) in
  convertToPixelArt converter img opts <>
  convertToPixelArt converter img (with_ditheringStrength (Some (frac 3 10)) opts).
Proof. intros img opts. by_eval. Qed.

(** C9 (amended): a configuration without ditheringStrength dithers with
    the strength of the converter object, which the constructor sets to 1.0
    unless it is given another one (0.3 is only the initial value of the
    user-interface settings, passed explicitly).  A converter built without
    edgeThreshold uses the threshold 100; the edgeThreshold of the
    configuration passed to [convertToPixelArt] is not read. *)
Theorem C9_defaults :
  (forall ctor img opts,
     convertToPixelArt (new_PicPixeller ctor) img (with_ditheringStrength None opts) =
     convertToPixelArt (new_PicPixeller ctor) img
       (with_ditheringStrength (Some (default (num 1) (ditheringStrength ctor))) opts)) /\
  (forall img opts,
     convertToPixelArt converter img (with_ditheringStrength None opts) =
     convertToPixelArt converter img (with_ditheringStrength (Some (num 1)) opts)) /\
  (forall ctor, options_edgeThreshold (new_PicPixeller (with_edgeThreshold None ctor))
                = num 100) /\
  (forall ctor img opts t,
     convertToPixelArt (new_PicPixeller (with_edgeThreshold None ctor)) img
       (with_edgeThreshold t opts) =
     convertToPixelArt (new_PicPixeller (with_edgeThreshold (Some (num 100)) ctor)) img
       opts).
Proof. split_and!; done. Qed.

(** ** Edge preservation in the words of the specification *)

Lemma neighbor_cell img x y dx dy :
  (dx, dy) <> (0, 0) ->
  (if bool_decide (dx = 0) && bool_decide (dy = 0) then []
   else
     let nx := x + dx in
     let ny := y + dy in
     if (0 <=? nx) && (nx <? width img) && (0 <=? ny) && (ny <? height img)
     then [getRGBA img nx ny] else []) =
  (fun p => getRGBA img p.1 p.2) <$>
  filter (inb (width img) (height img)) [(x + dx, y + dy)].
Proof.
  intros Hne.
  assert (bool_decide (dx = 0) && bool_decide (dy = 0) = false) as ->.
  { apply andb_false_iff. rewrite !bool_decide_eq_false.
    destruct (decide (dx = 0)) as [->|]; [right|left; done]. intros ->. done. }
  cbn zeta. rewrite filter_cons, filter_nil.
  destruct (decide (inb (width img) (height img) (x + dx, y + dy))) as [Hin|Hin].
  - destruct Hin as [Hx Hy]. simpl in Hx, Hy.
    destruct (Z.leb_spec 0 (x + dx)), (Z.ltb_spec (x + dx) (width img)),
      (Z.leb_spec 0 (y + dy)), (Z.ltb_spec (y + dy) (height img)); try lia. done.
  - destruct (Z.leb_spec 0 (x + dx)), (Z.ltb_spec (x + dx) (width img)),
      (Z.leb_spec 0 (y + dy)), (Z.ltb_spec (y + dy) (height img)); try done.
    destruct Hin. split; simpl; lia.
Qed.

Lemma getNeighborPixels_neighbors_in img x y :
  getNeighborPixels img x y = neighbors_in img x y.
Proof.
  unfold getNeighborPixels, neighbors_in, adjacent.
  change (seqZ (-1) 3) with [-1; 0; 1]. cbn [mbind list_bind].
  change (bool_decide (0 = 0) && bool_decide (0 = 0)) with true. cbn match.
  rewrite !neighbor_cell by done.
  rewrite !Z.add_0_r. rewrite !app_nil_r. cbn [app].
  repeat (rewrite <- !fmap_app || rewrite <- !filter_app). reflexivity.
Qed.

Lemma isEdgePixel_true options center neighbors threshold :
  isEdgePixel (new_PicPixeller options) center neighbors threshold = true <->
  exists n, n ∈ neighbors /\
    (threshold < Math_abs (luma601 center - luma601 n))%Qc.
Proof.
  unfold isEdgePixel. rewrite existsb_exists. split.
  - intros (n & Hin & Hn). exists n. split; [by apply list_elem_of_In|].
    by apply bool_decide_eq_true in Hn.
  - intros (n & Hin & Hn). exists n. split; [by apply list_elem_of_In|].
    by apply bool_decide_eq_true.
Qed.

Lemma averageColor_sum (pixels : list RGBA.t) (acc : RGBA.t) :
  fold_left (fun acc pixel =>
      RGBA.mk (RGBA.r acc + RGBA.r pixel) (RGBA.g acc + RGBA.g pixel)
              (RGBA.b acc + RGBA.b pixel) (RGBA.a acc + RGBA.a pixel))%Qc
    pixels acc =
  (RGBA.mk (RGBA.r acc + foldr Qcplus 0 (RGBA.r <$> pixels))
           (RGBA.g acc + foldr Qcplus 0 (RGBA.g <$> pixels))
           (RGBA.b acc + foldr Qcplus 0 (RGBA.b <$> pixels))
           (RGBA.a acc + foldr Qcplus 0 (RGBA.a <$> pixels)))%Qc.
Proof.
  revert acc. induction pixels as [|p l IH]; intros acc; cbn [fold_left].
  - destruct acc; simpl. f_equal; ring.
  - rewrite IH. rewrite !fmap_cons. cbn [foldr RGBA.r RGBA.g RGBA.b RGBA.a].
    f_equal; ring.
Qed.

Lemma averageColor_mean (pixels : list RGBA.t) :
  averageColor pixels = mean_color pixels.
Proof.
  unfold averageColor, mean_color, mean. rewrite averageColor_sum. simpl.
  rewrite !length_fmap. f_equal; f_equal; ring.
Qed.

Lemma data_get_byte d j :
  Forall (fun v => 0 <= v <= 255) d -> 0 <= j -> (Z.to_nat j < length d)%nat ->
  is_byte (data_get d j).
Proof.
  intros Hall Hj Hl. unfold data_get. destruct (Z.ltb_spec j 0); [lia|].
  apply lookup_lt_is_Some_2 in Hl as [v Hv]. rewrite Hv. simpl.
  exists v. split; [|done]. by eapply Forall_lookup_1 in Hall.
Qed.

Lemma getRGBA_byte_pixel img x y :
  wf_image img -> inb (width img) (height img) (x, y) -> byte_pixel (getRGBA img x y).
Proof.
  intros (Hw & Hh & Hl & Hall) Hin. unfold getRGBA, byte_pixel. simpl.
  pose proof (pixel_index_bound _ _ _ _ 0 Hin ltac:(lia)).
  pose proof (pixel_index_bound _ _ _ _ 3 Hin ltac:(lia)).
  split_and!; apply data_get_byte; try done; lia.
Qed.

Lemma neighbors_in_byte_pixels img x y :
  wf_image img -> Forall byte_pixel (neighbors_in img x y).
Proof.
  intros Hwf. unfold neighbors_in. apply Forall_fmap, Forall_forall.
  intros [nx ny] Hp. apply list_elem_of_filter in Hp as [Hin _].
  by apply getRGBA_byte_pixel.
Qed.

Lemma sum_bytes (l : list Qc) :
  Forall is_byte l ->
  exists s, foldr Qcplus 0%Qc l = num s /\ 0 <= s <= 255 * Z.of_nat (length l).
Proof.
  induction 1 as [|v l (z & Hz & ->) _ (s & Hs & Hb)]; simpl.
  - exists 0. split; [symmetry; apply Z2Qc_inj_0|lia].
  - exists (z + s). rewrite Hs. split; [symmetry; apply Z2Qc_inj_add|lia].
Qed.

Lemma Math_round_div_byte (s n : Z) :
  0 < n -> 0 <= s <= 255 * n -> 0 <= Math_round (num s / num n)%Qc <= 255.
Proof.
  intros Hn Hs.
  assert (0 <= inject_Z s / inject_Z n)%Q as Hlo.
  { apply Qle_shift_div_l; [unfold Qlt; simpl; lia|].
    unfold Qle; simpl; lia. }
  assert (inject_Z s / inject_Z n <= 255)%Q as Hhi.
  { apply Qle_shift_div_r; [unfold Qlt; simpl; lia|].
    unfold Qle; simpl; lia. }
  unfold Math_round, Qcdiv, Qcinv. Qc_unfold. split.
  - rewrite <- (Qfloor_Z 0). apply Qfloor_resp_le. rewrite !Qred_correct.
    change (Qred (1 # 2)) with (1 # 2)%Q. change (inject_Z 0) with 0%Q.
    unfold Qdiv in Hlo. lra.
  - change 255 with (Qfloor (255 + (1 # 2))%Q).
    apply Qfloor_resp_le. rewrite !Qred_correct.
    change (Qred (1 # 2)) with (1 # 2)%Q. unfold Qdiv in Hhi. lra.
Qed.

Lemma clampByte_mean (l : list Qc) :
  l <> [] -> Forall is_byte l -> clampByte (mean l) = Math_round (mean l).
Proof.
  intros Hne Hall. destruct (sum_bytes l Hall) as (s & Hs & Hb).
  unfold clampByte, mean. rewrite Hs.
  pose proof (Math_round_div_byte s (Z.of_nat (length l))) as H.
  apply nonempty_length in Hne. lia.
Qed.

Lemma stored_averageColor (pixels : list RGBA.t) :
  pixels <> [] -> Forall byte_pixel pixels ->
  stored (averageColor pixels) = rounded (mean_color pixels).
Proof.
  intros Hne Hall. rewrite averageColor_mean. unfold stored, rounded, mean_color. simpl.
  assert (forall f : RGBA.t -> Qc, (forall c, byte_pixel c -> is_byte (f c)) ->
            clampByte (mean (f <$> pixels)) = Math_round (mean (f <$> pixels))) as Hc.
  { intros f Hf. apply clampByte_mean.
    - by destruct pixels.
    - apply Forall_fmap. eapply Forall_impl; [exact Hall|]. intros c Hcb. by apply Hf. }
  rewrite !Hc; [done| | | |]; by intros c (?&?&?&?).
Qed.

(** ** Reads of the resampler stay inside the source *)

Lemma Math_floor_scale (x n m : Z) :
  0 < m -> Math_floor (num x * (num n / num m))%Qc = x * n / m.
Proof.
  intros Hm. unfold Math_floor, Qcdiv, Qcinv. Qc_unfold.
  rewrite Zdiv_Qdiv. apply Qfloor_comp. rewrite !Qred_correct.
  rewrite inject_Z_mult. unfold Qdiv. ring.
Qed.


(** * Further properties of the code *)

(** ** Pixel access *)

Lemma stored_byte_pixel c : byte_pixel c -> stored c = c.
Proof.
  destruct c as [r g b a]. unfold byte_pixel. simpl.
  intros ((zr & Hr & ->) & (zg & Hg & ->) & (zb & Hb & ->) & (za & Ha & ->)).
  unfold stored. simpl. by rewrite !clampByte_num.
Qed.

Lemma stored_is_byte_pixel c : byte_pixel (stored c).
Proof.
  unfold byte_pixel, stored, is_byte. simpl.
  split_and!; eexists; (split; [apply clampByte_range|reflexivity]).
Qed.

(** A buffer of the right size whose pixels all hold bytes is well formed. *)
Lemma wf_image_of_pixels w h img :
  0 < w -> 0 < h -> sized w h img ->
  (forall x y, inb w h (x, y) -> byte_pixel (getRGBA img x y)) ->
  wf_image img.
Proof.
  intros Hw Hh (Ew & Eh & El) Hpx. unfold wf_image. rewrite Ew, Eh.
  split_and!; [done|done|done|].
  apply Forall_lookup_2. intros i v Hv.
  assert (i < length (data img))%nat as Hi by (by eapply lookup_lt_Some).
  set (pix := Z.of_nat i / 4). set (k := Z.of_nat i mod 4).
  set (x := pix mod w). set (y := pix / w).
  assert (Z.of_nat i = pix * 4 + k) as Ei.
  { unfold pix, k. pose proof (Z.div_mod (Z.of_nat i) 4). lia. }
  assert (0 <= k < 4) as Hk by (apply Z.mod_pos_bound; lia).
  assert (pix = y * w + x) as Ep.
  { unfold x, y. pose proof (Z.div_mod pix w). lia. }
  assert (0 <= x < w) as Hx by (apply Z.mod_pos_bound; lia).
  assert (0 <= pix) as Hp0 by (apply Z.div_pos; lia).
  assert (0 <= y) as Hy0 by (apply Z.div_pos; lia).
  assert (y < h) as Hyh by nia.
  clearbody pix k x y.
  destruct (Hpx x y (conj Hx (conj Hy0 Hyh))) as (Br & Bg & Bb & Ba).
  unfold getRGBA in Br, Bg, Bb, Ba. simpl in Br, Bg, Bb, Ba.
  rewrite Ew, <- Ep in Br, Bg, Bb, Ba.
  assert (forall j, Z.of_nat i = j -> is_byte (data_get (data img) j) -> 0 <= v <= 255)
    as Hget.
  { intros j <- (z & Hz & Hj). unfold data_get in Hj.
    destruct (Z.ltb_spec (Z.of_nat i) 0); [lia|].
    rewrite Nat2Z.id, Hv in Hj. simpl in Hj. apply Z2Qc_inj in Hj. by subst. }
  assert (k = 0 \/ k = 1 \/ k = 2 \/ k = 3) as Hk4 by lia.
  destruct Hk4 as [Hk4|[Hk4|[Hk4|Hk4]]]; subst k.
  - apply (Hget (pix * 4)); [lia|done].
  - by apply (Hget (pix * 4 + 1)).
  - by apply (Hget (pix * 4 + 2)).
  - by apply (Hget (pix * 4 + 3)).
Qed.

(** X1: on a well-formed buffer, [getRGBA] reads back at (x, y) the colour
    [setRGBA] stored there, rounded and clamped to bytes; every other pixel,
    the dimensions and well-formedness are untouched; and writing a pixel
    back where it was read changes nothing. *)
Theorem X1_setRGBA_getRGBA img x y color :
  wf_image img -> inb (width img) (height img) (x, y) ->
  getRGBA (setRGBA img x y color) x y = stored color /\
  (forall x' y', inb (width img) (height img) (x', y') -> (x', y') <> (x, y) ->
     getRGBA (setRGBA img x y color) x' y' = getRGBA img x' y') /\
  wf_image (setRGBA img x y color) /\
  setRGBA img x y (getRGBA img x y) = img.
Proof.
  intros Hwf Hin. pose proof Hwf as (Hw & Hh & _).
  pose proof (wf_image_sized _ Hwf) as Hsz.
  assert (forall c x' y', inb (width img) (height img) (x', y') ->
            byte_pixel (getRGBA (setRGBA img x y c) x' y')) as Hbytes.
  { intros c x' y' Hin'. destruct (decide ((x, y) = (x', y'))) as [[= <- <-]|Hne].
    - erewrite getRGBA_setRGBA_eq by done. apply stored_is_byte_pixel.
    - erewrite getRGBA_setRGBA_ne by done. by apply getRGBA_byte_pixel. }
  split_and!.
  - by eapply getRGBA_setRGBA_eq.
  - intros x' y' Hin' Hne.
    apply (getRGBA_setRGBA_ne _ _ img x y x' y' color Hsz Hin Hin'). congruence.
  - eapply (wf_image_of_pixels (width img) (height img)); try done.
    + by apply setRGBA_sized.
    + apply Hbytes.
  - eapply image_ext; [exact Hw|by apply setRGBA_sized|done|].
    intros x' y' Hin'. destruct (decide ((x, y) = (x', y'))) as [[= <- <-]|Hne].
    + erewrite getRGBA_setRGBA_eq by done.
      apply stored_byte_pixel. by apply getRGBA_byte_pixel.
    + by erewrite getRGBA_setRGBA_ne.
Qed.

Lemma X1_witness :
  let img := mkImageData 2 1 [1; 2; 3; 4; 5; 6; 7; 8] in
  getRGBA (setRGBA img 1 0 (RGBA.mk (frac 5 2) (num 300) (num (-1)) (num 9))) 1 0
    = stored (RGBA.mk (frac 5 2) (num 300) (num (-1)) (num 9)) /\
  setRGBA img 1 0 (getRGBA img 1 0) = img.
Proof.
  intros img.
  assert (wf_image img) as Hwf by by_eval.
  assert (inb (width img) (height img) (1, 0)) as Hin by by_eval.
  pose proof (X1_setRGBA_getRGBA img 1 0
                (RGBA.mk (frac 5 2) (num 300) (num (-1)) (num 9)) Hwf Hin) as H.
  destruct H as (H1 & _ & _ & _).
  pose proof (X1_setRGBA_getRGBA img 1 0 (getRGBA img 1 0) Hwf Hin) as H'.
  destruct H' as (_ & _ & _ & H4).
  split; [exact H1|exact H4].
Defined.

(** ** Nearest palette entry *)

Lemma Dist_ltb_asym x y : Dist_ltb x y = true -> Dist_ltb y x = false.
Proof.
  intros Hxy. destruct (Dist_ltb y x) eqn:Hyx; [|done].
  pose proof (Dist_ltb_trans _ _ _ Hxy Hyx) as H. by rewrite Dist_ltb_irrefl in H.
Qed.

Lemma findClosestColor_minimal this c pal e :
  findClosestColor this c pal = Some e ->
  e ∈ pal /\
  forall e', e' ∈ pal -> Dist_ltb (colorDistance this c e') (colorDistance this c e) = false.
Proof.
  intros Hf. assert (pal <> []) as Hne by (intros ->; done).
  destruct (findClosestColor_decompose this c pal Hne) as (l1 & e0 & l2 & -> & Hf0 & H1 & H2).
  rewrite Hf in Hf0. injection Hf0 as <-. split.
  - apply elem_of_app. right. left.
  - intros e' He'. apply elem_of_app in He' as [He'|He'].
    + apply Dist_ltb_asym. by eapply Forall_forall in H1.
    + apply elem_of_cons in He' as [->|He']; [apply Dist_ltb_irrefl|].
      by eapply Forall_forall in H2.
Qed.



(** ** The distance *)




(** ** Resampling *)

Lemma targetHeight_of_same_width img :
  0 < width img -> targetHeight_of img (width img) = height img.
Proof.
  intros Hw. unfold targetHeight_of.
  assert (num (width img) <> 0%Qc) as Hne.
  { rewrite <- Z2Qc_inj_0. intros H. apply Z2Qc_inj in H. lia. }
  unfold Qcdiv. rewrite Qcmult_inv_r by done. rewrite Qcmult_1_r.
  apply Math_round_num.
Qed.

(** X6: resizing a well-formed buffer to its own width returns the buffer
    itself. *)
Theorem X6_resizeImage_same_width this img :
  wf_image img -> resizeImage this img (width img) = Ok img.
Proof.
  intros Hwf. pose proof Hwf as (Hw & Hh & _).
  pose proof (targetHeight_of_same_width img Hw) as Eth.
  destruct (resizeImage_spec this img (width img)) as (out & -> & Hsz & Hpx);
    [done|lia|].
  f_equal. rewrite Eth in Hsz, Hpx.
  apply (image_ext (width img) (height img)); [done|done|by apply wf_image_sized|].
  intros x y Hin. rewrite (Hpx x y Hin).
  rewrite !Math_floor_scale by lia. rewrite !Z.div_mul by lia.
  apply stored_byte_pixel. by apply getRGBA_byte_pixel.
Qed.

Lemma X6_witness :
  resizeImage converter (mkImageData 2 1 [1; 2; 3; 4; 5; 6; 7; 8]) 2 =
  Ok (mkImageData 2 1 [1; 2; 3; 4; 5; 6; 7; 8]).
Proof.
  assert (wf_image (mkImageData 2 1 [1; 2; 3; 4; 5; 6; 7; 8])) as Hwf by by_eval.
  pose proof (X6_resizeImage_same_width converter
                (mkImageData 2 1 [1; 2; 3; 4; 5; 6; 7; 8]) Hwf) as H.
  exact H.
Defined.

(** ** The generated palette *)

Lemma Map_upsert_inv {K V} `{EqDecision K} (P : V -> Prop) (k : K)
    (f : option V -> V) m :
  P (f None) -> (forall v, P v -> P (f (Some v))) ->
  Forall (fun kv => P kv.2) m -> Forall (fun kv => P kv.2) (Map_upsert k f m).
Proof.
  intros Hn Hs. induction 1 as [|[k' v] m Hv Hm IH]; simpl.
  - constructor; [done|constructor].
  - case_decide; constructor; simpl; auto.
Qed.

Lemma fold_upsert_inv {A K V} `{EqDecision K} (Pa : A -> Prop) (P : V -> Prop)
    (key : A -> K) (upd : A -> option V -> V) (l : list A) (m : list (K * V)) :
  (forall a, Pa a -> P (upd a None)) ->
  (forall a v, Pa a -> P v -> P (upd a (Some v))) ->
  Forall Pa l -> Forall (fun kv => P kv.2) m ->
  Forall (fun kv => P kv.2) (fold_left (fun m a => Map_upsert (key a) (upd a) m) l m).
Proof.
  intros Hn Hs Hl. revert m. induction Hl as [|a l Ha _ IH]; intros m Hm; simpl; [done|].
  apply IH. apply Map_upsert_inv; auto.
Qed.

Lemma palette_pixels_bytes img : wf_image img -> Forall px_bytes (palette_pixels img).
Proof.
  intros (Hw & Hh & Hl & Hall). unfold palette_pixels.
  apply Forall_fmap, Forall_forall. intros k Hk. apply elem_of_seqZ in Hk.
  assert (Z.of_nat (length (data img)) = 4 * (width img * height img)) as El by lia.
  rewrite El in Hk.
  replace ((4 * (width img * height img) + 3) / 4) with (width img * height img) in Hk
    by (apply Z.div_unique with 3; lia).
  unfold px_bytes. simpl. split_and!; apply data_get_byte; try done; lia.
Qed.

Lemma hueBins_of_bytes pixels :
  Forall px_bytes pixels ->
  Forall (fun kv : Z * list Px.t => kv.2 <> [] /\ Forall px_bytes kv.2) (hueBins_of pixels).
Proof.
  intros Hpx. unfold hueBins_of.
  apply (fold_upsert_inv px_bytes (fun bin : list Px.t => bin <> [] /\ Forall px_bytes bin)
           (fun pixel => Math_floor (Px.h pixel * num HUE_BINS)%Qc)
           (fun pixel o => default [] o ++ [pixel])); [| |done|constructor].
  - intros a Ha. simpl. split; [done|]. by constructor.
  - intros a v Ha [Hne Hv]. simpl. split; [by destruct v|].
    apply Forall_app. split; [done|]. by constructor.
Qed.

Lemma slGrid_of_sums binPixels :
  Forall px_bytes binPixels ->
  Forall (fun kv : Z * Z * Cell.t => cell_sums kv.2) (slGrid_of binPixels).
Proof.
  intros Hpx. unfold slGrid_of.
  apply (fold_upsert_inv px_bytes cell_sums
           (fun pixel => (Math_floor (Px.s pixel * num SL_GRID)%Qc,
                          Math_floor (Px.l pixel * num SL_GRID)%Qc))
           (fun pixel o =>
              let cell := default (Cell.mk 0 0 0 0)%Qc o in
              Cell.mk (Cell.r cell + Px.r pixel) (Cell.g cell + Px.g pixel)
                      (Cell.b cell + Px.b pixel) (Cell.count cell + 1))%Qc);
    [| |done|constructor].
  - intros a ((zr & Hr & Er) & (zg & Hg & Eg) & (zb & Hb & Eb)). simpl.
    split; [simpl; lia|]. exists zr, zg, zb. simpl.
    rewrite Er, Eg, Eb, !Qcplus_0_l. split_and!; try done; lia.
  - intros a v ((zr & Hr & Er) & (zg & Hg & Eg) & (zb & Hb & Eb))
      (Hc & sr & sg & sb & Esr & Esg & Esb & Br & Bg & Bb). simpl.
    split; [simpl; lia|]. exists (sr + zr), (sg + zg), (sb + zb). simpl.
    rewrite Er, Eg, Eb, Esr, Esg, Esb, !Z2Qc_inj_add. split_and!; try done; lia.
Qed.

Lemma Forall_insert_by_count (P : Cell.t -> Prop) c l :
  P c -> Forall P l -> Forall P (insert_by_count c l).
Proof.
  intros Hc. induction 1 as [|c' l Hc' Hl IH]; simpl.
  - by repeat constructor.
  - case_match; repeat constructor; auto.
Qed.

Lemma Forall_sort_by_count (P : Cell.t -> Prop) l :
  Forall P l -> Forall P (sort_by_count l).
Proof.
  unfold sort_by_count. induction 1; simpl; [constructor|].
  by apply Forall_insert_by_count.
Qed.

Lemma Forall_slice0 {A} (P : A -> Prop) (l : list A) n :
  Forall P l -> Forall P (slice0 l n).
Proof. intros H. unfold slice0. case_match; by apply Forall_take. Qed.

Lemma length_slice0 {A} (l : list A) n :
  0 <= n -> Z.of_nat (length (slice0 l n)) <= n.
Proof.
  intros Hn. unfold slice0. destruct (Z.ltb_spec n 0); [lia|].
  rewrite length_take. lia.
Qed.

Lemma cellColors_of_bytes binPixels colorsPerBin :
  Forall px_bytes binPixels -> Forall cell_bytes (cellColors_of binPixels colorsPerBin).
Proof.
  intros Hpx. unfold cellColors_of.
  apply Forall_slice0, Forall_sort_by_count, Forall_fmap.
  eapply Forall_impl; [apply (slGrid_of_sums binPixels Hpx)|].
  intros [key cell] (Hc & sr & sg & sb & Er & Eg & Eb & Br & Bg & Bb). simpl in *.
  unfold cell_bytes. simpl. rewrite Er, Eg, Eb.
  split_and!; eexists; (split; [|reflexivity]); apply Math_round_div_byte; lia.
Qed.

Lemma generatePalette_bytes this img colorLimit :
  wf_image img -> Forall opaque_byte_color (generatePalette this img colorLimit).
Proof.
  intros Hwf. unfold generatePalette.
  apply Forall_fmap.
  eapply Forall_impl with (P := cell_bytes);
    [|intros c (Hr & Hg & Hb); unfold opaque_byte_color; simpl; by split_and!].
  apply Forall_slice0, Forall_sort_by_count.
  pose proof (hueBins_of_bytes _ (palette_pixels_bytes img Hwf)) as Hbins.
  revert Hbins. generalize (hueBins_of (palette_pixels img)). intros bins Hbins.
  set (cpb := Math_ceil _).
  assert (forall acc, Forall cell_bytes acc ->
    Forall cell_bytes (fold_left (fun palette '(_, binPixels) =>
      if bool_decide (length binPixels = 0%nat) then palette
      else palette ++ cellColors_of binPixels cpb) bins acc)) as Hfold.
  { induction Hbins as [|[k bin] bins [_ Hbin] _ IH]; intros acc Hacc; simpl; [done|].
    apply IH. case_bool_decide; [done|].
    apply Forall_app. split; [done|]. by apply cellColors_of_bytes. }
  apply Hfold. constructor.
Qed.

(** X7: the palette [generatePalette] builds from a well-formed buffer has
    at most [colorLimit] entries (for a non-negative limit), at least one
    when the limit is 1 or more, and every entry has integer R, G and B in
    0..255 and alpha 255. *)
Theorem X7_generatePalette_shape this img colorLimit :
  wf_image img ->
  Forall opaque_byte_color (generatePalette this img colorLimit) /\
  (0 <= colorLimit ->
   Z.of_nat (length (generatePalette this img colorLimit)) <= colorLimit) /\
  (1 <= colorLimit -> generatePalette this img colorLimit <> []).
Proof.
  intros Hwf. split_and!.
  - by apply generatePalette_bytes.
  - intros Hc. unfold generatePalette. rewrite length_fmap. by apply length_slice0.
  - intros Hc. apply generatePalette_nonempty; [|done].
    destruct Hwf as (Hw & Hh & Hl & _). apply nonempty_length. rewrite Hl. nia.
Qed.

Lemma X7_witness :
  let img := mkImageData 3 1 [255; 0; 0; 255;  0; 255; 0; 0;  0; 0; 255; 7] in
  Forall opaque_byte_color (generatePalette converter img 2) /\
  (0 <= 2 -> Z.of_nat (length (generatePalette converter img 2)) <= 2) /\
  (1 <= 2 -> generatePalette converter img 2 <> []).
Proof.
  intros img.
  assert (wf_image img) as Hwf by by_eval.
  pose proof (X7_generatePalette_shape converter img 2 Hwf) as H.
  exact H.
Defined.

(** X8: [generatePalette] reads only the R, G and B bytes: two buffers of
    the same length that differ only in alpha bytes give the same palette. *)
Theorem X8_generatePalette_ignores_alpha this img1 img2 colorLimit :
  length (data img1) = length (data img2) ->
  (forall i, (i mod 4 <> 3)%nat -> data img1 !! i = data img2 !! i) ->
  generatePalette this img1 colorLimit = generatePalette this img2 colorLimit.
Proof.
  intros Hl Hrgb. unfold generatePalette.
  assert (palette_pixels img1 = palette_pixels img2) as ->; [|done].
  unfold palette_pixels. rewrite Hl.
  apply list_fmap_ext. intros i k Hk.
  apply lookup_seqZ in Hk as [-> Hk]. rewrite Z.add_0_l. cbn beta zeta.
  assert (forall j, 0 <= j -> (Z.to_nat j mod 4 <> 3)%nat ->
            data_get (data img1) j = data_get (data img2) j) as Hget.
  { intros j Hj Hm. unfold data_get. destruct (Z.ltb_spec j 0); [lia|].
    by rewrite Hrgb. }
  assert (forall r, 0 <= r < 3 -> (Z.to_nat (4 * Z.of_nat i + r) mod 4 <> 3)%nat) as Hmod.
  { intros r Hr. replace (Z.to_nat (4 * Z.of_nat i + r)) with (Z.to_nat r + i * 4)%nat by lia.
    rewrite Nat.Div0.mod_add. rewrite Nat.mod_small by lia. lia. }
  rewrite (Hget (4 * Z.of_nat i)), (Hget (4 * Z.of_nat i + 1)),
    (Hget (4 * Z.of_nat i + 2)); try lia; try done.
  - apply (Hmod 2). lia.
  - apply (Hmod 1). lia.
  - pose proof (Hmod 0 ltac:(lia)) as H0. by rewrite Z.add_0_r in H0.
Qed.

Lemma X8_witness :
  generatePalette converter (mkImageData 2 1 [255; 0; 0; 255;  0; 255; 0; 0]) 4 =
  generatePalette converter (mkImageData 2 1 [255; 0; 0; 3;  0; 255; 0; 77]) 4.
Proof.
  apply (X8_generatePalette_ignores_alpha converter
           (mkImageData 2 1 [255; 0; 0; 255;  0; 255; 0; 0])
           (mkImageData 2 1 [255; 0; 0; 3;  0; 255; 0; 77]) 4).
  - reflexivity.
  - intros i Hi. do 8 (destruct i as [|i]; [done || (exfalso; apply Hi; reflexivity)|]).
    reflexivity.
Defined.

(** ** The error grid *)

Lemma errors_add_shape w h errors nx ny e wt :
  grid_shape w h errors -> grid_shape w h (errors_add errors nx ny e wt).
Proof.
  intros [Hl Hrows]. unfold errors_add. split.
  - by rewrite length_alter.
  - apply Forall_lookup_2. intros i row Hi.
    destruct (decide (i = Z.to_nat ny)) as [->|Hne].
    + rewrite list_lookup_alter_eq in Hi.
      destruct (errors !! Z.to_nat ny) as [row0|] eqn:E; [|done].
      injection Hi as <-. rewrite length_alter.
      by eapply Forall_lookup_1 in Hrows.
    + rewrite list_lookup_alter_ne in Hi by done.
      by eapply Forall_lookup_1 in Hrows.
Qed.

Lemma errors_get_add w h errors nx ny e wt x y :
  grid_shape w h errors -> inb w h (nx, ny) -> 0 <= x -> 0 <= y ->
  errors_get (errors_add errors nx ny e wt) x y =
  if decide (x = nx /\ y = ny) then add_scaled (errors_get errors x y) e wt
  else errors_get errors x y.
Proof.
  intros [Hl Hrows] [Hnx Hny] Hx Hy. simpl in Hnx, Hny.
  unfold errors_get, errors_add.
  destruct (decide (y = ny)) as [->|Hney].
  - rewrite list_lookup_alter_eq.
    destruct (lookup_lt_is_Some_2 errors (Z.to_nat ny)) as [row Hrow]; [lia|].
    rewrite Hrow. simpl.
    eapply Forall_lookup_1 in Hrows; [|exact Hrow].
    destruct (decide (x = nx)) as [->|Hnex].
    + rewrite list_lookup_alter_eq.
      destruct (lookup_lt_is_Some_2 row (Z.to_nat nx)) as [cell Hcell]; [lia|].
      rewrite Hcell. simpl. by rewrite decide_True.
    + rewrite list_lookup_alter_ne by lia. rewrite decide_False by tauto. done.
  - rewrite list_lookup_alter_ne by lia. rewrite decide_False by tauto. done.
Qed.

(** X9: on a grid of [height] rows of [width] cells [distributeError] adds
    to every cell the residual times its Floyd-Steinberg share (7/16 right,
    3/16 below left, 5/16 below, 1/16 below right, 0 elsewhere); shares
    aimed outside the grid are dropped, so no cell at or before the source
    pixel in row-major order changes, and the grid keeps its shape. *)
Theorem X9_distributeError_shares errors error x y width height :
  grid_shape width height errors ->
  grid_shape width height (distributeError errors error x y width height) /\
  (forall x' y', inb width height (x', y') ->
     errors_get (distributeError errors error x y width height) x' y' =
     add_scaled (errors_get errors x' y') error (fs_weight (x' - x) (y' - y))) /\
  (forall x' y', inb width height (x', y') -> y' < y \/ (y' = y /\ x' <= x) ->
     errors_get (distributeError errors error x y width height) x' y' =
     errors_get errors x' y').
Proof.
  intros Hs.
  assert (forall x' y', inb width height (x', y') ->
     errors_get (distributeError errors error x y width height) x' y' =
     add_scaled (errors_get errors x' y') error (fs_weight (x' - x) (y' - y))) as Hget.
  { intros x' y' [Hx' Hy']. simpl in Hx', Hy'.
    unfold distributeError. cbn [fold_left].
    repeat match goal with
    | |- context [if (0 <=? ?a) && (?a <? width) && (0 <=? ?b) && (?b <? height)
                  then _ else _] =>
        let Hin := fresh "Hin" in
        destruct (decide (inb width height (a, b))) as [Hin|Hin];
        [ replace ((0 <=? a) && (a <? width) && (0 <=? b) && (b <? height)) with true
            by (symmetry; destruct Hin as [? ?]; simpl in *;
                repeat (apply andb_true_iff; split);
                (apply Z.leb_le || apply Z.ltb_lt); lia)
        | replace ((0 <=? a) && (a <? width) && (0 <=? b) && (b <? height)) with false
            by (symmetry; unfold inb in Hin; simpl in Hin;
                destruct (Z.leb_spec 0 a), (Z.ltb_spec a width),
                  (Z.leb_spec 0 b), (Z.ltb_spec b height); simpl; try done; lia) ]
    end;
    repeat (erewrite errors_get_add;
            [| repeat apply errors_add_shape; exact Hs | done | lia | lia ]);
    unfold fs_weight, add_scaled, inb in *; simpl in *;
    repeat case_decide; try lia;
    destruct (errors_get errors x' y'); simpl; f_equal; ring. }
  split_and!.
  - unfold distributeError. cbn [fold_left].
    repeat case_match; repeat apply errors_add_shape; done.
  - exact Hget.
  - intros x' y' Hin Hbefore. rewrite (Hget x' y' Hin).
    unfold fs_weight. repeat case_decide; try lia.
    unfold add_scaled. destruct (errors_get errors x' y'); simpl. f_equal; ring.
Qed.

Lemma X9_witness :
  errors_get (distributeError (new_errors 3 3) (red_error 16) 1 1 3 3) 0 2 =
  add_scaled (errors_get (new_errors 3 3) 0 2) (red_error 16) (fs_weight (0 - 1) (2 - 1)).
Proof.
  assert (grid_shape 3 3 (new_errors 3 3)) as Hs.
  { split; [reflexivity|]. repeat constructor. }
  assert (inb 3 3 (0, 2)) as Hin by by_eval.
  pose proof (X9_distributeError_shares (new_errors 3 3) (red_error 16) 1 1 3 3 Hs) as H.
  destruct H as (_ & H & _). exact (H 0 2 Hin).
Defined.

(** ** Dithering an image that is already in palette colours *)

Lemma distributeError_zero errors x y width height :
  distributeError errors (RGB.mk 0 0 0)%Qc x y width height = errors.
Proof.
  assert (forall nx ny wt, errors_add errors nx ny (RGB.mk 0 0 0)%Qc wt = errors) as Hadd.
  { intros nx ny wt. unfold errors_add. apply list_alter_id. intros row.
    apply list_alter_id. intros [r g b]. simpl. f_equal; ring. }
  unfold distributeError. cbn [fold_left].
  repeat (case_match; rewrite ?Hadd); done.
Qed.

Lemma adjusted_zero_error (pixel : RGBA.t) (strength : Qc) :
  RGBA.mk (RGBA.r pixel + 0 * strength) (RGBA.g pixel + 0 * strength)
          (RGBA.b pixel + 0 * strength) (RGBA.a pixel)%Qc = pixel.
Proof. destruct pixel; simpl. f_equal; ring. Qed.

Lemma findClosestColor_exact options c pal e e' :
  e ∈ pal -> same_rgb c e ->
  findClosestColor (new_PicPixeller options) c pal = Some e' -> same_rgb c e'.
Proof.
  intros He Hc Hf.
  destruct (findClosestColor_minimal _ _ _ _ Hf) as (_ & Hmin).
  specialize (Hmin e He).
  rewrite (colorDistance_same_rgb_l _ c e e Hc), colorDistance_self in Hmin.
  by apply colorDistance_zero_same_rgb in Hmin.
Qed.

Lemma dithering_exact_simulation options img pal strength (l : list (Z * Z))
    (output : ImageData) (errors : list (list RGB.t)) :
  (forall x y, errors_get errors x y = RGB.mk 0 0 0)%Qc ->
  Forall (fun p => exists e, e ∈ pal /\ same_rgb (getRGBA img p.1 p.2) e) l ->
  (st ← for_of l (fun p st =>
      (fun x '(output, errors) =>
        let pixel := getRGBA img x p.2 in
        let error := errors_get errors x p.2 in
        let adjustedPixel :=
          RGBA.mk (RGBA.r pixel + RGB.r error * strength)
                  (RGBA.g pixel + RGB.g error * strength)
                  (RGBA.b pixel + RGB.b error * strength) (RGBA.a pixel) in
        newPixel ← defined (findClosestColor (new_PicPixeller options) adjustedPixel pal);
        let output := setRGBA output x p.2 newPixel in
        let pixelError :=
          RGB.mk (RGBA.r adjustedPixel - RGBA.r newPixel)
                 (RGBA.g adjustedPixel - RGBA.g newPixel)
                 (RGBA.b adjustedPixel - RGBA.b newPixel) in
        Ok (output, distributeError errors pixelError x p.2 (width img) (height img)))%Qc
      p.1 st) (output, errors);
   Ok st.1) =
  for_of l (fun p output =>
      newColor ← defined (findClosestColor (new_PicPixeller options)
                            (getRGBA img p.1 p.2) pal);
      Ok (setRGBA output p.1 p.2 newColor)) output.
Proof.
  intros Hzero Hall. revert output.
  induction Hall as [|[x y] l (e & He & Hc) _ IH]; intros output; [done|].
  cbn [for_of fst snd] in *. rewrite Hzero. cbn [RGB.r RGB.g RGB.b].
  rewrite adjusted_zero_error.
  destruct (findClosestColor _ (getRGBA img x y) pal) as [e'|] eqn:Hf; [|done].
  cbn [defined mbind result_bind].
  destruct (findClosestColor_exact options _ pal e e' He Hc Hf) as (Er & Eg & Eb).
  rewrite Er, Eg, Eb.
  replace (RGB.mk (RGBA.r e' - RGBA.r e') (RGBA.g e' - RGBA.g e')
                  (RGBA.b e' - RGBA.b e'))%Qc with (RGB.mk 0 0 0)%Qc
    by (f_equal; ring).
  rewrite distributeError_zero. apply IH.
Qed.

(** X10: on a buffer whose every pixel already has the R, G and B of some
    palette entry, no residual arises: [applyDithering] at any strength
    returns exactly what [quantizeColors] returns. *)
Theorem X10_dithering_without_residual options img pal strength :
  (forall x y, inb (width img) (height img) (x, y) ->
     exists e, e ∈ pal /\ same_rgb (getRGBA img x y) e) ->
  applyDithering (new_PicPixeller options) img pal strength =
  quantizeColors (new_PicPixeller options) img pal.
Proof.
  intros Hpal. unfold applyDithering, quantizeColors.
  destruct (new_ImageData (width img) (height img)) as [output|e]; [|done].
  cbn [mbind result_bind]. rewrite !for_range_nested.
  apply dithering_exact_simulation.
  - intros x y. unfold errors_get, new_errors.
    destruct (replicate _ _ !! Z.to_nat y) as [row|] eqn:Hrow; [|done].
    apply lookup_replicate in Hrow as [-> _]. simpl.
    destruct (replicate _ _ !! Z.to_nat x) as [cell|] eqn:Hcell; [|done].
    by apply lookup_replicate in Hcell as [-> _].
  - apply Forall_forall. intros [x y] Hp. apply elem_of_coords in Hp. by apply Hpal.
Qed.

Lemma X10_witness :
  let img := mkImageData 2 1 [255; 0; 0; 9;  0; 0; 0; 200] in
  let pal := palette_of [(0, 0, 0); (255, 0, 0)] in
  applyDithering (new_PicPixeller no_options) img pal (frac 7 10) =
  quantizeColors (new_PicPixeller no_options) img pal.
Proof.
  intros img pal.
  apply (X10_dithering_without_residual no_options img pal (frac 7 10)).
  intros x y [Hx Hy]. simpl in Hx, Hy.
  assert (y = 0) as -> by lia.
  assert (x = 0 \/ x = 1) as [->| ->] by lia.
  - exists (rgba 255 0 0 255). split; [by_eval|]. (repeat split; by_eval).
  - exists (rgba 0 0 0 255). split; [by_eval|]. (repeat split; by_eval).
Defined.

(** ** Edge preservation: fixed points *)

Lemma Math_abs_nonneg (x : Qc) : (0 <= Math_abs x)%Qc.
Proof.
  unfold Math_abs. case_bool_decide as H.
  - apply Qclt_le_weak in H. apply Qcopp_le_compat in H. by rewrite Qcopp_involutive in H
      || exact H.
  - by apply Qcnot_lt_le.
Qed.

Lemma Math_abs_zero : Math_abs 0%Qc = 0%Qc.
Proof. by_eval. Qed.

Lemma mean_const (l : list Qc) (v : Qc) :
  l <> [] -> Forall (fun x => x = v) l -> mean l = v.
Proof.
  intros Hne Hall. unfold mean.
  assert (foldr Qcplus 0%Qc l = (v * num (Z.of_nat (length l)))%Qc) as ->.
  { clear Hne. unfold num. induction Hall as [|x l -> _ IH]; cbn [foldr length].
    - change (Z.of_nat 0) with 0. rewrite Z2Qc_inj_0. ring.
    - rewrite IH. rewrite Nat2Z.inj_succ, <- Z.add_1_r, Z2Qc_inj_add, Z2Qc_inj_1. ring. }
  apply Qcdiv_mult_l. unfold num. rewrite <- Z2Qc_inj_0. intros H. apply Z2Qc_inj in H.
  apply nonempty_length in Hne. lia.
Qed.

Lemma averageColor_const (l : list RGBA.t) (c : RGBA.t) :
  l <> [] -> Forall (fun p => p = c) l -> averageColor l = c.
Proof.
  intros Hne Hall. rewrite averageColor_mean. unfold mean_color. destruct c as [r g b a].
  assert (forall f : RGBA.t -> Qc, mean (f <$> l) = f (RGBA.mk r g b a)) as Hm.
  { intros f. apply mean_const; [by destruct l|].
    apply Forall_fmap. eapply Forall_impl; [exact Hall|]. by intros p ->. }
  by rewrite !Hm.
Qed.

(** X11: with a negative edge threshold every pixel that has a neighbour is
    an edge, so [detectAndPreserveEdges] returns a well-formed buffer
    unchanged. *)
Theorem X11_negative_threshold_keeps_image options img :
  wf_image img ->
  (options_edgeThreshold (new_PicPixeller options) < 0)%Qc ->
  detectAndPreserveEdges (new_PicPixeller options) img = Ok img.
Proof.
  intros Hwf Ht. pose proof Hwf as (Hw & Hh & _).
  destruct (detectAndPreserveEdges_spec (new_PicPixeller options) img _ _ Hw Hh
              (wf_image_sized _ Hwf)) as (out & -> & Hsz & Hpx).
  f_equal. apply (image_ext (width img) (height img)); [done|done|by apply wf_image_sized|].
  intros x y Hin. rewrite (Hpx x y Hin). cbn zeta.
  destruct (getNeighborPixels img x y) as [|n l]; [done|].
  assert (isEdgePixel (new_PicPixeller options) (getRGBA img x y) (n :: l)
            (options_edgeThreshold (new_PicPixeller options)) = true) as ->.
  { unfold isEdgePixel. cbn [existsb]. apply orb_true_iff. left.
    apply bool_decide_eq_true. eapply Qclt_le_trans; [exact Ht|apply Math_abs_nonneg]. }
  by rewrite andb_false_r.
Qed.

Lemma X11_witness :
  let options := with_edgeThreshold (Some (num (-1))) no_options in
  let img := mkImageData 2 1 [1; 2; 3; 4; 5; 6; 7; 8] in
  detectAndPreserveEdges (new_PicPixeller options) img = Ok img.
Proof.
  intros options img.
  assert (wf_image img) as Hwf by by_eval.
  assert (options_edgeThreshold (new_PicPixeller options) < 0)%Qc as Ht by by_eval.
  pose proof (X11_negative_threshold_keeps_image options img Hwf Ht) as H.
  exact H.
Defined.

Lemma detectAndPreserveEdges_uniform options img c :
  wf_image img ->
  (0 <= options_edgeThreshold (new_PicPixeller options))%Qc ->
  (forall x y, inb (width img) (height img) (x, y) -> getRGBA img x y = c) ->
  detectAndPreserveEdges (new_PicPixeller options) img = Ok img.
Proof.
  intros Hwf Ht Hc. pose proof Hwf as (Hw & Hh & _).
  destruct (detectAndPreserveEdges_spec (new_PicPixeller options) img _ _ Hw Hh
              (wf_image_sized _ Hwf)) as (out & -> & Hsz & Hpx).
  f_equal. apply (image_ext (width img) (height img)); [done|done|by apply wf_image_sized|].
  intros x y Hin. rewrite (Hpx x y Hin). cbn zeta.
  rewrite getNeighborPixels_neighbors_in.
  assert (Forall (fun p => p = c) (neighbors_in img x y)) as Hall.
  { unfold neighbors_in. apply Forall_fmap, Forall_forall.
    intros [nx ny] Hp. apply list_elem_of_filter in Hp as [Hp _]. by apply Hc. }
  destruct (decide (neighbors_in img x y = [])) as [->|Hne]; [done|].
  rewrite bool_decide_eq_true_2 by (by apply nonempty_length).
  assert (isEdgePixel (new_PicPixeller options) (getRGBA img x y) (neighbors_in img x y)
            (options_edgeThreshold (new_PicPixeller options)) = false) as ->.
  { unfold isEdgePixel. apply not_true_iff_false. rewrite existsb_exists.
    intros (n & Hn & Hlt). apply list_elem_of_In in Hn.
    eapply Forall_forall in Hall; [|exact Hn]. subst n. rewrite (Hc x y Hin) in Hlt.
    apply bool_decide_eq_true in Hlt.
    replace (luma (new_PicPixeller options) c - luma (new_PicPixeller options) c)%Qc
      with 0%Qc in Hlt by ring.
    rewrite Math_abs_zero in Hlt. by apply Qclt_not_le in Hlt. }
  cbn [negb andb]. rewrite (averageColor_const _ c Hne Hall), (Hc x y Hin).
  apply stored_byte_pixel. rewrite <- (Hc x y Hin). by apply getRGBA_byte_pixel.
Qed.

(** X12: with a non-negative threshold a well-formed buffer of a single
    colour (alpha included) is returned unchanged by
    [detectAndPreserveEdges]: no pixel is an edge and every average is the
    colour itself. *)
Theorem X12_uniform_image_is_kept options img c :
  wf_image img ->
  (0 <= options_edgeThreshold (new_PicPixeller options))%Qc ->
  (forall x y, inb (width img) (height img) (x, y) -> getRGBA img x y = c) ->
  detectAndPreserveEdges (new_PicPixeller options) img = Ok img.
Proof. apply detectAndPreserveEdges_uniform. Qed.

Lemma X12_witness :
  let img := fill_image 3 2 [9; 8; 7; 6] in
  detectAndPreserveEdges (new_PicPixeller no_options) img = Ok img.
Proof.
  intros img.
  assert (wf_image img) as Hwf by by_eval.
  assert (0 <= options_edgeThreshold (new_PicPixeller no_options))%Qc as Ht by by_eval.
  assert (forall x y, inb (width img) (height img) (x, y) ->
            getRGBA img x y = rgba 9 8 7 6) as Hc.
  { intros x y [Hx Hy]. simpl in Hx, Hy.
    assert (y = 0 \/ y = 1) as [->| ->] by lia;
      (assert (x = 0 \/ x = 1 \/ x = 2) as [->|[->| ->]] by lia); reflexivity. }
  pose proof (X12_uniform_image_is_kept no_options img (rgba 9 8 7 6) Hwf Ht Hc) as H.
  exact H.
Defined.

(** ** The pipeline honours the colour limit *)

Lemma generatePalette_shape this img colorLimit :
  wf_image img ->
  Forall opaque_byte_color (generatePalette this img colorLimit) /\
  (0 <= colorLimit ->
   Z.of_nat (length (generatePalette this img colorLimit)) <= colorLimit) /\
  (1 <= colorLimit -> generatePalette this img colorLimit <> []).
Proof.
  intros Hwf. split_and!.
  - by apply generatePalette_bytes.
  - intros Hc. unfold generatePalette. rewrite length_fmap. by apply length_slice0.
  - intros Hc. apply generatePalette_nonempty; [|done].
    destruct Hwf as (Hw & Hh & Hl & _). apply nonempty_length. rewrite Hl. nia.
Qed.






(** ** A buffer of a single colour *)

Lemma uniform_palette_pixels img r g b a :
  wf_image img -> uniform img (rgba r g b a) ->
  palette_pixels img =
  replicate (Z.to_nat (width img * height img))
    (let hsl := rgbToHsl (num r) (num g) (num b) in
     Px.mk (num r) (num g) (num b) (HSL.h hsl) (HSL.s hsl) (HSL.l hsl) 1).
Proof.
  intros (Hw & Hh & Hl & _) Hu. symmetry. apply replicate_as_Forall.
  unfold palette_pixels.
  assert (Z.of_nat (length (data img)) = 4 * (width img * height img)) as El by lia.
  rewrite El.
  replace ((4 * (width img * height img) + 3) / 4) with (width img * height img)
    by (apply Z.div_unique with 3; lia).
  split; [by rewrite length_fmap, length_seqZ|].
  apply Forall_fmap, Forall_forall. intros k Hk. apply elem_of_seqZ in Hk.
  set (x := k mod width img). set (y := k / width img).
  assert (k = y * width img + x) as Ek.
  { unfold x, y. pose proof (Z.div_mod k (width img)). lia. }
  assert (0 <= x < width img) as Hx by (apply Z.mod_pos_bound; lia).
  assert (0 <= y) as Hy0 by (apply Z.div_pos; lia).
  assert (y < height img) as Hyh by nia.
  clearbody x y.
  pose proof (Hu x y (conj Hx (conj Hy0 Hyh))) as Hc.
  unfold getRGBA, rgba in Hc. injection Hc as Er Eg Eb _.
  replace ((y * width img + x) * 4) with (4 * k) in * by lia.
  unfold compose. cbn beta zeta. by rewrite Er, Eg, Eb.
Qed.

Lemma fold_upsert_same_key {A K V} `{EqDecision K} (key : A -> K)
    (upd : A -> option V -> V) (a : A) (n : nat) (v : V) :
  fold_left (fun m a => Map_upsert (key a) (upd a) m) (replicate n a) [(key a, v)] =
  [(key a, Nat.iter n (fun v => upd a (Some v)) v)].
Proof.
  revert v. induction n as [|n IH]; intros v; [done|].
  cbn [replicate fold_left Map_upsert]. rewrite decide_True by done.
  rewrite IH. by rewrite Nat.iter_succ_r.
Qed.

Lemma hueBins_of_replicate (n : nat) (px : Px.t) :
  hueBins_of (replicate (Datatypes.S n) px) =
  [(Math_floor (Px.h px * num HUE_BINS)%Qc, replicate (Datatypes.S n) px)].
Proof.
  unfold hueBins_of. cbn [replicate fold_left Map_upsert].
  rewrite (fold_upsert_same_key (fun pixel => Math_floor (Px.h pixel * num HUE_BINS)%Qc)
             (fun pixel o => default [] o ++ [pixel])).
  f_equal. f_equal. induction n as [|n IH]; [done|].
  rewrite Nat.iter_succ, IH. cbn [default].
  exact (eq_sym (replicate_S_end (Datatypes.S n) px)).
Qed.

Lemma slGrid_of_replicate (n : nat) (px : Px.t) zr zg zb :
  Px.r px = num zr -> Px.g px = num zg -> Px.b px = num zb ->
  slGrid_of (replicate (Datatypes.S n) px) =
  [((Math_floor (Px.s px * num SL_GRID)%Qc, Math_floor (Px.l px * num SL_GRID)%Qc),
    Cell.mk (num (Z.of_nat (Datatypes.S n) * zr)) (num (Z.of_nat (Datatypes.S n) * zg))
            (num (Z.of_nat (Datatypes.S n) * zb)) (Z.of_nat (Datatypes.S n)))].
Proof.
  intros Er Eg Eb. unfold slGrid_of. cbn [replicate fold_left Map_upsert].
  rewrite (fold_upsert_same_key
             (fun pixel => (Math_floor (Px.s pixel * num SL_GRID)%Qc,
                            Math_floor (Px.l pixel * num SL_GRID)%Qc))
             (fun pixel o =>
                let cell := default (Cell.mk 0 0 0 0)%Qc o in
                Cell.mk (Cell.r cell + Px.r pixel) (Cell.g cell + Px.g pixel)
                        (Cell.b cell + Px.b pixel) (Cell.count cell + 1))%Qc).
  f_equal. f_equal. induction n as [|n IH].
  - cbn [Nat.iter default Cell.r Cell.g Cell.b Cell.count].
    rewrite Er, Eg, Eb, !Qcplus_0_l. change (Z.of_nat 1) with 1.
    by rewrite !Z.mul_1_l.
  - rewrite Nat.iter_succ, IH. cbn [default from_option id Cell.r Cell.g Cell.b Cell.count].
    rewrite Er, Eg, Eb. unfold num. rewrite <- !Z2Qc_inj_add.
    f_equal; f_equal; lia.
Qed.

Lemma Math_round_exact_mean (m z : Z) :
  0 < m -> Math_round (num (m * z) / num m)%Qc = z.
Proof.
  intros Hm. unfold num. rewrite Z2Qc_inj_mul, (Qcmult_comm (Qc_of_Z m)).
  rewrite Qcdiv_mult_l; [apply Math_round_num|].
  rewrite <- Z2Qc_inj_0. intros H. apply Z2Qc_inj in H. lia.
Qed.

Lemma generatePalette_uniform this img r g b a colorLimit :
  wf_image img -> uniform img (rgba r g b a) -> 1 <= colorLimit ->
  generatePalette this img colorLimit = [rgba r g b 255].
Proof.
  intros Hwf Hu Hc. pose proof Hwf as (Hw & Hh & _).
  unfold generatePalette. rewrite (uniform_palette_pixels img r g b a Hwf Hu).
  destruct (Z.to_nat (width img * height img)) as [|n] eqn:En; [nia|].
  cbn zeta. rewrite hueBins_of_replicate. cbn [fold_left].
  rewrite bool_decide_eq_false_2 by done.
  pose proof (colorsPerBin_pos colorLimit Hc) as Hcpb.
  set (cpb := Math_ceil _) in *.
  unfold cellColors_of.
  rewrite (slGrid_of_replicate n _ r g b) by done.
  cbn [fmap list_fmap Cell.r Cell.g Cell.b Cell.count].
  rewrite !Math_round_exact_mean by lia.
  cbn [sort_by_count foldr insert_by_count app].
  unfold slice0 at 2. destruct (Z.ltb_spec cpb 0); [lia|].
  destruct (Z.to_nat cpb) as [|k] eqn:Ek; [lia|]. cbn [take]. rewrite take_nil.
  cbn [sort_by_count foldr insert_by_count app].
  unfold slice0. destruct (Z.ltb_spec colorLimit 0); [lia|].
  destruct (Z.to_nat colorLimit) as [|k'] eqn:Ek'; [lia|].
  cbn [take]. rewrite take_nil. reflexivity.
Qed.

(** X14: from a well-formed buffer of a single colour (r, g, b)
    [generatePalette] builds, for every colorLimit >= 1, the palette with the
    one entry (r, g, b, 255). *)
Theorem X14_single_colour_palette this img r g b a colorLimit :
  wf_image img -> uniform img (rgba r g b a) -> 1 <= colorLimit ->
  generatePalette this img colorLimit = [rgba r g b 255].
Proof. apply generatePalette_uniform. Qed.

Lemma X14_witness :
  generatePalette converter (fill_image 2 2 [9; 8; 7; 6]) 5 = [rgba 9 8 7 255].
Proof.
  assert (wf_image (fill_image 2 2 [9; 8; 7; 6])) as Hwf by by_eval.
  assert (uniform (fill_image 2 2 [9; 8; 7; 6]) (rgba 9 8 7 6)) as Hu.
  { intros x y [Hx Hy]. simpl in Hx, Hy.
    assert (y = 0 \/ y = 1) as [->| ->] by lia;
      (assert (x = 0 \/ x = 1) as [->| ->] by lia); reflexivity. }
  assert (1 <= 5) as Hc by lia.
  pose proof (X14_single_colour_palette converter (fill_image 2 2 [9; 8; 7; 6])
                9 8 7 6 5 Hwf Hu Hc) as H.
  exact H.
Defined.




(** ** The colour space *)

Lemma unit_of_channel (v : Qc) :
  channel_in_range v -> unit_interval (v / num 255)%Qc.
Proof.
  intros [H0 H1]. unfold unit_interval. Qc_to_Q. split; lra.
Qed.

Lemma Math_max3_spec (R G B : Qc) :
  let M := Math_max (Math_max R G) B in
  ((R <= M)%Qc /\ (G <= M)%Qc /\ (B <= M)%Qc) /\ (M = R \/ M = G \/ M = B).
Proof.
  unfold Math_max. repeat case_bool_decide; (split; [|auto]); Qc_to_Q; repeat split; lra.
Qed.

Lemma Math_min3_spec (R G B : Qc) :
  let m := Math_min (Math_min R G) B in
  (m <= R)%Qc /\ (m <= G)%Qc /\ (m <= B)%Qc /\ (m = R \/ m = G \/ m = B).
Proof.
  unfold Math_min. repeat case_bool_decide; (repeat split; [| | |auto]); Qc_to_Q; lra.
Qed.

Lemma Math_floor_below (x : Qc) (n : Z) :
  (0 <= x)%Qc -> (x < num n)%Qc -> 0 <= Math_floor x < n.
Proof.
  intros H0 Hn. unfold Math_floor. split.
  - rewrite <- (Qfloor_Z 0). by apply Qfloor_resp_le.
  - rewrite Zlt_Qlt. eapply Qle_lt_trans; [apply Qfloor_le|]. exact Hn.
Qed.

Lemma Math_floor_upto (x : Qc) (n : Z) :
  (0 <= x)%Qc -> (x <= num n)%Qc -> 0 <= Math_floor x <= n.
Proof.
  intros H0 Hn. unfold Math_floor. split.
  - rewrite <- (Qfloor_Z 0). by apply Qfloor_resp_le.
  - rewrite <- (Qfloor_Z n). by apply Qfloor_resp_le.
Qed.

Lemma rgbToHsl_unit (r g b : Qc) :
  channel_in_range r -> channel_in_range g -> channel_in_range b ->
  let hsl := rgbToHsl r g b in
  ((0 <= HSL.h hsl)%Qc /\ (HSL.h hsl < 1)%Qc) /\
  unit_interval (HSL.s hsl) /\ unit_interval (HSL.l hsl).
Proof.
  intros Hr Hg Hb.
  destruct (unit_of_channel r Hr) as [HR0 HR1].
  destruct (unit_of_channel g Hg) as [HG0 HG1].
  destruct (unit_of_channel b Hb) as [HB0 HB1].
  unfold rgbToHsl.
  generalize dependent (r / num 255)%Qc. intros R HR0 HR1.
  generalize dependent (g / num 255)%Qc. intros G HG0 HG1.
  generalize dependent (b / num 255)%Qc. intros B HB0 HB1.
  clear Hr Hg Hb r g b. cbv zeta.
  destruct (Math_max3_spec R G B) as [(HMR & HMG & HMB) HM].
  destruct (Math_min3_spec R G B) as (HmR & HmG & HmB & Hm).
  generalize dependent (Math_max (Math_max R G) B). intros M HMR HMG HMB HM.
  generalize dependent (Math_min (Math_min R G) B). intros m HmR HmG HmB Hm.
  unfold unit_interval.
  assert (0 <= m)%Qc as Hm0 by (destruct Hm as [->| [->| ->]]; done).
  assert (M <= 1)%Qc as HM1 by (destruct HM as [->| [->| ->]]; done).
  clear Hm.
  case_bool_decide as Hgrey; cbn [HSL.h HSL.s HSL.l].
  { clear HM. Qc_to_Q. repeat split; lra. }
  split; [|split].
  - repeat case_bool_decide; try (exfalso; destruct HM as [?|[?|?]]; congruence);
      clear HM; Qc_to_Q; abstract_inv; split; nra.
  - clear HM. case_bool_decide; Qc_to_Q; abstract_inv; split; nra.
  - clear HM. Qc_to_Q. split; lra.
Qed.

(** X16: for channels between 0 and 255, [rgbToHsl] returns a hue in [0, 1)
    and a saturation and a lightness in [0, 1]; a grey has hue 0 and
    saturation 0.  So [generatePalette] uses hue bins 0..11 only, while its
    saturation and lightness indices range over 0..4, one more than the
    [SL_GRID] = 4 steps per axis. *)
Theorem X16_rgbToHsl_ranges (r g b : Qc) :
  channel_in_range r -> channel_in_range g -> channel_in_range b ->
  let hsl := rgbToHsl r g b in
  ((0 <= HSL.h hsl)%Qc /\ (HSL.h hsl < 1)%Qc) /\
  unit_interval (HSL.s hsl) /\ unit_interval (HSL.l hsl) /\
  (r = g -> g = b -> HSL.h hsl = 0%Qc /\ HSL.s hsl = 0%Qc) /\
  0 <= Math_floor (HSL.h hsl * num HUE_BINS)%Qc < HUE_BINS /\
  0 <= Math_floor (HSL.s hsl * num SL_GRID)%Qc <= SL_GRID /\
  0 <= Math_floor (HSL.l hsl * num SL_GRID)%Qc <= SL_GRID.
Proof.
  intros Hr Hg Hb hsl.
  destruct (rgbToHsl_unit r g b Hr Hg Hb) as ([Hh0 Hh1] & [Hs0 Hs1] & [Hl0 Hl1]).
  fold hsl in Hh0, Hh1, Hs0, Hs1, Hl0, Hl1.
  do 3 (split; [done|]). split; [|split; [|split]].
  - intros -> ->. subst hsl. unfold rgbToHsl, Math_max, Math_min. cbv zeta.
    repeat case_bool_decide; try done.
  - apply Math_floor_below; unfold HUE_BINS; generalize dependent (HSL.h hsl);
      intros h Hh0 Hh1; Qc_to_Q; lra.
  - apply Math_floor_upto; unfold SL_GRID; generalize dependent (HSL.s hsl);
      intros s Hs0 Hs1; Qc_to_Q; lra.
  - apply Math_floor_upto; unfold SL_GRID; generalize dependent (HSL.l hsl);
      intros l Hl0 Hl1; Qc_to_Q; lra.
Qed.

Lemma X16_witness :
  0 <= Math_floor (HSL.h (rgbToHsl (num 255) (num 105) (num 180)) * num HUE_BINS)%Qc
    < HUE_BINS.
Proof.
  assert (channel_in_range (num 255)) as H1 by by_eval.
  assert (channel_in_range (num 105)) as H2 by by_eval.
  assert (channel_in_range (num 180)) as H3 by by_eval.
  pose proof (X16_rgbToHsl_ranges (num 255) (num 105) (num 180) H1 H2 H3) as H.
  destruct H as (_ & _ & _ & _ & H & _). exact H.
Defined.

(** X17: a colour with a channel at 0 and another above 0 has saturation
    exactly 1, so its saturation index is 4: it falls into a fifth row of
    the grid that [generatePalette] describes as 4 by 4. *)
Theorem X17_zero_channel_saturation_index (r g b : Qc) :
  channel_in_range r -> channel_in_range g -> channel_in_range b ->
  r = 0%Qc \/ g = 0%Qc \/ b = 0%Qc ->
  ~ (r = 0%Qc /\ g = 0%Qc /\ b = 0%Qc) ->
  HSL.s (rgbToHsl r g b) = 1%Qc /\
  Math_floor (HSL.s (rgbToHsl r g b) * num SL_GRID)%Qc = SL_GRID.
Proof.
  intros Hr Hg Hb Hz Hnz.
  assert (HSL.s (rgbToHsl r g b) = 1%Qc) as Hs.
  { destruct (unit_of_channel r Hr) as [HR0 HR1].
    destruct (unit_of_channel g Hg) as [HG0 HG1].
    destruct (unit_of_channel b Hb) as [HB0 HB1].
    assert ((r / num 255)%Qc = 0%Qc \/ (g / num 255)%Qc = 0%Qc \/ (b / num 255)%Qc = 0%Qc)
      as Hz'.
    { destruct Hz as [->|[->| ->]]; [left|right; left|right; right]; by_eval. }
    assert (~ ((r / num 255)%Qc = 0%Qc /\ (g / num 255)%Qc = 0%Qc /\
               (b / num 255)%Qc = 0%Qc)) as Hnz'.
    { intros (H1 & H2 & H3). apply Hnz.
      split_and!; apply Qc_is_canon; Qc_to_Q; lra. }
    unfold rgbToHsl.
    generalize dependent (r / num 255)%Qc. intros R HR0 HR1.
    generalize dependent (g / num 255)%Qc. intros G HG0 HG1.
    generalize dependent (b / num 255)%Qc. intros B HB0 HB1 Hz' Hnz'.
    clear Hr Hg Hb Hz Hnz r g b. cbv zeta.
    destruct (Math_max3_spec R G B) as [(HMR & HMG & HMB) HM].
    destruct (Math_min3_spec R G B) as (HmR & HmG & HmB & Hm).
    generalize dependent (Math_max (Math_max R G) B). intros M HMR HMG HMB HM.
    generalize dependent (Math_min (Math_min R G) B). intros m HmR HmG HmB Hm.
    assert (0 <= m)%Qc as Hm0 by (destruct Hm as [->| [->| ->]]; done).
    assert (m = 0%Qc) as ->.
    { apply Qc_is_canon. clear Hm HM Hnz'.
      destruct Hz' as [?|[?|?]]; Qc_to_Q; lra. }
    assert (M <= 1)%Qc as HM1 by (destruct HM as [->| [->| ->]]; done).
    assert (M <> 0%Qc) as HM0.
    { intros ->. apply Hnz'. clear Hm HM Hz' Hnz'.
      split_and!; apply Qc_is_canon; Qc_to_Q; lra. }
    clear Hm HM Hz' Hnz'.
    rewrite bool_decide_false by done.
    cbn [HSL.s]. case_bool_decide as Hl.
    - exfalso. Qc_to_Q. lra.
    - apply Qc_is_canon. Qc_to_Q. abstract_inv. nra. }
  split; [done|]. rewrite Hs. by_eval.
Qed.

Lemma X17_witness : HSL.s (rgbToHsl (num 40) (num 0) (num 7)) = 1%Qc.
Proof.
  assert (channel_in_range (num 40)) as H1 by by_eval.
  assert (channel_in_range (num 0)) as H2 by by_eval.
  assert (channel_in_range (num 7)) as H3 by by_eval.
  assert (num 40 = 0%Qc \/ num 0 = 0%Qc \/ num 7 = 0%Qc) as H4 by (right; left; by_eval).
  assert (~ (num 40 = 0%Qc /\ num 0 = 0%Qc /\ num 7 = 0%Qc)) as H5 by by_eval.
  pose proof (X17_zero_channel_saturation_index _ _ _ H1 H2 H3 H4 H5) as H.
  destruct H as [H _]. exact H.
Defined.

(** ** The component: validation and the conversion handler *)

Lemma is_byte_in_range (v : Qc) : is_byte v -> channel_in_range v.
Proof.
  intros (z & Hz & ->). unfold channel_in_range, num.
  split; apply (proj1 (Z2Qc_inj_le _ _)); lia.
Qed.

Lemma hasValidColor_spec color :
  Component.hasValidColor color = true <->
  channel_in_range (RGBA.r color) /\ channel_in_range (RGBA.g color) /\
  channel_in_range (RGBA.b color).
Proof.
  unfold Component.hasValidColor, channel_in_range.
  rewrite !andb_true_iff, !bool_decide_eq_true. tauto.
Qed.

Lemma validatePalette_spec palette :
  Component.validatePalette palette = Component.Returns true <-> valid_palette palette.
Proof.
  unfold Component.validatePalette, valid_palette. cbv zeta.
  case_bool_decide as Hlen.
  - split; [done|]. intros [Hne _]. by destruct palette.
  - assert (forallb Component.hasValidColor palette = true <->
            Forall (fun e => channel_in_range (RGBA.r e) /\ channel_in_range (RGBA.g e) /\
                             channel_in_range (RGBA.b e)) palette) as Hall.
    { clear Hlen. induction palette as [|e palette IH]; [done|].
      cbn [forallb]. rewrite andb_true_iff, Forall_cons, IH, hasValidColor_spec. done. }
    destruct (forallb Component.hasValidColor palette); cbn [negb].
    + split; [|done]. intros _. split; [by destruct palette|]. by apply Hall.
    + split; [done|]. intros [_ H]. apply Hall in H. done.
Qed.

Lemma generatePalette_valid this img colorLimit :
  wf_image img -> 1 <= colorLimit -> valid_palette (generatePalette this img colorLimit).
Proof.
  intros Hwf Hc.
  destruct (generatePalette_shape this img colorLimit Hwf) as (Hbytes & _ & Hne).
  split; [by apply Hne|].
  eapply Forall_impl; [exact Hbytes|].
  intros e (Hr & Hg & Hb & _). split_and!; by apply is_byte_in_range.
Qed.

(** X18: [validatePalette] returns [true] exactly on a non-empty palette
    whose R, G and B all lie between 0 and 255 (integer or not; alpha is not
    looked at), and it never returns [false]: on an empty palette it throws
    the "non-empty array" error, otherwise the "valid RGB values" error.
    Every palette [generatePalette] builds from a well-formed buffer with
    colorLimit >= 1 passes; with colorLimit 0 the generated palette is
    empty and is rejected. *)
Theorem X18_validatePalette_accepts_generated this img colorLimit :
  wf_image img ->
  (forall palette,
     (Component.validatePalette palette = Component.Returns true <->
      valid_palette palette) /\
     Component.validatePalette palette <> Component.Returns false /\
     (palette = [] ->
      Component.validatePalette palette =
      Component.ThrowsError "Invalid palette: Palette must be a non-empty array") /\
     (palette <> [] -> ~ valid_palette palette ->
      Component.validatePalette palette =
      Component.ThrowsError
        "Invalid palette: Each color must have valid RGB values (0-255)")) /\
  (1 <= colorLimit ->
   Component.validatePalette (generatePalette this img colorLimit) =
   Component.Returns true) /\
  (colorLimit = 0 -> generatePalette this img colorLimit = []).
Proof.
  intros Hwf. split_and!.
  - intros palette. split_and!.
    + apply validatePalette_spec.
    + unfold Component.validatePalette. cbv zeta. repeat case_match; done.
    + by intros ->.
    + intros Hne Hinv. pose proof (validatePalette_spec palette) as Hspec.
      unfold Component.validatePalette in *. cbv zeta in *.
      rewrite bool_decide_false in * by (by destruct palette).
      destruct (forallb Component.hasValidColor palette); cbn [negb] in *; [|done].
      exfalso. apply Hinv. by apply Hspec.
  - intros Hc. apply validatePalette_spec. by apply generatePalette_valid.
  - intros ->. unfold generatePalette, slice0. cbn [Z.ltb Z.compare Z.to_nat].
    by rewrite take_0.
Qed.

Lemma X18_witness :
  Component.validatePalette
    (generatePalette converter (mkImageData 2 1 [255; 0; 0; 255;  0; 0; 255; 7]) 3) =
  Component.Returns true.
Proof.
  assert (wf_image (mkImageData 2 1 [255; 0; 0; 255;  0; 0; 255; 7])) as Hwf by by_eval.
  pose proof (X18_validatePalette_accepts_generated converter _ 3 Hwf) as H.
  destruct H as (_ & H & _). apply H. lia.
Defined.








(** * Double precision *)

(** ** The stages *)

Lemma resizeImage64_spec this img targetWidth :
  0 < targetWidth -> 0 < F64.targetHeight_of img targetWidth ->
  exists out, F64.resizeImage this img targetWidth = Ok out /\
    sized targetWidth (F64.targetHeight_of img targetWidth) out /\
    forall x y, inb targetWidth (F64.targetHeight_of img targetWidth) (x, y) ->
      getRGBA out x y = stored (getRGBA img (source_x img targetWidth x)
                                             (source_y img targetWidth y)).
Proof.
  intros Hw Hh. unfold F64.resizeImage.
  rewrite new_ImageData_ok by done. cbn [mbind result_bind].
  rewrite for_range_nested.
  match goal with |- context [for_of _ ?b ?s] =>
    destruct (fun Hb => pixel_loops_spec (fun o : ImageData => o)
      targetWidth (F64.targetHeight_of img targetWidth) b
      (fun p _ new => new = stored (getRGBA img (source_x img targetWidth p.1)
                                             (source_y img targetWidth p.2)))
      Hb s) as (out & Hl & Hsz' & HQ)
  end.
  - intros [x y] s Hin Hs. cbn [fst snd]. eexists. split_and!; [done| | |].
    + by apply setRGBA_sized.
    + by eapply getRGBA_setRGBA_eq.
    + intros [x' y'] Hin' Hne. cbn [fst snd]. by eapply getRGBA_setRGBA_ne.
  - repeat split; simpl; by rewrite ?length_replicate.
  - exists out. split_and!; [exact Hl|done|].
    intros x y Hin. apply (HQ (x, y) Hin).
Qed.

Lemma resizeImage64_throw this img targetWidth :
  targetWidth <= 0 \/ F64.targetHeight_of img targetWidth <= 0 ->
  F64.resizeImage this img targetWidth = Throw IndexSizeError.
Proof. intros H. unfold F64.resizeImage. by rewrite new_ImageData_throw. Qed.

Lemma detectAndPreserveEdges64_spec this img w h :
  0 < w -> 0 < h -> sized w h img ->
  exists out, F64.detectAndPreserveEdges this img = Ok out /\ sized w h out /\
    forall x y, inb w h (x, y) ->
      getRGBA out x y =
        let neighbors := getNeighborPixels img x y in
        if bool_decide (0 < length neighbors)%nat
           && negb (F64.isEdgePixel this (getRGBA img x y) neighbors
                                    (options_edgeThreshold this))
        then stored (averageColor neighbors)
        else getRGBA img x y.
Proof.
  intros Hw Hh Hsz. pose proof Hsz as (Ew & Eh & El).
  unfold F64.detectAndPreserveEdges. rewrite Ew, Eh.
  rewrite new_ImageData_ok by done. cbn [mbind result_bind width height data].
  rewrite copy_data_same_length by (rewrite length_replicate; lia).
  rewrite for_range_nested.
  match goal with |- context [for_of _ ?b ?s] =>
    destruct (fun Hb => pixel_loops_spec (fun o : ImageData => o) w h b
      (fun p old new => new =
         let neighbors := getNeighborPixels img p.1 p.2 in
         if bool_decide (0 < length neighbors)%nat
            && negb (F64.isEdgePixel this (getRGBA img p.1 p.2) neighbors
                                     (options_edgeThreshold this))
         then stored (averageColor neighbors)
         else old)
      Hb s) as (out & Hl & Hsz' & HQ)
  end.
  - intros [x y] s Hin Hs. cbn [fst snd].
    destruct (bool_decide (0 < length (getNeighborPixels img x y))%nat); cbn [andb];
      [destruct (F64.isEdgePixel _ _ _ _); cbn [negb]|].
    + exists s. by split_and!.
    + eexists. split_and!; [done| | |].
      * by apply setRGBA_sized.
      * by eapply getRGBA_setRGBA_eq.
      * intros [x' y'] Hin' Hne. cbn [fst snd]. by eapply getRGBA_setRGBA_ne.
    + exists s. by split_and!.
  - repeat split; simpl; done.
  - exists out. split_and!; [exact Hl|done|].
    intros x y Hin. pose proof (HQ (x, y) Hin) as Hxy. cbn [fst snd] in Hxy.
    rewrite Hxy. destruct img as [w0 h0 d0]. simpl in *. by subst w0 h0.
Qed.

Lemma detectAndPreserveEdges64_dims this img out :
  F64.detectAndPreserveEdges this img = Ok out ->
  width out = width img /\ height out = height img.
Proof.
  unfold F64.detectAndPreserveEdges.
  destruct (new_ImageData _ _) as [o|] eqn:Hn; [|done]. cbn [mbind result_bind].
  apply new_ImageData_dims in Hn as (Hn & _).
  rewrite for_range_nested.
  apply (for_of_invariant (same_dims (width img) (height img))); [|done].
  intros p s1 s2 Hs1. repeat case_match; intros [= <-]; done.
Qed.

(** The buffer the colour stage receives. *)
Lemma processed64_sized this img opts :
  0 < default 64 (targetWidth opts) ->
  0 < F64.targetHeight_of img (default 64 (targetWidth opts)) ->
  exists processed,
    processed64 this img opts = Ok processed /\
    sized (default 64 (targetWidth opts))
          (F64.targetHeight_of img (default 64 (targetWidth opts))) processed.
Proof.
  intros Htw Hth. unfold processed64.
  destruct (resizeImage64_spec this img _ Htw Hth) as (resized & -> & Hsz & _).
  cbn [mbind result_bind].
  destruct (default true (preserveEdges opts)); [|by exists resized].
  destruct (detectAndPreserveEdges64_spec this resized _ _ Htw Hth Hsz)
    as (out & -> & Hs & _). by exists out.
Qed.

Lemma convertToPixelArt64_unfold this img opts :
  F64.convertToPixelArt this img opts =
  (processed ← processed64 this img opts;
   let colorPalette := palette_in_use this opts processed in
   if default true (dithering opts)
   then applyDithering this processed colorPalette
          (default (options_ditheringStrength this) (ditheringStrength opts))
   else quantizeColors this processed colorPalette).
Proof.
  unfold F64.convertToPixelArt, processed64, palette_in_use.
  destruct (F64.resizeImage this img (default 64 (targetWidth opts))); done.
Qed.

(** ** Signs *)

Lemma binary_round_aux_sign s m e l :
  match SpecFloat.binary_round_aux F64.prec F64.emax s m e l with
  | SpecFloat.S754_zero s' => s' = s
  | SpecFloat.S754_infinity s' => s' = s
  | SpecFloat.S754_nan => True
  | SpecFloat.S754_finite s' _ _ => s' = s
  end.
Proof.
  unfold SpecFloat.binary_round_aux.
  destruct (SpecFloat.shr_fexp _ _ _ _ _) as [mrs' e'].
  destruct (SpecFloat.shr_fexp _ _ _ _ _) as [mrs'' e''].
  destruct (SpecFloat.shr_m mrs''); [done| |done].
  by destruct (e'' <=? _).
Qed.

Lemma of_Z_nonneg z : 0 <= z -> nonneg64 (F64.of_Z z).
Proof.
  intros Hz. unfold F64.of_Z, SpecFloat.binary_normalize.
  destruct z as [|p|p]; [done| |lia].
  unfold SpecFloat.binary_round. destruct (SpecFloat.shl_align _ _ _) as [mz ez].
  pose proof (binary_round_aux_sign false (Z.pos mz) ez SpecFloat.loc_Exact) as H.
  unfold nonneg64. by destruct (SpecFloat.binary_round_aux _ _ _ _ _ _).
Qed.

Lemma mul_nonneg x y : nonneg64 x -> nonneg64 y -> nonneg64 (F64.mul x y).
Proof.
  unfold F64.mul, SpecFloat.SFmul, nonneg64.
  destruct x as [sx|sx| |sx mx ex], y as [sy|sy| |sy my ey]; try done;
    try (intros; subst; done).
  intros -> ->.
  pose proof (binary_round_aux_sign (xorb false false) (Z.pos (mx * my)) (ex + ey)
                SpecFloat.loc_Exact) as H.
  by destruct (SpecFloat.binary_round_aux _ _ _ _ _ _).
Qed.

Lemma div_nonneg x y : nonneg64 x -> nonneg64 y -> nonneg64 (F64.div x y).
Proof.
  unfold F64.div, SpecFloat.SFdiv, nonneg64.
  destruct x as [sx|sx| |sx mx ex], y as [sy|sy| |sy my ey]; try done;
    try (intros; subst; done).
  intros -> ->.
  destruct (SpecFloat.SFdiv_core_binary _ _ _ _ _ _) as [[mz ez] lz].
  pose proof (binary_round_aux_sign (xorb false false) mz ez lz) as H.
  by destruct (SpecFloat.binary_round_aux _ _ _ _ _ _).
Qed.

Lemma Math_round64_nonneg x : nonneg64 x -> 0 <= F64.Math_round x.
Proof.
  destruct x as [s|s| |s m e]; simpl; try done. intros ->. simpl.
  destruct (Z.leb_spec 0 e).
  - apply Z.mul_nonneg_nonneg; [lia|]. by apply Z.pow_nonneg.
  - apply Z.div_pos.
    + assert (0 <= 2 ^ (- e)) by (by apply Z.pow_nonneg). lia.
    + apply Z.pow_pos_nonneg; lia.
Qed.


Lemma targetHeight64_nonneg img targetWidth :
  0 <= width img -> 0 <= height img -> 0 <= targetWidth ->
  0 <= F64.targetHeight_of img targetWidth.
Proof.
  intros Hw Hh Ht. unfold F64.targetHeight_of. cbv zeta.
  apply Math_round64_nonneg, mul_nonneg; [by apply of_Z_nonneg|].
  apply div_nonneg; by apply of_Z_nonneg.
Qed.

(** ** The pipeline: failures and dimensions *)

Lemma convertToPixelArt64_throw_dims this img opts :
  default 64 (targetWidth opts) <= 0 \/
  F64.targetHeight_of img (default 64 (targetWidth opts)) <= 0 ->
  F64.convertToPixelArt this img opts = Throw IndexSizeError.
Proof. intros H. unfold F64.convertToPixelArt. by rewrite resizeImage64_throw. Qed.

Lemma convertToPixelArt64_total this img opts :
  let tw := default 64 (targetWidth opts) in
  let th := F64.targetHeight_of img tw in
  0 < tw -> 0 < th ->
  exists processed, processed64 this img opts = Ok processed /\
    sized tw th processed /\
    (palette_in_use this opts processed = [] ->
     F64.convertToPixelArt this img opts = Throw TypeError) /\
    (palette_in_use this opts processed <> [] ->
     exists out, F64.convertToPixelArt this img opts = Ok out /\ sized tw th out).
Proof.
  intros tw th Htw Hth. subst tw th.
  destruct (processed64_sized this img opts Htw Hth) as (processed & Hp & Hsz).
  exists processed. rewrite convertToPixelArt64_unfold, Hp. cbn [mbind result_bind].
  cbv zeta. split_and!; [done|exact Hsz| |].
  - intros ->. destruct Hsz as (Ew & Eh & _).
    destruct (default true (dithering opts));
      [apply applyDithering_nil|apply quantizeColors_nil]; lia.
  - intros Hne. destruct (default true (dithering opts)).
    + destruct (applyDithering_spec this processed _
        (default (options_ditheringStrength this) (ditheringStrength opts))
        _ _ Htw Hth Hsz Hne) as (out & -> & Hs & _). by exists out.
    + destruct (quantizeColors_spec this processed _ _ _ Htw Hth Hsz Hne)
        as (out & -> & Hs & _). by exists out.
Qed.






(** The claim C5 as stated fails: a 22x11 source converted to width 15 comes
    out 7 rows high, while round(11 * 15 / 22) = round(7.5) is 8.  The code
    multiplies the height by the rounded quotient 15 / 22, and the product
    is the double just below 7.5. *)
Lemma C5_counterexample :
  let img := fill_image 22 11 [10; 20; 30; 255] in
  let opts := mkOptions (Some 15) None None None None None None None in
  ~ (wf_image img -> valid_config converter opts ->
     exists out, F64.convertToPixelArt converter img opts = Ok out /\
       width out = 15 /\
       height out = Math_round (num (height img) * num 15 / num (width img))%Qc).
Proof.
  intros img opts H.
  assert (wf_image img) as Hwf by by_eval.
  assert (valid_config converter opts) as Hvalid by by_eval.
  assert (match F64.convertToPixelArt converter img opts with
          | Ok out => height out = 7
          | Throw _ => False
          end) as E by (vm_compute; reflexivity).
  assert (Math_round (num (height img) * num 15 / num (width img))%Qc = 8) as E8
    by by_eval.
  destruct (H Hwf Hvalid) as (out & Ho & _ & Hh).
  rewrite Ho in E. rewrite E8 in Hh. lia.
Qed.

(** C5 (amended): for a valid configuration and a well-formed source buffer,
    the conversion returns a buffer whose width is targetWidth and whose
    height is [Math.round(height * (targetWidth / width))] as the code
    evaluates it in double precision, quotient first, which is not always
    round(height * targetWidth / width).  The conversion throws only when
    the height so computed is 0.  Edge preservation and both colour
    reductions return buffers of the dimensions of their input. *)
Theorem C5_output_dimensions options img opts :
  wf_image img -> valid_config (new_PicPixeller options) opts ->
  let this := new_PicPixeller options in
  let tw := default 64 (targetWidth opts) in
  let th := F64.Math_round (F64.mul (F64.of_Z (height img))
                              (F64.div (F64.of_Z tw) (F64.of_Z (width img)))) in
  match F64.convertToPixelArt this img opts with
  | Ok out => width out = tw /\ height out = th
  | Throw e => th = 0 /\ e = IndexSizeError
  end /\
  (forall b out, F64.detectAndPreserveEdges this b = Ok out ->
     width out = width b /\ height out = height b) /\
  (forall b pal out, quantizeColors this b pal = Ok out ->
     width out = width b /\ height out = height b) /\
  (forall b pal strength out, applyDithering this b pal strength = Ok out ->
     width out = width b /\ height out = height b).
Proof.
  intros Hwf (Htw & Hcl & _ & Hpal) this tw th.
  split_and!.
  - change th with (F64.targetHeight_of img tw). subst tw th.
    pose proof Hwf as (Hw & Hh & _).
    assert (0 <= F64.targetHeight_of img (default 64 (targetWidth opts))) as Hth0
      by (apply targetHeight64_nonneg; lia).
    destruct (Z_le_gt_dec (F64.targetHeight_of img (default 64 (targetWidth opts))) 0)
      as [Hle|Hgt].
    + rewrite convertToPixelArt64_throw_dims by (by right). split; [lia|done].
    + destruct (convertToPixelArt64_total this img opts)
        as (processed & _ & Hsz & _ & Hne); [lia|lia|].
      destruct Hne as (out & -> & (Ew & Eh & _)); [|done].
      unfold palette_in_use. destruct (palette opts) as [p|] eqn:Ep.
      * by destruct Hpal.
      * apply generatePalette_nonempty; [|lia].
        apply (sized_data_nonempty (default 64 (targetWidth opts))
                 (F64.targetHeight_of img (default 64 (targetWidth opts))));
          [lia|lia|exact Hsz].
  - intros b out. apply detectAndPreserveEdges64_dims.
  - intros b pal out. apply quantizeColors_dims.
  - intros b pal strength out. apply applyDithering_dims.
Qed.

Lemma C5_witness :
  let img := fill_image 784 49 [100; 100; 100; 255] in
  let opts := mkOptions (Some 8) (Some 4) None None None None None None in
  match F64.convertToPixelArt (new_PicPixeller no_options) img opts with
  | Ok out => width out = 8 /\ height out = 0
  | Throw e => 0 = 0 /\ e = IndexSizeError
  end.
Proof.
  intros img opts.
  assert (wf_image img) as Hwf by by_eval.
  assert (valid_config (new_PicPixeller no_options) opts) as Hvalid by by_eval.
  destruct (C5_output_dimensions no_options img opts Hwf Hvalid) as (H & _).
  destruct (F64.convertToPixelArt (new_PicPixeller no_options) img opts).
  - exact H.
  - exact H.
Defined.

(** ** Edge preservation *)

Lemma isEdgePixel64_true options center neighbors threshold :
  F64.isEdgePixel (new_PicPixeller options) center neighbors threshold = true <->
  exists n, n ∈ neighbors /\ luma_differs64 threshold center n = true.
Proof.
  unfold F64.isEdgePixel. rewrite existsb_exists. split.
  - intros (n & Hin & Hn). exists n. split; [by apply list_elem_of_In|done].
  - intros (n & Hin & Hn). exists n. split; [by apply list_elem_of_In|done].
Qed.

(** The average of up to eight bytes that [averageColor] computes and
    [setRGBA] rounds is the same in double precision: the sum is an integer
    far below 2^53, and the rounded quotient agrees for every sum and
    count. *)
Lemma average_round64 (s n : Z) :
  1 <= n <= 8 -> 0 <= s <= 255 * n ->
  F64.Math_round (F64.div (F64.of_Z s) (F64.of_Z n)) = Math_round (num s / num n)%Qc.
Proof.
  intros Hn Hs.
  assert (forallb (fun n => forallb (fun s =>
     F64.Math_round (F64.div (F64.of_Z s) (F64.of_Z n)) =?
     Math_round (num s / num n)%Qc) (seqZ 0 (255 * n + 1))) (seqZ 1 8) = true) as Hall
    by (vm_compute; reflexivity).
  rewrite forallb_forall in Hall.
  assert (In n (seqZ 1 8)) as Hin.
  { apply list_elem_of_In, elem_of_seqZ. lia. }
  pose proof (Hall n Hin) as Hrow. cbv beta in Hrow. rewrite forallb_forall in Hrow.
  apply Z.eqb_eq, Hrow. apply list_elem_of_In, elem_of_seqZ. lia.
Qed.

(** The claim C8 as stated fails: in the 2x1 buffer of the greys 178 and 78
    the weighted lumas differ by exactly 100, which does not exceed the
    threshold 100, yet both pixels are left unchanged.  The code computes
    the difference of the two lumas as 100.00000000000001. *)
Lemma C8_counterexample :
  let img := mkImageData 2 1 [178; 178; 178; 255;  78; 78; 78; 255] in
  ~ (forall out, F64.detectAndPreserveEdges converter img = Ok out ->
       forall x y, inb 2 1 (x, y) ->
         let center := getRGBA img x y in
         let neighbors := neighbors_in img x y in
         neighbors <> [] ->
         (forall n, n ∈ neighbors ->
            ~ (num 100 < Math_abs (luma601 center - luma601 n))%Qc) ->
         getRGBA out x y = rounded (mean_color neighbors)).
Proof.
  intros img H.
  assert (F64.detectAndPreserveEdges converter img = Ok img) as E by by_eval.
  assert (inb 2 1 (0, 0)) as Hin by by_eval.
  assert (neighbors_in img 0 0 = [rgba 78 78 78 255]) as En by by_eval.
  pose proof (H img E 0 0 Hin) as H0. cbv zeta in H0. rewrite En in H0.
  assert (getRGBA img 0 0 <> rounded (mean_color [rgba 78 78 78 255])) as Hne by by_eval.
  apply Hne, H0; [discriminate|].
  intros n Hn. apply list_elem_of_singleton in Hn as ->. by_eval.
Qed.

(** C8 (amended): every pixel with an in-bounds neighbour whose luma differs
    from its own by more than the threshold is copied unchanged, the lumas
    (weights 0.299/0.587/0.114), their difference and the comparison being
    those the code computes in double precision; every other pixel with at
    least one in-bounds neighbour becomes the unweighted average, alpha
    included and rounded to the byte grid, of its in-bounds neighbours as
    read from the input buffer; a pixel without in-bounds neighbour is copied
    unchanged. *)
Theorem C8_edge_preservation options img :
  wf_image img ->
  let this := new_PicPixeller options in
  let threshold := default (num 100) (edgeThreshold options) in
  exists out, F64.detectAndPreserveEdges this img = Ok out /\
    width out = width img /\ height out = height img /\
    forall x y, inb (width img) (height img) (x, y) ->
      let center := getRGBA img x y in
      let neighbors := neighbors_in img x y in
      (neighbors = [] -> getRGBA out x y = center) /\
      ((exists n, n ∈ neighbors /\ luma_differs64 threshold center n = true) ->
       getRGBA out x y = center) /\
      (neighbors <> [] ->
       (forall n, n ∈ neighbors -> luma_differs64 threshold center n = false) ->
       getRGBA out x y = rounded (mean_color neighbors)).
Proof.
  intros Hwf this threshold. pose proof Hwf as (Hw & Hh & _).
  destruct (detectAndPreserveEdges64_spec this img _ _ Hw Hh (wf_image_sized _ Hwf))
    as (out & Hd & (Ew & Eh & _) & Hpx).
  exists out. split_and!; [done|done|done|].
  intros x y Hin center neighbors. rewrite (Hpx x y Hin). cbn zeta.
  rewrite getNeighborPixels_neighbors_in. fold neighbors. fold center.
  change (options_edgeThreshold this) with threshold.
  destruct (F64.isEdgePixel this center neighbors threshold) eqn:He.
  - rewrite andb_false_r. split_and!; [done|done|].
    intros _ Hno. apply isEdgePixel64_true in He as (n & Hn & Hlt).
    rewrite (Hno n Hn) in Hlt. done.
  - assert (~ exists n, n ∈ neighbors /\ luma_differs64 threshold center n = true)
      as Hno.
    { intros Hex. apply (isEdgePixel64_true options) in Hex. unfold this in He.
      congruence. }
    rewrite andb_true_r. split_and!.
    + intros ->. done.
    + intros Hex. by destruct Hno.
    + intros Hne _. rewrite bool_decide_eq_true_2 by (by apply nonempty_length).
      apply stored_averageColor; [done|]. by apply neighbors_in_byte_pixels.
Qed.

Lemma C8_witness :
  let img := mkImageData 2 1 [178; 178; 178; 255;  78; 78; 78; 255] in
  exists out, F64.detectAndPreserveEdges (new_PicPixeller no_options) img = Ok out /\
    getRGBA out 0 0 = getRGBA img 0 0.
Proof.
  intros img.
  assert (wf_image img) as Hwf by by_eval.
  pose proof (C8_edge_preservation no_options img Hwf) as H. cbv zeta in H.
  destruct H as (out & Ho & _ & _ & Hpx).
  exists out. split; [exact Ho|].
  assert (inb (width img) (height img) (0, 0)) as Hin by by_eval.
  assert (neighbors_in img 0 0 = [rgba 78 78 78 255]) as En by by_eval.
  assert (luma_differs64 (default (num 100) (edgeThreshold no_options))
            (getRGBA img 0 0) (rgba 78 78 78 255) = true) as Hd by by_eval.
  destruct (Hpx 0 0 Hin) as (_ & Hedge & _). apply Hedge.
  exists (rgba 78 78 78 255). split; [rewrite En; left|exact Hd].
Defined.

(** ** Resampling *)



(** ** Nearest palette entry *)

Lemma ltb64_trans x y z :
  F64.ltb x y = true -> F64.ltb y z = true -> F64.ltb x z = true.
Proof.
  unfold F64.ltb, SpecFloat.SFltb, SpecFloat.SFcompare.
  destruct x as [sx|sx| |sx mx ex], y as [sy|sy| |sy my ey], z as [sz|sz| |sz mz ez];
    try done;
    repeat match goal with s : bool |- _ => destruct s end; try done;
    cmp_cases; simpl; try done; lia.
Qed.

Lemma ltb64_lt_ge x y z :
  F64.ltb x y = true -> F64.ltb z y = false -> z <> SpecFloat.S754_nan ->
  F64.ltb x z = true.
Proof.
  unfold F64.ltb, SpecFloat.SFltb, SpecFloat.SFcompare.
  destruct x as [sx|sx| |sx mx ex], y as [sy|sy| |sy my ey], z as [sz|sz| |sz mz ez];
    try done;
    repeat match goal with s : bool |- _ => destruct s end; try done;
    cmp_cases; simpl; try done; lia.
Qed.

Lemma ltb64_irrefl x : F64.ltb x x = false.
Proof.
  unfold F64.ltb, SpecFloat.SFltb, SpecFloat.SFcompare.
  destruct x as [sx|sx| |sx mx ex]; try done;
    repeat match goal with s : bool |- _ => destruct s end; try done;
    cmp_cases; simpl; try done; lia.
Qed.

Lemma ltb64_asym x y : F64.ltb x y = true -> F64.ltb y x = false.
Proof.
  intros Hxy. destruct (F64.ltb y x) eqn:Hyx; [|done].
  pose proof (ltb64_trans _ _ _ Hxy Hyx) as H. by rewrite ltb64_irrefl in H.
Qed.

Lemma measurable64_not_nan this c e :
  measurable64 this c e -> F64.colorDistance this c e <> SpecFloat.S754_nan.
Proof. unfold measurable64. intros H E. rewrite E in H. done. Qed.

Section closest64.
Context (this : PicPixeller) (c : RGBA.t).
Local Abbreviation cd64 := (F64.colorDistance this c).

Lemma closest64_fold_spec (l : list RGBA.t) (d0 : F64.float) (o0 : option RGBA.t) :
  Forall (measurable64 this c) l ->
  (fold_left (F64.closest_step this c) l (d0, o0) = (d0, o0) /\
   Forall (fun e' => F64.ltb (cd64 e') d0 = false) l) \/
  (exists l1 e l2, l = l1 ++ e :: l2 /\
     fold_left (F64.closest_step this c) l (d0, o0) = (cd64 e, Some e) /\
     F64.ltb (cd64 e) d0 = true /\
     Forall (fun e' => F64.ltb (cd64 e) (cd64 e') = true) l1 /\
     Forall (fun e' => F64.ltb (cd64 e') (cd64 e) = false) l2).
Proof.
  intros Hm. revert d0 o0.
  induction Hm as [|a l Ha _ IH]; intros d0 o0; [left; by split|].
  cbn [fold_left]. unfold F64.closest_step at 2 4. cbn [fst].
  destruct (F64.ltb (cd64 a) d0) eqn:Hlt.
  - right. destruct (IH (cd64 a) (Some a))
      as [[Hf Hall]|(l1 & e & l2 & -> & Hf & Hlt' & H1 & H2)].
    + exists [], a, l. by split_and!.
    + exists (a :: l1), e, l2. split_and!; try done.
      * by eapply ltb64_trans.
      * by constructor.
  - destruct (IH d0 o0) as [[Hf Hall]|(l1 & e & l2 & -> & Hf & Hlt' & H1 & H2)].
    + left. split; [done|]. by constructor.
    + right. exists (a :: l1), e, l2. split_and!; try done.
      constructor; [|done].
      eapply ltb64_lt_ge; [exact Hlt'|exact Hlt|by apply measurable64_not_nan].
Qed.

Lemma closest64_fold_Some (l : list RGBA.t) (d0 : F64.float) (o0 : option RGBA.t) :
  is_Some o0 -> is_Some (fold_left (F64.closest_step this c) l (d0, o0)).2.
Proof.
  revert d0 o0. induction l as [|a l IH]; intros d0 o0 Ho; [done|].
  cbn [fold_left]. unfold F64.closest_step at 2. cbn [fst].
  destruct (F64.ltb (cd64 a) d0); by apply IH.
Qed.

Lemma findClosestColor64_decompose (pal : list RGBA.t) :
  Forall (measurable64 this c) pal -> pal <> [] ->
  exists l1 e l2, pal = l1 ++ e :: l2 /\
    F64.findClosestColor this c pal = Some e /\
    Forall (fun e' => F64.ltb (cd64 e) (cd64 e') = true) l1 /\
    Forall (fun e' => F64.ltb (cd64 e') (cd64 e) = false) l2.
Proof.
  intros Hm Hne. unfold F64.findClosestColor.
  destruct (closest64_fold_spec pal F64.Infinity (pal !! 0%nat) Hm)
    as [[_ Hall]|(l1 & e & l2 & Hp & Hf & _ & H1 & H2)].
  - destruct pal as [|a pal]; [done|]. apply Forall_cons in Hall as [Ha _].
    apply Forall_cons in Hm as [Hma _]. unfold measurable64 in Hma. congruence.
  - exists l1, e, l2. rewrite Hf. by split_and!.
Qed.
End closest64.

(** X2: [findClosestColor] returns [undefined] exactly for the empty
    palette.  When every distance it computes is a number below [Infinity],
    it returns the entry at the least index [i] among those whose computed
    distance is minimal: no entry has a smaller computed distance, and every
    entry before [i] has a strictly larger one.  Distances are the doubles
    the code computes, so two entries at the same exact distance can be
    ordered by the rounding of their distances. *)
Theorem X2_findClosestColor_first_nearest this color pal :
  (F64.findClosestColor this color pal = None <-> pal = []) /\
  (Forall (measurable64 this color) pal -> pal <> [] ->
   exists i e, pal !! i = Some e /\ F64.findClosestColor this color pal = Some e /\
     (forall j e', pal !! j = Some e' ->
        F64.ltb (F64.colorDistance this color e') (F64.colorDistance this color e)
        = false) /\
     (forall j e', (j < i)%nat -> pal !! j = Some e' ->
        F64.ltb (F64.colorDistance this color e) (F64.colorDistance this color e')
        = true)).
Proof.
  split.
  - split; [|by intros ->].
    intros Hn. destruct pal as [|a pal]; [done|].
    pose proof (closest64_fold_Some this color (a :: pal) F64.Infinity
                  (Some a) ltac:(by eexists)) as [e He].
    unfold F64.findClosestColor in Hn. cbn [lookup list_lookup] in Hn.
    rewrite Hn in He. done.
  - intros Hm Hne.
    destruct (findClosestColor64_decompose this color pal Hm Hne)
      as (l1 & e & l2 & Hp & Hf & H1 & H2).
    exists (length l1), e. split_and!.
    + subst pal. by rewrite list_lookup_middle.
    + done.
    + intros j e' Hj. subst pal.
      apply list_elem_of_lookup_2, elem_of_app in Hj as [Hj|Hj].
      * apply ltb64_asym. by eapply Forall_forall in H1.
      * apply elem_of_cons in Hj as [->|Hj]; [apply ltb64_irrefl|].
        by eapply Forall_forall in H2.
    + intros j e' Hlt Hj. subst pal. rewrite lookup_app_l in Hj by done.
      eapply Forall_lookup_1 in H1; [|exact Hj]. done.
Qed.

Lemma X2_witness :
  exists i e,
    palette_of [(2, 6, 10); (7, 3, 11)] !! i = Some e /\
    F64.findClosestColor converter (rgba 0 0 0 255)
      (palette_of [(2, 6, 10); (7, 3, 11)]) = Some e.
Proof.
  assert (Forall (measurable64 converter (rgba 0 0 0 255))
                 (palette_of [(2, 6, 10); (7, 3, 11)])) as Hm.
  { repeat (constructor; [vm_compute; reflexivity|]). constructor. }
  destruct (X2_findClosestColor_first_nearest converter (rgba 0 0 0 255)
              (palette_of [(2, 6, 10); (7, 3, 11)])) as (_ & H).
  destruct (H Hm) as (i & e & H1 & H2 & _); [discriminate|].
  exists i, e. split; [exact H1|exact H2].
Defined.
